(** * Retrieval core of the Bookworm Bot server ([server.js])

    A shallow embedding of the server's retrieval code and of the request
    handler around it, followed by the properties stated for it.

    The source file holds two copies of the server, one after the other.
    The first (lines 1 to 213) never closes the body of [loadDocuments] and
    is not a program; the model is of the second (lines 214 to 419), whose
    [/generate] handler is in the module [V2].

    JavaScript numbers are IEEE-754 binary64 values and are modelled by
    Rocq's primitive floats, whose operations are the same correctly rounded
    binary64 operations.  Strings are modelled by [string]; a character
    stands for a UTF-16 code unit below 256. *)

From Stdlib Require Import Reals Lra ZArith List String Ascii Lia Floats Bool Sorted
  Permutation.
From stdpp Require Import gmap strings list.
Import ListNotations.

(** * Part I: the model *)

(** ** Numbers *)

Abbreviation sf := spec_float.

Definition sf_is_nan (x : sf) : bool :=
  match x with S754_nan => true | _ => false end.

(** A float is strictly signed when it is a nonzero number or an infinity of
    the given sign. *)
Definition signed (s : bool) (x : sf) : Prop :=
  match x with
  | S754_finite s' _ _ | S754_infinity s' => s' = s
  | _ => False
  end.

(** The mantissa of a finite float at a smaller exponent, with its sign. *)
Definition aligned (s : bool) (m : positive) (e e' : Z) : Z :=
  cond_Zopp s (Zpos (fst (shl_align m e e'))).

(** An order-preserving key: sign class, then exponent, then mantissa. *)
Definition sf_key (x : sf) : Z * Z * Z :=
  match x with
  | S754_nan => (0, 0, 0)
  | S754_infinity true => (-2, 0, 0)
  | S754_finite true m e => (-1, - e, - Zpos m)
  | S754_zero _ => (0, 0, 0)
  | S754_finite false m e => (1, e, Zpos m)
  | S754_infinity false => (2, 0, 0)
  end%Z.

Definition key_compare (a b : Z * Z * Z) : comparison :=
  let '(a1, a2, a3) := a in
  let '(b1, b2, b3) := b in
  match (a1 ?= b1)%Z with
  | Eq => match (a2 ?= b2)%Z with Eq => (a3 ?= b3)%Z | c => c end
  | c => c
  end.

Definition zero_or_nan (x : sf) : Prop :=
  match x with S754_zero _ | S754_nan => True | _ => False end.

Local Open Scope float_scope.

(** A number that is [+0], [-0] or NaN. *)
Definition zn (x : float) : Prop := zero_or_nan (Prim2SF x).

(** The number of a length or a count: exact below 2^53. *)
Definition number_of_nat (n : nat) : float :=
  SF2Prim (binary_normalize prec emax (Z.of_nat n) 0 false).

(** [Math.ceil]. *)
Definition Math_ceil (x : float) : float :=
  match Prim2SF x with
  | S754_finite s m e =>
      if (0 <=? e)%Z then x
      else
        let q := (Zpos m / 2 ^ (- e))%Z in
        let exact := (Zpos m mod 2 ^ (- e) =? 0)%Z in
        let n := if s then (- q)%Z else if exact then q else (q + 1)%Z in
        SF2Prim (binary_normalize prec emax n 0 s)
  | _ => x
  end.

(** ** Vector Math *)

(** [Array.prototype.reduce(callback, initialValue)]: the callback receives
    the accumulator, the element and its index. *)
Fixpoint reduce_from {A B : Type} (callback : B -> A -> nat -> B)
    (arr : list A) (idx : nat) (acc : B) : B :=
  match arr with
  | [] => acc
  | a :: rest => reduce_from callback rest (S idx) (callback acc a idx)
  end.

Definition reduce {A B : Type} (callback : B -> A -> nat -> B)
    (arr : list A) (initialValue : B) : B :=
  reduce_from callback arr 0 initialValue.

(** [vec[idx]] as a multiplication operand: an index out of range reads
    [undefined], which the multiplication converts to NaN. *)
Definition at_index (vec : list float) (idx : nat) : float := nth idx vec nan.

Definition cosineSimilarity (vecA vecB : list float) : float :=
  let dotProduct := reduce (fun sum a idx => sum + a * at_index vecB idx) vecA 0 in
  let magA := sqrt (reduce (fun sum a _ => sum + a * a) vecA 0) in
  let magB := sqrt (reduce (fun sum b _ => sum + b * b) vecB 0) in
  dotProduct / (magA * magB).

(** The quantities the specification names: the dot product of two vectors
    and the Euclidean magnitude, in binary64 arithmetic, summed left to right
    from 0. *)
Definition dot_from (acc : float) (a b : list float) : float :=
  fold_left (fun sum xy => sum + fst xy * snd xy) (combine a b) acc.

Definition dot (a b : list float) : float := dot_from 0 a b.

Definition sum_squares_from (acc : float) (a : list float) : float :=
  fold_left (fun sum x => sum + x * x) a acc.

Definition sum_squares (a : list float) : float := sum_squares_from 0 a.

Definition magnitude (a : list float) : float := sqrt (sum_squares a).

Definition cosine_spec (a b : list float) : float :=
  dot a b / (magnitude a * magnitude b).

(** A vector all of whose components are [+0] or [-0]. *)
Definition zero_vector (a : list float) : Prop :=
  Forall (fun x => is_zero x = true) a.

(** ** Rounding error

    The real number [m * 2^e]; the bound [eps = 2^-52] on the relative error
    of one rounding to binary64 in the normal range; and the relation that
    holds between two positive reals that [k] such roundings can separate. *)
Definition F2R (m e : Z) : R := (IZR m * powerRZ 2 e)%R.

Definition eps : R := (/ 4503599627370496)%R.

Definition close (k : nat) (x y : R) : Prop :=
  (0 < x /\ 0 < y /\ x <= y * (1 + eps) ^ k /\ y <= x * (1 + eps) ^ k)%R.

(** Whether the positive float of mantissa [m] and exponent [e] is within
    [2^-49] of 1. *)
Definition near_one (e : Z) (m : Z) : bool :=
  match m with
  | Zpos p => abs (SF2Prim (S754_finite false p e) - 1) <=? 0x1p-49
  | _ => false
  end.

(** The real number a binary64 value stands for, 0 for the infinities and
    NaN; the values to which it gives their meaning are the zeros and the
    finite numbers. *)
Definition SF2R (x : sf) : R :=
  match x with
  | S754_finite s m e => if s then (- F2R (Zpos m) e)%R else F2R (Zpos m) e
  | _ => 0%R
  end.

Definition sf_finite (x : sf) : bool :=
  match x with
  | S754_zero _ | S754_finite _ _ _ => true
  | _ => false
  end.

Definition B2R (x : float) : R := SF2R (Prim2SF x).

Definition finite (x : float) : bool := sf_finite (Prim2SF x).

(** The sum of the squares of a vector's components and the sum of the
    absolute values of the products of two vectors' components, over the
    reals. *)
Fixpoint R_sum_squares (a : list float) : R :=
  match a with
  | [] => 0%R
  | x :: a => (B2R x * B2R x + R_sum_squares a)%R
  end.

Fixpoint R_abs_dot (a b : list float) : R :=
  match a, b with
  | x :: a, y :: b => (Rabs (B2R x) * Rabs (B2R y) + R_abs_dot a b)%R
  | _, _ => 0%R
  end.

(** A component away from underflow and overflow: zero, or of a magnitude
    between [2^-500] and [2^500]. *)
Definition moderate (x : float) : bool :=
  is_zero x || ((0x1p-500 <=? abs x) && (abs x <=? 0x1p+500)).

(** ** Data model *)

Record DocumentData := { title : string; snippet : string }.

(** What [loadDocuments] builds: [{ id, data: { title, snippet } }]. *)
Record Document := { id : string; data : DocumentData }.

(** A document with its [embedding] property set. *)
Record EmbeddedDocument := { document : Document; embedding : list float }.

(** ** Arrays *)

(** The index [Array.prototype.slice] computes from an integer argument:
    a negative one counts from the end. *)
Definition relative_index (len i : Z) : Z :=
  if (i <? 0)%Z then Z.max (len + i) 0 else Z.min i len.

(** [arr.slice(start, end)] for integer [start] and [end]. *)
Definition Array_slice {A : Type} (arr : list A) (start fin : Z) : list A :=
  let len := Z.of_nat (length arr) in
  let k := relative_index len start in
  let final := relative_index len fin in
  firstn (Z.to_nat (final - k)) (skipn (Z.to_nat k) arr).

(** [comparefn(a, b) > 0]: [a] is to come after [b].  A NaN result counts as
    [+0], as in the language's SortCompare: neither order is asked for. *)
Definition sorts_after {A : Type} (comparefn : A -> A -> float) (a b : A) : bool :=
  0 <? comparefn a b.

Fixpoint sort_insert {A : Type} (comparefn : A -> A -> float) (a : A)
    (sorted : list A) : list A :=
  match sorted with
  | [] => [a]
  | b :: rest =>
      if sorts_after comparefn a b then b :: sort_insert comparefn a rest
      else a :: sorted
  end.

(** [arr.sort(comparefn)].  The language requires a stable sort and leaves
    the sequence of comparisons to the implementation; for a comparator that
    is a consistent order every conforming implementation returns the list
    computed here, the stable insertion sort. *)
Definition Array_sort {A : Type} (comparefn : A -> A -> float) (arr : list A) : list A :=
  fold_right (sort_insert comparefn) [] arr.

(** ** Retriever *)

(** An element of [similarities]: [{ doc, score }]. *)
Record Scored := { doc : EmbeddedDocument; score : float }.

Definition similarity (queryEmbedding : list float) (d : EmbeddedDocument) : Scored :=
  {| doc := d; score := cosineSimilarity queryEmbedding (embedding d) |}.

(** The comparator of the sort: [(a, b) => b.score - a.score]. *)
Definition by_score (a b : Scored) : float := score b - score a.

Definition getTopKDocuments (queryEmbedding : list float)
    (documents : list EmbeddedDocument) (k : Z) : list EmbeddedDocument :=
  let similarities := map (similarity queryEmbedding) documents in
  let similarities := Array_sort by_score similarities in
  map doc (Array_slice similarities 0 k).

(** The score of a document against the query. *)
Definition score_of (queryEmbedding : list float) (d : EmbeddedDocument) : float :=
  cosineSimilarity queryEmbedding (embedding d).

(** Scores ordered from high to low: no later score exceeds an earlier one. *)
Definition descending (queryEmbedding : list float) (docs : list EmbeddedDocument) : Prop :=
  StronglySorted
    (fun a b => (score_of queryEmbedding b <=? score_of queryEmbedding a) = true) docs.

Definition all_scores_numbers (queryEmbedding : list float)
    (docs : list EmbeddedDocument) : Prop :=
  Forall (fun d => is_nan (score_of queryEmbedding d) = false) docs.

(** The order in which [sort] leaves two scored documents whose scores are
    numbers. *)
Definition score_ge (a b : Scored) : Prop := (score b <=? score a) = true.

Definition is_number (a : Scored) : Prop := is_nan (score a) = false.

(** The comparator of the sort, on the documents themselves. *)
Definition by_score_of (queryEmbedding : list float) (a b : EmbeddedDocument) : float :=
  score_of queryEmbedding b - score_of queryEmbedding a.

(** *** The same function on a store of arrays

    [documents.map] allocates the array [similarities]; [sort] reorders that
    array in place; [slice] and the last [map] allocate again.  Arrays live
    in a store, at locations. *)

Definition loc := nat.

Inductive array :=
| DocArray (elems : list EmbeddedDocument)
| ScoredArray (elems : list Scored).

Definition alloc (a : array) (s : gmap loc array) : loc * gmap loc array :=
  let l := fresh (dom s) in (l, <[l := a]> s).

(** A call either ends with a value and a store or throws a TypeError
    ([None]): a location that holds no array of the expected kind. *)
Definition getTopKDocuments_store (queryEmbedding : list float) (documents : loc)
    (k : Z) (s : gmap loc array) : option (loc * gmap loc array) :=
  match s !! documents with
  | Some (DocArray docs) =>
      let '(similarities, s) := alloc (ScoredArray (map (similarity queryEmbedding) docs)) s in
      match s !! similarities with
      | Some (ScoredArray items) =>
          let s := <[similarities := ScoredArray (Array_sort by_score items)]> s in
          match s !! similarities with
          | Some (ScoredArray items) =>
              let '(sliced, s) := alloc (ScoredArray (Array_slice items 0 k)) s in
              match s !! sliced with
              | Some (ScoredArray items) => Some (alloc (DocArray (map doc items)) s)
              | _ => None
              end
          | _ => None
          end
      | _ => None
      end
  | _ => None
  end.

(** ** Values, errors and effects *)

(** The values JSON text denotes, which are also the values of a request
    body.  [undefined], where it can occur, is [None] in an [option jsval]. *)
#[warnings="-register-all"]
Inductive jsval :=
| JNull
| JBool (b : bool)
| JNum (x : float)
| JStr (s : string)
| JArr (elems : list jsval)
| JObj (props : list (string * jsval)).

Inductive JsError :=
| TypeError (message : string)
| SyntaxError (message : string)
| SystemError (code : string) (path : string)
| ProviderError (detail : string).

(** How a call ends: with a value, or by throwing (a rejected promise, once
    awaited). *)
Inductive Completion (A : Type) :=
| Normal (value : A)
| Throw (error : JsError).
Arguments Normal {A} value.
Arguments Throw {A} error.

(** *** The embedding and chat provider *)

Record EmbedRequest := {
  texts : list jsval;
  model : string;
  input_type : string
}.

Record EmbedResponse := { embeddings : list (list float) }.

Record Citation := {
  citation_start : Z;
  citation_end : Z;
  citation_text : string;
  document_ids : list string
}.

(** [documents] holds the [text] of each [{ text }] entry. *)
Record ChatRequest := {
  chat_model : string;
  message : jsval;
  documents : list string;
  preamble : string;
  temperature : float
}.

(** [citations] is [None] when the property is [undefined] or [null]. *)
Record ChatResponse := { text : string; citations : option (list Citation) }.

(** *** What a run leaves behind *)

(** The pieces of a console line: the texts and interpolated values of a
    template literal, and further arguments, in order. *)
Inductive Piece :=
| Text (s : string)
| Num (x : float)
| Val (v : option jsval)
| Err (e : JsError)
| ChatJSON (r : ChatResponse).

(** A provider call is recorded with its request and with how it ended. *)
Inductive Event :=
| Console (level : string) (args : list Piece)
| Embed (request : EmbedRequest) (outcome : Completion EmbedResponse)
| Chat (request : ChatRequest) (outcome : Completion ChatResponse)
| Sleep (ms : Z).

Inductive FsNode :=
| File (content : string)
| Directory.

Record World := { fs : gmap string FsNode; trace : list Event }.

(** The [cohere] client: the outcome of a call may depend on the request and
    on everything that happened before it. *)
Record CohereClient := {
  embed : list Event -> EmbedRequest -> Completion EmbedResponse;
  chat : list Event -> ChatRequest -> Completion ChatResponse
}.

(** The global [JSON] object; [parse] is [None] for text that is no JSON (a
    SyntaxError). *)
Record JSONLib := {
  stringify : jsval -> string;
  parse : string -> option jsval
}.

(** *** Asynchronous code over the world *)

Definition IO (A : Type) : Type := World -> Completion A * World.

Definition ret {A : Type} (a : A) : IO A := fun w => (Normal a, w).

Definition throw {A : Type} (e : JsError) : IO A := fun w => (Throw e, w).

Definition bind {A B : Type} (m : IO A) (k : A -> IO B) : IO B :=
  fun w =>
    match m w with
    | (Normal a, w') => k a w'
    | (Throw e, w') => (Throw e, w')
    end.

Notation "x <- m ;; k" := (bind m (fun x => k))
  (at level 100, m at next level, right associativity).
Notation "m ;; k" := (bind m (fun _ => k))
  (at level 100, right associativity).

(** [try { body } catch (err) { handler }]. *)
Definition try_catch {A : Type} (body : IO A) (handler : JsError -> IO A) : IO A :=
  fun w =>
    match body w with
    | (Normal a, w') => (Normal a, w')
    | (Throw e, w') => handler e w'
    end.

Definition of_completion {A : Type} (c : Completion A) : IO A := fun w => (c, w).

Definition emit (ev : Event) : IO unit :=
  fun w => (Normal tt, {| fs := fs w; trace := trace w ++ [ev] |}).

Definition console_log (args : list Piece) : IO unit := emit (Console "log" args).
Definition console_warn (args : list Piece) : IO unit := emit (Console "warn" args).
Definition console_error (args : list Piece) : IO unit := emit (Console "error" args).

Definition sleep (ms : Z) : IO unit := emit (Sleep ms).

(** [fs.readFile(path, 'utf-8')]. *)
Definition fs_readFile (path : string) : IO string :=
  fun w =>
    match fs w !! path with
    | Some (File content) => (Normal content, w)
    | Some Directory => (Throw (SystemError "EISDIR" path), w)
    | None => (Throw (SystemError "ENOENT" path), w)
    end.

(** [fs.writeFile(path, content, 'utf-8')].  The file system is a map from
    paths to nodes, without a directory tree and without permissions: of the
    ways a write fails it has the directory that stands at the path, and not
    the parent directory that is missing or the path that may not be
    written. *)
Definition fs_writeFile (path content : string) : IO unit :=
  fun w =>
    match fs w !! path with
    | Some Directory => (Throw (SystemError "EISDIR" path), w)
    | _ => (Normal tt, {| fs := <[path := File content]> (fs w); trace := trace w |})
    end.

(** [await cohere.embed(request)] and [await cohere.chat(request)]: the
    provider answers, and the call is recorded. *)
Definition cohere_embed (cohere : CohereClient) (request : EmbedRequest) : IO EmbedResponse :=
  fun w =>
    let outcome := embed cohere (trace w) request in
    (outcome, {| fs := fs w; trace := trace w ++ [Embed request outcome] |}).

Definition cohere_chat (cohere : CohereClient) (request : ChatRequest) : IO ChatResponse :=
  fun w =>
    let outcome := chat cohere (trace w) request in
    (outcome, {| fs := fs w; trace := trace w ++ [Chat request outcome] |}).

(** ** Strings *)

Definition chars (s : string) : list ascii := list_ascii_of_string s.
Definition str (cs : list ascii) : string := string_of_list_ascii cs.

Definition code (c : ascii) : nat := nat_of_ascii c.

Definition in_range (lo hi : nat) (c : ascii) : bool :=
  (lo <=? code c)%nat && (code c <=? hi)%nat.

(** The class [\w] of a regular expression without flags. *)
Definition is_word_char (c : ascii) : bool :=
  in_range 48 57 c || in_range 65 90 c || in_range 97 122 c || (code c =? 95)%nat.

(** [toUpperCase] on a character of the class [\w]. *)
Definition upper_char (c : ascii) : ascii :=
  if in_range 97 122 c then ascii_of_nat (code c - 32) else c.

(** White space and line terminators, among the code units below 256. *)
Definition is_space (c : ascii) : bool :=
  in_range 9 13 c || (code c =? 32)%nat || (code c =? 160)%nat.

Fixpoint drop_spaces (cs : list ascii) : list ascii :=
  match cs with
  | c :: rest => if is_space c then drop_spaces rest else cs
  | [] => []
  end.

(** [s.trim()]. *)
Definition trim (s : string) : string :=
  str (rev (drop_spaces (rev (drop_spaces (chars s))))).

(** [s.split(sep).pop()]: what follows the last separator. *)
Definition split_pop (sep : ascii) (s : string) : string :=
  str (fold_left (fun segment c => if Ascii.eqb c sep then [] else segment ++ [c])
         (chars s) []).

(** Whether [s] ends with [suffix], letters compared without case. *)
Definition ends_with_nocase (suffix s : string) : bool :=
  let cs := chars s in
  let n := String.length suffix in
  (n <=? length cs)%nat &&
  String.eqb (str (map upper_char (skipn (length cs - n) cs)))
             (str (map upper_char (chars suffix))).

Definition drop_last (n : nat) (s : string) : string :=
  str (firstn (String.length s - n) (chars s)).

(** [s.replace(/\.(md|txt)$/i, '')]. *)
Definition remove_extension (s : string) : string :=
  if ends_with_nocase ".md" s then drop_last 3 s
  else if ends_with_nocase ".txt" s then drop_last 4 s
  else s.

(** [s.replace(/_/g, ' ')]. *)
Definition underscores_to_spaces (s : string) : string :=
  str (map (fun c => if Ascii.eqb c "_" then " "%char else c) (chars s)).

(** [s.replace(/\b\w/g, l => l.toUpperCase())]: a word character that
    follows no word character is put in upper case. *)
Fixpoint capitalize_from (after_word : bool) (cs : list ascii) : list ascii :=
  match cs with
  | [] => []
  | c :: rest =>
      (if is_word_char c && negb after_word then upper_char c else c)
        :: capitalize_from (is_word_char c) rest
  end.

Definition capitalize_words (s : string) : string :=
  str (capitalize_from false (chars s)).

(** The double quote, as a string. *)
Definition dquote : string := String (ascii_of_nat 34) EmptyString.

(** ** Document Store *)

Definition make_document (file content : string) : Document :=
  let filename := remove_extension (split_pop "/" file) in
  let cleanTitle := capitalize_words (underscores_to_spaces filename) in
  {| id := filename;
     data := {| title := cleanTitle; snippet := trim content |} |}.

(** The [for (const file of files)] loop of [loadDocuments], with the array
    [documents] built so far. *)
Fixpoint load_each (files : list string) (documents : list Document) : IO (list Document) :=
  match files with
  | [] => ret documents
  | file :: rest =>
      documents <-
        try_catch
          (content <- fs_readFile file ;;
           ret (documents ++ [make_document file content]))
          (fun err =>
             console_error [Text ("Error reading " +:+ file +:+ ":"); Err err] ;;
             ret documents) ;;
      load_each rest documents
  end.

(** [loadDocuments] over a list of paths. *)
Definition loadDocuments_from (files : list string) : IO (list Document) :=
  documents <- load_each files [] ;;
  console_log [Text "Loaded "; Num (number_of_nat (length documents)); Text " documents"] ;;
  ret documents.

(** The paths written in the source. *)
Definition files : list string := ["./documents/pride_prejudice_analysis.txt"].

Definition loadDocuments : IO (list Document) := loadDocuments_from files.

(** The files a world lets [loadDocuments] read. *)
Definition readable (w : World) (file : string) : option string :=
  match fs w !! file with
  | Some (File content) => Some content
  | _ => None
  end.

Definition read_error (w : World) (file : string) : option JsError :=
  match fs w !! file with
  | Some (File _) => None
  | Some Directory => Some (SystemError "EISDIR" file)
  | None => Some (SystemError "ENOENT" file)
  end.

(** One document for each path that can be read, in the order of the paths. *)
Definition documents_of (w : World) (files : list string) : list Document :=
  omap (fun file => make_document file <$> readable w file) files.

(** One console line for each path that cannot be read. *)
Definition read_failures (w : World) (files : list string) : list Event :=
  omap (fun file =>
          (fun err => Console "error" [Text ("Error reading " +:+ file +:+ ":"); Err err])
            <$> read_error w file) files.

(** ** Embedding Cache *)

Definition EMBEDDINGS_FILE : string := "./documents/embeddings.json".

(** The record written for a document:
    [{ id, title, snippet, embedding }]. *)
Definition cache_record (d : EmbeddedDocument) : jsval :=
  JObj [("id", JStr (id (document d)));
        ("title", JStr (title (data (document d))));
        ("snippet", JStr (snippet (data (document d))));
        ("embedding", JArr (map JNum (embedding d)))].

Definition saveEmbeddingsToFile (JSON : JSONLib) (documents : list EmbeddedDocument) : IO unit :=
  let embeddingsData := JArr (map cache_record documents) in
  fs_writeFile EMBEDDINGS_FILE (stringify JSON embeddingsData) ;;
  console_log [Text ("Embeddings saved to " +:+ EMBEDDINGS_FILE)].

(** A document as the loader builds it: every property is whatever the
    parsed record holds under that key, [None] for [undefined]. *)
Module Loaded.
Record Data := { title : option jsval; snippet : option jsval }.
Record Document := { id : option jsval; data : Data; embedding : option jsval }.
End Loaded.

(** [props[key]] on the object JSON text denotes: the last entry wins. *)
Fixpoint own_property (key : string) (props : list (string * jsval)) : option jsval :=
  match props with
  | [] => None
  | (k, v) :: rest =>
      match own_property key rest with
      | Some v' => Some v'
      | None => if String.eqb k key then Some v else None
      end
  end.

(** [item.id], [item.title], [item.snippet], [item.embedding]: reading a
    property of [null] throws; a value that is no object has none of them. *)
Definition get_property (item : jsval) (key : string) : Completion (option jsval) :=
  match item with
  | JNull => Throw (TypeError ("Cannot read properties of null (reading '" +:+ key +:+ "')"))
  | JObj props => Normal (own_property key props)
  | _ => Normal None
  end.

(** [embeddingsData.length]. *)
Definition length_property (v : jsval) : Completion (option jsval) :=
  match v with
  | JNull => Throw (TypeError "Cannot read properties of null (reading 'length')")
  | JArr elems => Normal (Some (JNum (number_of_nat (length elems))))
  | JStr s => Normal (Some (JNum (number_of_nat (String.length s))))
  | JObj props => Normal (own_property "length" props)
  | _ => Normal None
  end.

Definition bind_completion {A B : Type} (c : Completion A) (k : A -> Completion B) : Completion B :=
  match c with
  | Normal a => k a
  | Throw e => Throw e
  end.

Definition loaded_document (item : jsval) : Completion Loaded.Document :=
  bind_completion (get_property item "id") (fun item_id =>
  bind_completion (get_property item "title") (fun item_title =>
  bind_completion (get_property item "snippet") (fun item_snippet =>
  bind_completion (get_property item "embedding") (fun item_embedding =>
  Normal {| Loaded.id := item_id;
            Loaded.data := {| Loaded.title := item_title; Loaded.snippet := item_snippet |};
            Loaded.embedding := item_embedding |})))).

(** [items.map(callback)] for a callback that may throw. *)
Fixpoint map_completion {A B : Type} (callback : A -> Completion B) (items : list A)
    : Completion (list B) :=
  match items with
  | [] => Normal []
  | item :: rest =>
      bind_completion (callback item) (fun b =>
      bind_completion (map_completion callback rest) (fun bs => Normal (b :: bs)))
  end.

(** [embeddingsData.map(item => ...)]: only an array has [map]. *)
Definition map_loaded (embeddingsData : jsval) : Completion (list Loaded.Document) :=
  match embeddingsData with
  | JArr items => map_completion loaded_document items
  | _ => Throw (TypeError "embeddingsData.map is not a function")
  end.

(** The result is [None] for [null]. *)
Definition loadEmbeddingsFromFile (JSON : JSONLib) : IO (option (list Loaded.Document)) :=
  try_catch
    (content <- fs_readFile EMBEDDINGS_FILE ;;
     embeddingsData <-
       match parse JSON content with
       | Some v => ret v
       | None => throw (SyntaxError "Unexpected token in JSON")
       end ;;
     len <- of_completion (length_property embeddingsData) ;;
     console_log [Text "Loaded "; Val len; Text (" embeddings from " +:+ EMBEDDINGS_FILE)] ;;
     loaded <- of_completion (map_loaded embeddingsData) ;;
     ret (Some loaded))
    (fun err =>
       console_warn [Text "No existing embeddings file found. Will compute embeddings."] ;;
       ret None).

(** The document a saved record is expected to come back as. *)
Definition as_loaded (d : EmbeddedDocument) : Loaded.Document :=
  {| Loaded.id := Some (JStr (id (document d)));
     Loaded.data := {| Loaded.title := Some (JStr (title (data (document d))));
                       Loaded.snippet := Some (JStr (snippet (data (document d)))) |};
     Loaded.embedding := Some (JArr (map JNum (embedding d))) |}.

(** What JSON text keeps of a number: a finite number keeps its value, [-0]
    is written [0], and NaN and the infinities are written [null]. *)
Definition JSON_number (x : float) : jsval :=
  if is_nan x || is_infinity x then JNull
  else if is_zero x then JNum 0
  else JNum x.

(** The value [JSON.parse(JSON.stringify(v))] denotes, for a value whose
    objects have distinct keys that are no array indices. *)
Fixpoint JSON_image (v : jsval) : jsval :=
  match v with
  | JNum x => JSON_number x
  | JArr elems => JArr (map JSON_image elems)
  | JObj props => JObj (map (fun kv => (fst kv, JSON_image (snd kv))) props)
  | _ => v
  end.

(** The [JSON] object reads back what it wrote for [v]. *)
Definition reads_back (JSON : JSONLib) (v : jsval) : Prop :=
  parse JSON (stringify JSON v) = Some (JSON_image v).

(** A number JSON text can hold as it is. *)
Definition JSON_exact (x : float) : Prop :=
  is_nan x = false /\ is_infinity x = false /\ (is_zero x = true -> x = 0).

(** ** Embedding Client Adapter *)

Definition embedding_text (d : Document) : jsval :=
  JStr (title (data d) +:+ ". " +:+ snippet (data d)).

(** The loop of [embedDocumentsInBatches] from index [i]; [None] when the
    fuel runs out before the loop ends, which a batch size of 0 makes happen
    for every fuel. *)
Fixpoint embed_from (fuel : nat) (cohere : CohereClient) (documents : list Document)
    (batchSize : nat) (i : nat) (allEmbeddings : list (list float))
    : IO (option (list (list float))) :=
  if (i <? length documents)%nat then
    match fuel with
    | O => ret None
    | S fuel =>
        let batch := Array_slice documents (Z.of_nat i) (Z.of_nat (i + batchSize)) in
        console_log
          [Text "Embedding batch ";
           Num (number_of_nat i / number_of_nat batchSize + 1);
           Text " of ";
           Num (Math_ceil (number_of_nat (length documents) / number_of_nat batchSize));
           Text "..."] ;;
        response <- cohere_embed cohere
          {| texts := map embedding_text batch;
             model := "embed-multilingual-v3.0";
             input_type := "search_document" |} ;;
        let allEmbeddings := allEmbeddings ++ embeddings response in
        sleep 10000 ;;
        embed_from fuel cohere documents batchSize (i + batchSize) allEmbeddings
    end
  else ret (Some allEmbeddings).

Definition embedDocumentsInBatches (cohere : CohereClient) (documents : list Document)
    (batchSize : nat) : IO (option (list (list float))) :=
  embed_from (length documents) cohere documents batchSize 0 [].

(** ** Chat Orchestrator *)

Inductive ResponseBody :=
| ErrorBody (error : string)
| GenerateBody (text : string) (citations : list Citation).

Record Response := { status : Z; body : ResponseBody }.

(** The request: [req.body.prompt], [None] when the body has no such
    property. *)
Record Request := { prompt : option jsval }.

(** [!prompt] is false for the values below. *)
Definition truthy (v : option jsval) : bool :=
  match v with
  | None | Some JNull => false
  | Some (JBool b) => b
  | Some (JNum x) => negb (is_zero x || is_nan x)
  | Some (JStr s) => negb (String.eqb s "")
  | Some (JArr _) | Some (JObj _) => true
  end.

Definition PREAMBLE : string :=
  "You are a warm, highly knowledgeable literary critic and librarian named 'Bookworm Bot'. Your specialization is summarizing, analyzing themes, identifying characters, and recommending books across all genres and historical periods. When answering, provide insightful literary context and cite your sources (books, journals, or online articles) when possible. Use Google Search to find up-to-date information, and cite your sources.".

(** The number [0.3]. *)
Definition TEMPERATURE : float := 0x1.3333333333333p-2.

(** [getTopKDocuments(queryEmbedding, cachedDocuments, k)] where
    [queryEmbedding] may be [undefined] and [cachedDocuments] may be [null]:
    [null.map] throws, and so does the similarity of an [undefined] vector
    once there is a document to score. *)
Definition call_getTopKDocuments (queryEmbedding : option (list float))
    (cachedDocuments : option (list EmbeddedDocument)) (k : Z)
    : Completion (list EmbeddedDocument) :=
  match cachedDocuments, queryEmbedding with
  | None, _ => Throw (TypeError "Cannot read properties of null (reading 'map')")
  | Some docs, Some q => Normal (getTopKDocuments q docs k)
  | Some [], None => Normal []
  | Some (_ :: _), None =>
      Throw (TypeError "Cannot read properties of undefined (reading 'reduce')")
  end.

Definition chat_text (d : EmbeddedDocument) : string :=
  title (data (document d)) +:+ ". " +:+ snippet (data (document d)).

Definition chat_request (prompt : jsval) (topDocuments : list EmbeddedDocument) : ChatRequest :=
  {| chat_model := "command-r-plus";
     message := prompt;
     documents := map chat_text topDocuments;
     preamble := PREAMBLE;
     temperature := TEMPERATURE |}.

(** [response.citations ?? []]. *)
Definition citations_or_empty (response : ChatResponse) : list Citation :=
  match citations response with
  | Some cs => cs
  | None => []
  end.

Definition upstream_failure : Response :=
  {| status := 500; body := ErrorBody "Cohere request failed" |}.

Definition prompt_required : Response :=
  {| status := 400; body := ErrorBody "Prompt is required" |}.

(** The second copy of the server (lines 214 to 419). *)
Module V2.

Definition default_k : Z := 10.

(** [prompt.substring(0, 30)]: only a string has [substring]. *)
Definition prompt_start (p : jsval) : Completion string :=
  match p with
  | JStr s => Normal (substring 0 30 s)
  | _ => Throw (TypeError "prompt.substring is not a function")
  end.

(** [app.post('/generate', ...)]. *)
Definition post_generate (cohere : CohereClient)
    (cachedDocuments : option (list EmbeddedDocument)) (req : Request) : IO Response :=
  match prompt req with
  | Some p =>
      if truthy (Some p) then
        try_catch
          (start <- of_completion (prompt_start p) ;;
           console_log [Text ("Embedding user prompt: " +:+ dquote); Text start;
                        Text ("..." +:+ dquote)] ;;
           embedResponse <- cohere_embed cohere
             {| texts := [p];
                model := "embed-multilingual-v3.0";
                input_type := "search_query" |} ;;
           let queryEmbedding := nth_error (embeddings embedResponse) 0 in
           topDocuments <- of_completion (call_getTopKDocuments queryEmbedding cachedDocuments 5) ;;
           console_log [Text "Retrieved top ";
                        Num (number_of_nat (length topDocuments));
                        Text " documents."] ;;
           response <- cohere_chat cohere (chat_request p topDocuments) ;;
           console_log [Text "Cohere chat successful."] ;;
           ret {| status := 200;
                  body := GenerateBody (text response) (citations_or_empty response) |})
          (fun err =>
             console_error [Text "Error communicating with Cohere API:"; Err err] ;;
             ret upstream_failure)
      else ret prompt_required
  | None => ret prompt_required
  end.

End V2.

(** The embedding requests in a trace. *)
Definition embed_requests (events : list Event) : list EmbedRequest :=
  omap (fun ev => match ev with Embed request _ => Some request | _ => None end) events.

(** The provider calls in a trace. *)
Definition provider_calls (events : list Event) : list Event :=
  List.filter (fun ev => match ev with Embed _ _ | Chat _ _ => true | _ => false end) events.

(** A provider call that failed. *)
Definition call_failed (ev : Event) : Prop :=
  match ev with
  | Embed _ (Throw _) | Chat _ (Throw _) => True
  | _ => False
  end.

(** What a run added to the trace of the world it started in. *)
Definition events_of {A : Type} (run : IO A) (w : World) : list Event :=
  skipn (length (trace w)) (trace (snd (run w))).

Definition can_read (w : World) (file : string) : bool :=
  match readable w file with
  | Some _ => true
  | None => false
  end.

(** The document a saved record comes back as, whatever its numbers. *)
Definition loaded_image (d : EmbeddedDocument) : Loaded.Document :=
  {| Loaded.id := Some (JStr (id (document d)));
     Loaded.data := {| Loaded.title := Some (JStr (title (data (document d))));
                       Loaded.snippet := Some (JStr (snippet (data (document d)))) |};
     Loaded.embedding := Some (JArr (map JSON_number (embedding d))) |}.

(** ** A JSON object to run the model with

    [stringify] lays the text out as [JSON.stringify(value, null, 2)] does: two
    spaces of indentation, one property or element a line.  A number is
    written as a decimal numeral of exactly its value, which need not be the
    shortest numeral that reads back as it; [parse] reads any JSON text and
    rounds a numeral to the nearest binary64 number. *)
Module MiniJSON.

Definition nl : string := String (ascii_of_nat 10) EmptyString.
Definition backslash : ascii := ascii_of_nat 92.
Definition quote_char : ascii := ascii_of_nat 34.

Fixpoint digits_from (fuel : nat) (n : N) (acc : list ascii) : list ascii :=
  match fuel with
  | O => acc
  | S fuel =>
      let acc := ascii_of_N (48 + n mod 10) :: acc in
      if (n / 10 =? 0)%N then acc else digits_from fuel (n / 10)%N acc
  end.

(** The decimal digits of a natural number. *)
Definition decimal (n : N) : string :=
  str (digits_from (S (N.to_nat (N.log2 n))) n []).

Fixpoint zeros (n : nat) : string :=
  match n with
  | O => EmptyString
  | S n => String "0" (zeros n)
  end.

(** [m * 2^e] for a negative [e], as an integer part and [-e] decimals. *)
Definition print_fraction (m : positive) (e : Z) : string :=
  let k := Z.to_N (- e) in
  let scaled := (Npos m * 5 ^ k)%N in
  let whole := (scaled / 10 ^ k)%N in
  let part := (scaled mod 10 ^ k)%N in
  let part_digits := decimal part in
  decimal whole +:+ "." +:+
  zeros (N.to_nat k - String.length part_digits) +:+ part_digits.

Definition print_number (x : float) : string :=
  match Prim2SF x with
  | S754_nan | S754_infinity _ => "null"
  | S754_zero _ => "0"
  | S754_finite s m e =>
      (if s then "-" else "") +:+
      (if (0 <=? e)%Z then decimal (Npos m * 2 ^ Z.to_N e)
       else if (Npos m mod 2 ^ Z.to_N (- e) =? 0)%N
            then decimal (Npos m / 2 ^ Z.to_N (- e))
            else print_fraction m e)
  end.

Definition hex_digit (n : N) : ascii :=
  if (n <? 10)%N then ascii_of_N (48 + n) else ascii_of_N (87 + n).

Definition quote_one (c : ascii) : list ascii :=
  let n := N_of_ascii c in
  if (n =? 34)%N then [backslash; quote_char]
  else if (n =? 92)%N then [backslash; backslash]
  else if (n =? 8)%N then [backslash; "b"%char]
  else if (n =? 12)%N then [backslash; "f"%char]
  else if (n =? 10)%N then [backslash; "n"%char]
  else if (n =? 13)%N then [backslash; "r"%char]
  else if (n =? 9)%N then [backslash; "t"%char]
  else if (n <? 32)%N then
    [backslash; "u"%char; "0"%char; "0"%char; hex_digit (n / 16); hex_digit (n mod 16)]
  else [c].

Definition quote (s : string) : string :=
  str (quote_char :: flat_map quote_one (chars s) ++ [quote_char]).

Fixpoint join (sep : string) (parts : list string) : string :=
  match parts with
  | [] => EmptyString
  | [p] => p
  | p :: rest => p +:+ sep +:+ join sep rest
  end.

Fixpoint print_value (indent : string) (v : jsval) : string :=
  let inner := indent +:+ "  " in
  match v with
  | JNull => "null"
  | JBool true => "true"
  | JBool false => "false"
  | JNum x => print_number x
  | JStr s => quote s
  | JArr [] => "[]"
  | JArr elems =>
      "[" +:+ nl +:+ inner +:+
      join ("," +:+ nl +:+ inner) (map (print_value inner) elems) +:+
      nl +:+ indent +:+ "]"
  | JObj [] => "{}"
  | JObj props =>
      "{" +:+ nl +:+ inner +:+
      join ("," +:+ nl +:+ inner)
        (map (fun kv => quote (fst kv) +:+ ": " +:+ print_value inner (snd kv)) props) +:+
      nl +:+ indent +:+ "}"
  end.

Definition stringify (v : jsval) : string := print_value EmptyString v.

(** *** Reading *)

Definition is_json_space (c : ascii) : bool :=
  let n := N_of_ascii c in
  (n =? 32)%N || (n =? 9)%N || (n =? 10)%N || (n =? 13)%N.

Fixpoint skip_spaces (cs : list ascii) : list ascii :=
  match cs with
  | c :: rest => if is_json_space c then skip_spaces rest else cs
  | [] => []
  end.

Definition digit_value (c : ascii) : option N :=
  let n := N_of_ascii c in
  if (48 <=? n)%N && (n <=? 57)%N then Some (n - 48)%N else None.

Definition hex_value (c : ascii) : option N :=
  let n := N_of_ascii c in
  if (48 <=? n)%N && (n <=? 57)%N then Some (n - 48)%N
  else if (97 <=? n)%N && (n <=? 102)%N then Some (n - 87)%N
  else if (65 <=? n)%N && (n <=? 70)%N then Some (n - 55)%N
  else None.

(** Digits from the front of [cs]: their value after [acc], how many, the
    rest. *)
Fixpoint read_digits (cs : list ascii) (acc : N) (count : nat) : N * nat * list ascii :=
  match cs with
  | c :: rest =>
      match digit_value c with
      | Some d => read_digits rest (acc * 10 + d)%N (S count)
      | None => (acc, count, cs)
      end
  | [] => (acc, count, [])
  end.

(** The binary64 number nearest to [(-1)^neg * n * 10^scale]. *)
Definition round_decimal (neg : bool) (n : N) (scale : Z) : float :=
  match n with
  | N0 => if neg then neg_zero else zero
  | Npos p =>
      if (0 <=? scale)%Z then
        SF2Prim (binary_normalize prec emax
                   (cond_Zopp neg (Zpos p * 10 ^ scale)%Z) 0 false)
      else
        SF2Prim (SFdiv prec emax (S754_finite neg p 0)
                   (S754_finite false (Z.to_pos (10 ^ (- scale))) 0))
  end.

Definition read_exponent (cs : list ascii) : option (Z * list ascii) :=
  match cs with
  | c :: rest =>
      if Ascii.eqb c "e" || Ascii.eqb c "E" then
        let '(neg, rest) :=
          match rest with
          | s :: rest' =>
              if Ascii.eqb s "-" then (true, rest')
              else if Ascii.eqb s "+" then (false, rest')
              else (false, rest)
          | [] => (false, rest)
          end in
        match read_digits rest 0 0 with
        | (_, O, _) => None
        | (e, _, rest) => Some (cond_Zopp neg (Z.of_N e), rest)
        end
      else Some (0%Z, cs)
  | [] => Some (0%Z, [])
  end.

Definition read_number (cs : list ascii) : option (float * list ascii) :=
  let '(neg, cs) :=
    match cs with
    | c :: rest => if Ascii.eqb c "-" then (true, rest) else (false, cs)
    | [] => (false, cs)
    end in
  match read_digits cs 0 0 with
  | (_, O, _) => None
  | (whole, count, rest) =>
      if (1 <? count)%nat && (whole <? 10 ^ N.of_nat (count - 1))%N then None else
      let '(n, decimals, rest) :=
        match rest with
        | c :: rest' =>
            if Ascii.eqb c "." then
              match read_digits rest' whole 0 with
              | (_, O, _) => (whole, None, rest)
              | (n, count, rest) => (n, Some count, rest)
              end
            else (whole, Some O, rest)
        | [] => (whole, Some O, rest)
        end in
      match decimals with
      | None => None
      | Some count =>
          match read_exponent rest with
          | Some (e, rest) => Some (round_decimal neg n (e - Z.of_nat count), rest)
          | None => None
          end
      end
  end.

(** The characters of a string up to its closing quote. *)
Fixpoint read_string (fuel : nat) (cs : list ascii) (acc : list ascii)
    : option (string * list ascii) :=
  match fuel with
  | O => None
  | S fuel =>
      match cs with
      | [] => None
      | c :: rest =>
          if Ascii.eqb c quote_char then Some (str (rev acc), rest)
          else if Ascii.eqb c backslash then
            match rest with
            | e :: rest =>
                let simple (d : nat) := read_string fuel rest (ascii_of_nat d :: acc) in
                if Ascii.eqb e quote_char then simple 34%nat
                else if Ascii.eqb e backslash then simple 92%nat
                else if Ascii.eqb e "/" then simple 47%nat
                else if Ascii.eqb e "b" then simple 8%nat
                else if Ascii.eqb e "f" then simple 12%nat
                else if Ascii.eqb e "n" then simple 10%nat
                else if Ascii.eqb e "r" then simple 13%nat
                else if Ascii.eqb e "t" then simple 9%nat
                else if Ascii.eqb e "u" then
                  match rest with
                  | h1 :: h2 :: h3 :: h4 :: rest =>
                      match hex_value h1, hex_value h2, hex_value h3, hex_value h4 with
                      | Some 0%N, Some 0%N, Some a, Some b =>
                          read_string fuel rest (ascii_of_N (a * 16 + b) :: acc)
                      | _, _, _, _ => None
                      end
                  | _ => None
                  end
                else None
            | [] => None
            end
          else if (N_of_ascii c <? 32)%N then None
          else read_string fuel rest (c :: acc)
      end
  end.

Fixpoint starts_with (prefix cs : list ascii) : option (list ascii) :=
  match prefix, cs with
  | [], _ => Some cs
  | p :: prefix, c :: cs => if Ascii.eqb p c then starts_with prefix cs else None
  | _ :: _, [] => None
  end.

(** The elements of an array after its first, up to the closing bracket. *)
Fixpoint read_elements (read : list ascii -> option (jsval * list ascii))
    (fuel : nat) (cs : list ascii) (acc : list jsval) : option (jsval * list ascii) :=
  match fuel with
  | O => None
  | S fuel =>
      match read cs with
      | Some (v, rest) =>
          match skip_spaces rest with
          | c :: rest =>
              if Ascii.eqb c "," then read_elements read fuel rest (v :: acc)
              else if Ascii.eqb c "]" then Some (JArr (rev (v :: acc)), rest)
              else None
          | [] => None
          end
      | None => None
      end
  end.

Fixpoint read_members (read : list ascii -> option (jsval * list ascii))
    (fuel : nat) (cs : list ascii) (acc : list (string * jsval))
    : option (jsval * list ascii) :=
  match fuel with
  | O => None
  | S fuel =>
      match skip_spaces cs with
      | q :: rest =>
          if Ascii.eqb q quote_char then
            match read_string (S (length rest)) rest [] with
            | Some (key, rest) =>
                match skip_spaces rest with
                | c :: rest =>
                    if Ascii.eqb c ":" then
                      match read rest with
                      | Some (v, rest) =>
                          match skip_spaces rest with
                          | c :: rest =>
                              if Ascii.eqb c ","
                              then read_members read fuel rest ((key, v) :: acc)
                              else if Ascii.eqb c "}"
                              then Some (JObj (rev ((key, v) :: acc)), rest)
                              else None
                          | [] => None
                          end
                      | None => None
                      end
                    else None
                | [] => None
                end
            | None => None
            end
          else None
      | [] => None
      end
  end.

Fixpoint read_value (fuel : nat) (cs : list ascii) : option (jsval * list ascii) :=
  match fuel with
  | O => None
  | S fuel =>
      match skip_spaces cs with
      | [] => None
      | c :: rest =>
          if Ascii.eqb c quote_char then
            match read_string (S (length rest)) rest [] with
            | Some (s, rest) => Some (JStr s, rest)
            | None => None
            end
          else if Ascii.eqb c "[" then
            match skip_spaces rest with
            | c' :: rest' =>
                if Ascii.eqb c' "]" then Some (JArr [], rest')
                else read_elements (read_value fuel) (S (length rest)) rest []
            | [] => None
            end
          else if Ascii.eqb c "{" then
            match skip_spaces rest with
            | c' :: rest' =>
                if Ascii.eqb c' "}" then Some (JObj [], rest')
                else read_members (read_value fuel) (S (length rest)) rest []
            | [] => None
            end
          else
            match starts_with (chars "null") (c :: rest) with
            | Some rest => Some (JNull, rest)
            | None =>
            match starts_with (chars "true") (c :: rest) with
            | Some rest => Some (JBool true, rest)
            | None =>
            match starts_with (chars "false") (c :: rest) with
            | Some rest => Some (JBool false, rest)
            | None =>
            match read_number (c :: rest) with
            | Some (x, rest) => Some (JNum x, rest)
            | None => None
            end end end end
      end
  end.

Definition parse (s : string) : option jsval :=
  match read_value (S (String.length s)) (chars s) with
  | Some (v, rest) =>
      match skip_spaces rest with
      | [] => Some v
      | _ :: _ => None
      end
  | None => None
  end.

Definition JSON : JSONLib := Build_JSONLib stringify parse.

End MiniJSON.

(** ** Sample data *)

Module Sample.

Definition embedded (name : string) (e : list float) : EmbeddedDocument :=
  {| document := {| id := name; data := {| title := name; snippet := name |} |};
     embedding := e |}.

Definition query : list float := [1; 0].

(** Scores against [query]: about 0.707, 1, about 0.894 and 0. *)
Definition diagonal : EmbeddedDocument := embedded "diagonal" [1; 1].
Definition aligned_doc : EmbeddedDocument := embedded "aligned" [1; 0].
Definition slanted : EmbeddedDocument := embedded "slanted" [2; 1].
Definition orthogonal : EmbeddedDocument := embedded "orthogonal" [0; 1].

(** Scores that are NaN: a zero vector, and a vector of another dimension. *)
Definition blank : EmbeddedDocument := embedded "blank" [0; 0].
Definition short : EmbeddedDocument := embedded "short" [1].

Definition corpus : list EmbeddedDocument := [diagonal; aligned_doc; slanted; orthogonal].

(** A provider that answers every call. *)
Definition cohere_up : CohereClient :=
  {| embed := fun _ _ => Normal {| embeddings := [query] |};
     chat := fun _ _ => Normal {| text := "Elizabeth Bennet."; citations := None |} |}.

(** A provider whose calls all fail. *)
Definition cohere_down : CohereClient :=
  {| embed := fun _ _ => Throw (ProviderError "429 Too Many Requests");
     chat := fun _ _ => Throw (ProviderError "503 Service Unavailable") |}.

(** A provider that embeds and then fails to chat. *)
Definition cohere_mute : CohereClient :=
  {| embed := fun _ _ => Normal {| embeddings := [query] |};
     chat := fun _ _ => Throw (ProviderError "503 Service Unavailable") |}.

Definition empty_world : World := {| fs := ∅; trace := [] |}.

(** Two files that can be read; a third path of the list below is missing. *)
Definition two_files : World :=
  {| fs := <["./documents/emma.txt" := File "Emma Woodhouse, handsome, clever, and rich."]>
           (<["./documents/persuasion_notes.md" := File " Anne Elliot. "]> ∅);
     trace := [] |}.

Definition three_paths : list string :=
  ["./documents/emma.txt"; "./documents/missing.txt"; "./documents/persuasion_notes.md"].

Definition exact_corpus : list EmbeddedDocument :=
  [embedded "a" [1; 0.5; -3]; embedded "b" [0x1p-1074; 0.25]].

Definition nan_corpus : list EmbeddedDocument := [embedded "a" [nan; 1]].

End Sample.

(** The world [saveEmbeddingsToFile] leaves when the file can be written. *)
Definition saved (JSON : JSONLib) (documents : list EmbeddedDocument) (w : World) : World :=
  {| fs := <[EMBEDDINGS_FILE := File (stringify JSON (JArr (map cache_record documents)))]>
             (fs w);
     trace := trace w ++ [Console "log" [Text ("Embeddings saved to " +:+ EMBEDDINGS_FILE)]] |}.

(** ** Proof tools *)

(** Runs the steps of an [IO] computation on the world at hand. *)
Ltac run_io :=
  unfold bind, try_catch, ret, throw, of_completion, console_log, console_warn,
    console_error, sleep, emit, fs_readFile, fs_writeFile, cohere_embed, cohere_chat;
  cbn [fst snd fs trace].

(** Reads off the events a run added to the trace. *)
Ltac new_events :=
  unfold events_of; cbn [fst snd fs trace];
  rewrite <- ?app_assoc; rewrite ?drop_app_length; cbn [app].

(** ** Reading a trace *)

(** The answers of the embedding calls that succeeded. *)
Definition embed_responses (events : list Event) : list EmbedResponse :=
  omap (fun ev => match ev with Embed _ (Normal response) => Some response | _ => None end)
    events.

(** The chat requests in a trace. *)
Definition chat_requests (events : list Event) : list ChatRequest :=
  omap (fun ev => match ev with Chat request _ => Some request | _ => None end) events.

(** The pauses in a trace, in milliseconds. *)
Definition sleeps (events : list Event) : list Z :=
  omap (fun ev => match ev with Sleep ms => Some ms | _ => None end) events.

(** ** Initializing the corpus *)

(** A document of [loadDocuments] once [initializeDocuments] has gone through
    the embeddings: its [embedding] property is set if there was an embedding
    at its index, and is [undefined] ([None]) otherwise. *)
Module Fresh.
Definition Plain : Type := Document.
Record Document := { document : Plain; embedding : option (list float) }.
End Fresh.

(** The values the variable [cachedDocuments] takes: the empty array it
    starts with, what [loadEmbeddingsFromFile] returned (an array, or
    [null]), and the array of documents embedded in this run. *)
Inductive CachedDocuments :=
| InitialArray
| FromFile (documents : list Loaded.Document)
| NullValue
| Embedded (documents : list Fresh.Document).

(** The documents after
    [allEmbeddings.forEach((embedding, i) => { documents[i].embedding = embedding; })],
    when there are no more embeddings than documents. *)
Fixpoint with_embeddings (documents : list Document) (allEmbeddings : list (list float))
    : list Fresh.Document :=
  match documents with
  | [] => []
  | d :: documents =>
      match allEmbeddings with
      | e :: allEmbeddings =>
          {| Fresh.document := d; Fresh.embedding := Some e |}
            :: with_embeddings documents allEmbeddings
      | [] =>
          {| Fresh.document := d; Fresh.embedding := None |} :: with_embeddings documents []
      end
  end.

(** The [forEach]: an embedding past the last document finds
    [documents[i]] undefined, and setting a property of it throws. *)
Definition set_embeddings (documents : list Document) (allEmbeddings : list (list float))
    : Completion (list Fresh.Document) :=
  if (length documents <? length allEmbeddings)%nat
  then Throw (TypeError "Cannot set properties of undefined (setting 'embedding')")
  else Normal (with_embeddings documents allEmbeddings).

(** The record [saveEmbeddingsToFile] writes for such a document:
    [JSON.stringify] leaves out a property whose value is [undefined]. *)
Definition fresh_record (d : Fresh.Document) : jsval :=
  JObj ([("id", JStr (id (Fresh.document d)));
         ("title", JStr (title (data (Fresh.document d))));
         ("snippet", JStr (snippet (data (Fresh.document d))))]
        ++ match Fresh.embedding d with
           | Some e => [("embedding", JArr (map JNum e))]
           | None => []
           end).

(** [saveEmbeddingsToFile] on the documents of [initializeDocuments]. *)
Definition saveEmbeddingsToFile_fresh (JSON : JSONLib) (documents : list Fresh.Document)
    : IO unit :=
  let embeddingsData := JArr (map fresh_record documents) in
  fs_writeFile EMBEDDINGS_FILE (stringify JSON embeddingsData) ;;
  console_log [Text ("Embeddings saved to " +:+ EMBEDDINGS_FILE)].

(** A document all of whose properties are set. *)
Definition complete (d : EmbeddedDocument) : Fresh.Document :=
  {| Fresh.document := document d; Fresh.embedding := Some (embedding d) |}.

(** The body of [if (!cachedDocuments) { ... }], with the array it assigns
    to [cachedDocuments]; [None] when the embedding loop has not ended. *)
Definition compute_embeddings (JSON : JSONLib) (cohere : CohereClient)
    : IO (option (list Fresh.Document)) :=
  documents <- loadDocuments ;;
  console_log [Text "Embedding documents..."] ;;
  allEmbeddings <- embedDocumentsInBatches cohere documents 96 ;;
  match allEmbeddings with
  | None => ret None
  | Some allEmbeddings =>
      documents <- of_completion (set_embeddings documents allEmbeddings) ;;
      saveEmbeddingsToFile_fresh JSON documents ;;
      console_log [Text "Embeddings ready."] ;;
      ret (Some documents)
  end.

(** [initializeDocuments]: how the call ends ([Normal None] when the
    embedding loop has not ended), the value [cachedDocuments] holds then,
    and the world.  An array is truthy, also an empty one; [null] is not. *)
Definition initializeDocuments (JSON : JSONLib) (cohere : CohereClient) (w : World)
    : Completion (option unit) * CachedDocuments * World :=
  match loadEmbeddingsFromFile JSON w with
  | (Throw e, w) => (Throw e, InitialArray, w)
  | (Normal (Some loaded), w) => (Normal (Some tt), FromFile loaded, w)
  | (Normal None, w) =>
      match compute_embeddings JSON cohere w with
      | (Normal (Some documents), w) => (Normal (Some tt), Embedded documents, w)
      | (Normal None, w) => (Normal None, NullValue, w)
      | (Throw e, w) => (Throw e, NullValue, w)
      end
  end.

(** What a run of [initializeDocuments] added to the trace. *)
Definition initialize_events (JSON : JSONLib) (cohere : CohereClient) (w : World)
    : list Event :=
  skipn (length (trace w)) (trace (snd (initializeDocuments JSON cohere w))).

(** What [loadEmbeddingsFromFile] makes of the record written for a
    document: numbers as JSON text keeps them, and no [embedding] where none
    was written. *)
Definition reloaded (d : Fresh.Document) : Loaded.Document :=
  {| Loaded.id := Some (JStr (id (Fresh.document d)));
     Loaded.data :=
       {| Loaded.title := Some (JStr (title (data (Fresh.document d))));
          Loaded.snippet := Some (JStr (snippet (data (Fresh.document d)))) |};
     Loaded.embedding :=
       match Fresh.embedding d with
       | Some e => Some (JArr (map JSON_number e))
       | None => None
       end |}.

(** The corpus the handler of [/generate] finds in [cachedDocuments] when
    every document has its embedding. *)
Definition corpus_of (documents : list EmbeddedDocument) : CachedDocuments :=
  Embedded (map complete documents).

(** ** The client's retries

    [fetchWithRetry] of the chat page, for integer [retries] and [delay]. *)

Module Client.

Record FetchResponse := { ok : bool; status : Z; statusText : string }.

(** What is thrown: the error of a rejected [fetch], or
    [new Error(`API returned status ${status}: ${statusText}`)]. *)
Inductive Error :=
| FetchError (message : string)
| StatusError (status : Z) (statusText : string).

Inductive Settled (A : Type) :=
| Resolved (value : A)
| Rejected (error : Error).
Arguments Resolved {A} value.
Arguments Rejected {A} error.

(** What a run leaves behind: the calls of [fetch] with how they ended, the
    warnings [`Attempt ${i + 1} failed with status ${status}. Retrying in
    ${delay}ms...`], and the pauses, in milliseconds. *)
Inductive Event :=
| Fetched (outcome : Settled FetchResponse)
| Warned (attempt : Z) (status : Z) (delay : Z)
| Waited (ms : Z).

(** The loop from [i] on.  [fetch] answers a call given what happened
    before it.  The result is [Resolved None] for [undefined], and [None]
    when the fuel runs out before the loop ends. *)
Fixpoint retry_from (fuel : nat) (fetch : list Event -> Settled FetchResponse)
    (retries delay i : Z) (trace : list Event)
    : option (Settled (option FetchResponse)) * list Event :=
  if (i <? retries)%Z then
    match fuel with
    | O => (None, trace)
    | S fuel =>
        let outcome := fetch trace in
        let trace := trace ++ [Fetched outcome] in
        let catch (error : Error) :=
          if (i =? retries - 1)%Z then (Some (Rejected error), trace)
          else retry_from fuel fetch retries delay (i + 1)
                 (trace ++ [Waited (delay * 2 ^ i)]) in
        match outcome with
        | Resolved response =>
            if ok response then (Some (Resolved (Some response)), trace)
            else if (status response =? 429)%Z
                    || ((500 <=? status response)%Z && (i <? retries - 1)%Z)
            then retry_from fuel fetch retries delay (i + 1)
                   (trace ++ [Warned (i + 1) (status response) delay;
                              Waited (delay * 2 ^ i)])
            else catch (StatusError (status response) (statusText response))
        | Rejected error => catch error
        end
    end
  else (Some (Resolved None), trace).

Definition fetchWithRetry (fetch : list Event -> Settled FetchResponse)
    (retries delay : Z) : option (Settled (option FetchResponse)) * list Event :=
  retry_from (Z.to_nat retries) fetch retries delay 0 [].

(** The defaults: [retries = 3, delay = 1000]. *)
Definition default_retries : Z := 3.
Definition default_delay : Z := 1000.

(** The calls of [fetch] in a trace, and the pauses. *)
Definition fetches (events : list Event) : list (Settled FetchResponse) :=
  omap (fun ev => match ev with Fetched outcome => Some outcome | _ => None end) events.

Definition waits (events : list Event) : list Z :=
  omap (fun ev => match ev with Waited ms => Some ms | _ => None end) events.


(** A server that answers every call the same way. *)
Definition always (outcome : Settled FetchResponse) : list Event -> Settled FetchResponse :=
  fun _ => outcome.

Definition too_many_requests : FetchResponse :=
  {| ok := false; status := 429; statusText := "Too Many Requests" |}.



End Client.

(** ** More sample data *)

Module Sample2.

(** A provider that answers one embedding for each text of a request. *)
Definition cohere_each : CohereClient :=
  {| embed := fun _ request =>
       Normal {| embeddings := map (fun _ => Sample.query) (texts request) |};
     chat := fun _ _ => Normal {| text := "Elizabeth Bennet."; citations := None |} |}.

(** A cache file that holds an array of two records. *)
Definition cached_world : World :=
  {| fs := <[EMBEDDINGS_FILE :=
               File (stringify MiniJSON.JSON (JArr (map cache_record Sample.exact_corpus)))]> ∅;
     trace := [] |}.

(** A cache file that holds [{}], and one that holds [[null]]. *)
Definition object_world : World :=
  {| fs := <[EMBEDDINGS_FILE := File "{}"]> ∅; trace := [] |}.

Definition null_item_world : World :=
  {| fs := <[EMBEDDINGS_FILE := File "[null]"]> ∅; trace := [] |}.

(** The file of the list in the source, and no cache file. *)
Definition library : World :=
  {| fs := <["./documents/pride_prejudice_analysis.txt" :=
               File " It is a truth universally acknowledged. "]> ∅;
     trace := [] |}.

(** The corpus [initializeDocuments] builds in [library] with [cohere_each]. *)
Definition library_corpus : list Fresh.Document :=
  [ {| Fresh.document :=
         {| id := "pride_prejudice_analysis";
            data := {| title := "Pride Prejudice Analysis";
                       snippet := "It is a truth universally acknowledged." |} |};
       Fresh.embedding := Some Sample.query |} ].

(** A directory where the cache file is expected. *)
Definition directory_world : World :=
  {| fs := <[EMBEDDINGS_FILE := Directory]> ∅; trace := [] |}.

End Sample2.

(** ** More proof tools *)

(** Closes the goals that say how a handler answered. *)
Ltac answered :=
  split; [eexists; split; [reflexivity | cbn; auto]
         | split; [first [reflexivity | assumption] | cbn; lia]].


(** * Part II: the properties *)

(** ** IEEE-754 binary64 facts used by the retrieval code

    The primitive operations are specified through [Prim2SF] by the functions
    of [SpecFloat]; the facts below are derived from that specification. *)

Module F64.

Local Open Scope Z_scope.

(** [digits2_pos m] is the bit length of [m]. *)
Lemma digits2_pos_bounds (m : positive) :
  2 ^ (Zpos (digits2_pos m) - 1) <= Zpos m < 2 ^ Zpos (digits2_pos m).
Proof.
  induction m as [m IH | m IH |]; cbn [digits2_pos].
  - rewrite Pos2Z.inj_succ, (Pos2Z.inj_xI m).
    replace (Z.succ (Zpos (digits2_pos m)) - 1) with (Z.succ (Zpos (digits2_pos m) - 1)) by lia.
    rewrite !Z.pow_succ_r by lia.
    generalize dependent (2 ^ (Zpos (digits2_pos m) - 1)).
    generalize (2 ^ Zpos (digits2_pos m)). lia.
  - rewrite Pos2Z.inj_succ, (Pos2Z.inj_xO m).
    replace (Z.succ (Zpos (digits2_pos m)) - 1) with (Z.succ (Zpos (digits2_pos m) - 1)) by lia.
    rewrite !Z.pow_succ_r by lia.
    generalize dependent (2 ^ (Zpos (digits2_pos m) - 1)).
    generalize (2 ^ Zpos (digits2_pos m)). lia.
  - cbn. lia.
Qed.

Lemma canonical_inv (m : positive) (e : Z) :
  canonical_mantissa prec emax m e = true ->
  Zpos (digits2_pos m) <= 53 /\ -1074 <= e /\
  (-1074 < e -> Zpos (digits2_pos m) = 53).
Proof.
  unfold canonical_mantissa, fexp, SpecFloat.emin, prec, emax.
  intros H%Z.eqb_eq. lia.
Qed.

Lemma valid_finite_inv s m e :
  valid_binary (S754_finite s m e) = true ->
  Zpos (digits2_pos m) <= 53 /\ -1074 <= e /\
  (-1074 < e -> Zpos (digits2_pos m) = 53).
Proof.
  cbn. unfold bounded. intros [H _]%andb_true_iff. now apply canonical_inv.
Qed.

(** Left alignment multiplies the mantissa by a power of two. *)
Lemma iter_xO_pow (d m : positive) :
  Zpos (Pos.iter xO m d) = Zpos m * 2 ^ Zpos d.
Proof.
  revert m. induction d as [|d IH] using Pos.peano_ind; intros m.
  - cbn. lia.
  - rewrite Pos.iter_succ, (Pos2Z.inj_xO (Pos.iter xO m d)), IH, Pos2Z.inj_succ, Z.pow_succ_r by lia. lia.
Qed.

Lemma shl_align_fst (m : positive) (e e' : Z) :
  e' <= e -> Zpos (fst (shl_align m e e')) = Zpos m * 2 ^ (e - e').
Proof.
  intros He. unfold shl_align.
  destruct (e' - e) as [|d|d] eqn:Hd; cbn [fst].
  - replace (e - e') with 0 by lia. cbn. lia.
  - lia.
  - rewrite iter_xO_pow. f_equal. f_equal. lia.
Qed.

Lemma shl_align_snd (m : positive) (e e' : Z) :
  snd (shl_align m e e') = Z.min e e'.
Proof.
  unfold shl_align. destruct (e' - e) eqn:Hd; cbn [snd]; lia.
Qed.

Lemma digits2_pos_iter_xO (d m : positive) :
  digits2_pos (Pos.iter xO m d) = (digits2_pos m + d)%positive.
Proof.
  induction d as [|d IH] using Pos.peano_ind.
  - cbn. lia.
  - rewrite Pos.iter_succ. cbn [digits2_pos]. rewrite IH. lia.
Qed.

(** Right shifts divide the mantissa by a power of two. *)
Lemma shr_1_m mrs : 0 <= shr_m mrs -> shr_m (shr_1 mrs) = shr_m mrs / 2.
Proof.
  destruct mrs as [m r s]; cbn [shr_m]; intros Hm.
  destruct m as [|[p|p|]|p]; cbn [shr_1 shr_m]; try lia.
  - reflexivity.
  - rewrite (Pos2Z.inj_xI p). apply Z.div_unique with (r := 1); lia.
  - rewrite (Pos2Z.inj_xO p). apply Z.div_unique with (r := 0); lia.
  - reflexivity.
Qed.

Lemma iter_shr_1_m (p : positive) : forall mrs,
  0 <= shr_m mrs -> shr_m (SpecFloat.iter_pos shr_1 p mrs) = shr_m mrs / 2 ^ Zpos p.
Proof.
  induction p as [p IH | p IH |]; intros mrs Hm; cbn [SpecFloat.iter_pos].
  - assert (H1 : 0 <= shr_m (shr_1 mrs)) by (rewrite shr_1_m by lia; apply Z.div_pos; lia).
    assert (H2 : 0 <= shr_m (SpecFloat.iter_pos shr_1 p (shr_1 mrs)))
      by (rewrite IH by lia; apply Z.div_pos; lia).
    rewrite IH, IH, shr_1_m by lia.
    rewrite !Z.div_div by lia. f_equal.
    rewrite (Pos2Z.inj_xI p), Z.pow_add_r, Z.pow_mul_r by lia.
    change (2 ^ 2) with 4. change (2 ^ 1) with 2.
    replace (4 ^ Zpos p) with (2 ^ Zpos p * 2 ^ Zpos p); [lia|].
    rewrite <- Z.pow_mul_l. reflexivity.
  - assert (H2 : 0 <= shr_m (SpecFloat.iter_pos shr_1 p mrs))
      by (rewrite IH by lia; apply Z.div_pos; lia).
    rewrite IH, IH by lia.
    rewrite !Z.div_div by lia. f_equal.
    rewrite (Pos2Z.inj_xO p), Z.pow_mul_r by lia.
    change (2 ^ 2) with 4.
    rewrite <- Z.pow_mul_l. reflexivity.
  - rewrite shr_1_m by lia. reflexivity.
Qed.

Lemma shr_m_of_loc m l : shr_m (shr_record_of_loc m l) = m.
Proof. destruct l as [|[]]; reflexivity. Qed.

(** After the shift to the target exponent a mantissa with enough bits stays
    positive, and the exponent is at least [emin]. *)
Lemma shr_fexp_pos (m : positive) (e : Z) (l : location) :
  -1074 - e < Zpos (digits2_pos m) ->
  0 < shr_m (fst (shr_fexp prec emax (Zpos m) e l)) /\
  -1074 <= snd (shr_fexp prec emax (Zpos m) e l).
Proof.
  intros Hd. unfold shr_fexp, shr, fexp, SpecFloat.emin, prec, emax, Zdigits2.
  pose proof (digits2_pos_bounds m) as [Hlo _].
  destruct (Z.max (Zpos (digits2_pos m) + e - 53) (3 - 1024 - 53) - e) as [|p|p] eqn:Hn;
    cbn [fst snd].
  - rewrite shr_m_of_loc. lia.
  - rewrite iter_shr_1_m by (rewrite shr_m_of_loc; lia).
    rewrite shr_m_of_loc. split; [|lia].
    apply Z.div_str_pos. split; [apply Z.pow_pos_nonneg; lia|].
    etransitivity; [|exact Hlo]. apply Z.pow_le_mono_r; lia.
  - rewrite shr_m_of_loc. lia.
Qed.

Lemma round_nearest_even_ge m l : m <= round_nearest_even m l.
Proof.
  destruct l as [|[]]; cbn; try lia. destruct (Z.even m); lia.
Qed.

Lemma binary_round_aux_signed s (m : positive) e l :
  -1074 - e < Zpos (digits2_pos m) ->
  signed s (binary_round_aux prec emax s (Zpos m) e l).
Proof.
  intros Hd. unfold binary_round_aux.
  pose proof (shr_fexp_pos m e l Hd) as [Hm He].
  destruct (shr_fexp prec emax (Zpos m) e l) as [mrs' e']. cbn [fst snd] in Hm, He.
  pose proof (round_nearest_even_ge (shr_m mrs') (loc_of_shr_record mrs')) as Hr.
  destruct (round_nearest_even (shr_m mrs') (loc_of_shr_record mrs')) as [|m1|m1]; try lia.
  assert (Hd1 : -1074 - e' < Zpos (digits2_pos m1)) by lia.
  pose proof (shr_fexp_pos m1 e' loc_Exact Hd1) as [Hm2 _].
  destruct (shr_fexp prec emax (Zpos m1) e' loc_Exact) as [mrs'' e''].
  cbn [fst] in Hm2.
  destruct (shr_m mrs''); try lia.
  destruct (e'' <=? emax - prec); reflexivity.
Qed.

Lemma binary_round_signed s (m : positive) e :
  -1074 <= e -> signed s (binary_round prec emax s m e).
Proof.
  intros He. unfold binary_round.
  destruct (shl_align m e (fexp prec emax (Zpos (digits2_pos m) + e))) as [mz ez] eqn:Hs.
  apply binary_round_aux_signed.
  unfold shl_align in Hs.
  destruct (fexp prec emax (Zpos (digits2_pos m) + e) - e) as [|d|d] eqn:Hf;
    inversion Hs; subst; try lia.
  unfold fexp, SpecFloat.emin, prec, emax in *. lia.
Qed.

Lemma binary_normalize_sign (d e : Z) :
  -1074 <= e ->
  match d with
  | Z0 => binary_normalize prec emax d e false = S754_zero false
  | Zpos _ => signed false (binary_normalize prec emax d e false)
  | Zneg _ => signed true (binary_normalize prec emax d e false)
  end.
Proof.
  intros He. destruct d; cbn [binary_normalize]; auto using binary_round_signed.
Qed.


(** ** Comparison of finite floats against their aligned mantissas *)

Lemma valid_lt_scaled mx ex my ey sx sy :
  valid_binary (S754_finite sx mx ex) = true ->
  valid_binary (S754_finite sy my ey) = true ->
  ex < ey -> Zpos mx < Zpos my * 2 ^ (ey - ex).
Proof.
  intros (Hdx & Hex & _)%valid_finite_inv (Hdy & _ & Hn)%valid_finite_inv Hlt.
  specialize (Hn ltac:(lia)).
  pose proof (digits2_pos_bounds mx) as [_ Hx].
  pose proof (digits2_pos_bounds my) as [Hy _].
  rewrite Hn in Hy. change (2 ^ (53 - 1)) with 4503599627370496 in Hy.
  assert (Hx' : Zpos mx < 9007199254740992).
  { eapply Z.lt_le_trans; [exact Hx|].
    change 9007199254740992 with (2 ^ 53). apply Z.pow_le_mono_r; lia. }
  assert (Hp : 2 ^ 1 <= 2 ^ (ey - ex)) by (apply Z.pow_le_mono_r; lia).
  change (2 ^ 1) with 2 in Hp. nia.
Qed.

Lemma finite_compare_aligned sx mx ex sy my ey :
  valid_binary (S754_finite sx mx ex) = true ->
  valid_binary (S754_finite sy my ey) = true ->
  SFcompare (S754_finite sx mx ex) (S754_finite sy my ey) =
  Some (aligned sx mx ex (Z.min ex ey) ?= aligned sy my ey (Z.min ex ey)).
Proof.
  intros Hx Hy. unfold aligned.
  rewrite !shl_align_fst by lia.
  cbn [SFcompare]. f_equal.
  destruct (Z.compare_spec ex ey) as [He|He|He].
  - subst ey. rewrite Z.min_id, Z.sub_diag, !Z.mul_1_r.
    destruct sx, sy; reflexivity.
  - pose proof (valid_lt_scaled _ _ _ _ _ _ Hx Hy He) as Hlt.
    rewrite Z.min_l, Z.sub_diag, Z.mul_1_r by lia.
    assert (0 < Zpos my * 2 ^ (ey - ex)) by lia.
    destruct sx, sy; cbn [cond_Zopp]; symmetry;
      first [apply Z.compare_lt_iff | apply Z.compare_gt_iff]; lia.
  - pose proof (valid_lt_scaled _ _ _ _ _ _ Hy Hx He) as Hlt.
    rewrite Z.min_r, Z.sub_diag, Z.mul_1_r by lia.
    assert (0 < Zpos mx * 2 ^ (ex - ey)) by lia.
    destruct sx, sy; cbn [cond_Zopp]; symmetry;
      first [apply Z.compare_lt_iff | apply Z.compare_gt_iff]; lia.
Qed.

Lemma SFltb_zero_signed (x : sf) (s : bool) :
  signed s x -> SFltb (S754_zero false) x = negb s.
Proof.
  destruct x as [| s' | | s' m e]; cbn; try contradiction; intros ->; now destruct s.
Qed.

(** The sign of a rounded difference is the sign of the exact difference:
    [y - x] is positive exactly when [x < y]. *)
Lemma SFsub_pos (x y : sf) :
  valid_binary x = true -> valid_binary y = true ->
  sf_is_nan x = false -> sf_is_nan y = false ->
  SFltb (S754_zero false) (SF64sub y x) = SFltb x y.
Proof.
  intros Hx Hy Nx Ny.
  destruct x as [sx | sx | | sx mx ex], y as [sy | sy | | sy my ey];
    try discriminate; try (now destruct sx, sy).
  unfold SF64sub, SFsub, SFltb.
  rewrite (finite_compare_aligned _ _ _ _ _ _ Hx Hy).
  fold (aligned sy my ey (Z.min ey ex)). fold (aligned sx mx ex (Z.min ey ex)).
  rewrite (Z.min_comm ey ex).
  set (X := aligned sx mx ex (Z.min ex ey)). set (Y := aligned sy my ey (Z.min ex ey)).
  apply valid_finite_inv in Hx as (_ & Hex & _).
  apply valid_finite_inv in Hy as (_ & Hey & _).
  pose proof (binary_normalize_sign (Y - X) (Z.min ex ey) ltac:(lia)) as Hs.
  destruct (Y - X) as [|d|d] eqn:Hd.
  - fold (SFltb (S754_zero false) (binary_normalize prec emax 0 (Z.min ex ey) false)).
    rewrite Hs. replace (X ?= Y) with Eq by (symmetry; apply Z.compare_eq_iff; lia).
    reflexivity.
  - fold (SFltb (S754_zero false) (binary_normalize prec emax (Zpos d) (Z.min ex ey) false)).
    rewrite (SFltb_zero_signed _ _ Hs).
    replace (X ?= Y) with Lt by (symmetry; apply Z.compare_lt_iff; lia).
    reflexivity.
  - fold (SFltb (S754_zero false) (binary_normalize prec emax (Zneg d) (Z.min ex ey) false)).
    rewrite (SFltb_zero_signed _ _ Hs).
    replace (X ?= Y) with Gt by (symmetry; apply Z.compare_gt_iff; lia).
    reflexivity.
Qed.


(** ** The order on numbers (everything but NaN) *)

Lemma SFcompare_antisym (x y : sf) :
  SFcompare y x = option_map CompOpp (SFcompare x y).
Proof.
  destruct x as [sx | sx | | sx mx ex], y as [sy | sy | | sy my ey];
    try reflexivity; try (now destruct sx); try (now destruct sy);
    try (now destruct sx, sy).
  cbn. rewrite (Z.compare_antisym ex ey).
  destruct sx, sy, (ex ?= ey); cbn; try reflexivity.
  - now rewrite CompOpp_involutive, Pos.compare_cont_antisym.
  - now rewrite Pos.compare_cont_antisym.
Qed.

Lemma SFcompare_some (x y : sf) :
  sf_is_nan x = false -> sf_is_nan y = false -> exists c, SFcompare x y = Some c.
Proof.
  destruct x, y; try discriminate; cbn; eauto.
Qed.

Lemma SFltb_false_leb (x y : sf) :
  sf_is_nan x = false -> sf_is_nan y = false ->
  SFltb x y = false -> SFleb y x = true.
Proof.
  intros Nx Ny. unfold SFltb, SFleb. rewrite (SFcompare_antisym x y).
  destruct (SFcompare_some x y Nx Ny) as [c ->]. now destruct c.
Qed.

Lemma SFleb_ltb_false (x y : sf) : SFleb y x = true -> SFltb x y = false.
Proof.
  unfold SFltb, SFleb. rewrite (SFcompare_antisym x y).
  now destruct (SFcompare x y) as [[]|].
Qed.

Lemma SFcompare_key (x y : sf) :
  sf_is_nan x = false -> sf_is_nan y = false ->
  SFcompare x y = Some (key_compare (sf_key x) (sf_key y)).
Proof.
  destruct x as [sx | sx | | sx mx ex], y as [sy | sy | | sy my ey];
    try discriminate; intros _ _;
    try (now destruct sx); try (now destruct sy); try (now destruct sx, sy).
  destruct sx, sy; cbn; try reflexivity.
  rewrite Z.compare_opp. rewrite (Z.compare_antisym ex ey).
  destruct (ex ?= ey); reflexivity.
Qed.

Lemma key_le_trans (a b c : Z * Z * Z) :
  key_compare a b <> Gt -> key_compare b c <> Gt -> key_compare a c <> Gt.
Proof.
  destruct a as [[a1 a2] a3], b as [[b1 b2] b3], c as [[c1 c2] c3].
  unfold key_compare.
  destruct (Z.compare_spec a1 b1), (Z.compare_spec b1 c1), (Z.compare_spec a1 c1);
    try lia; try congruence;
    destruct (Z.compare_spec a2 b2), (Z.compare_spec b2 c2), (Z.compare_spec a2 c2);
    try lia; try congruence;
    destruct (Z.compare_spec a3 b3), (Z.compare_spec b3 c3), (Z.compare_spec a3 c3);
    try lia; congruence.
Qed.

Lemma SFleb_not_nan (x y : sf) :
  SFleb x y = true -> sf_is_nan x = false /\ sf_is_nan y = false.
Proof. destruct x, y; cbn; auto; discriminate. Qed.

Lemma SFleb_trans (x y z : sf) :
  SFleb x y = true -> SFleb y z = true -> SFleb x z = true.
Proof.
  intros Hxy Hyz.
  destruct (SFleb_not_nan _ _ Hxy) as [Nx Ny].
  destruct (SFleb_not_nan _ _ Hyz) as [_ Nz].
  revert Hxy Hyz. unfold SFleb.
  rewrite !SFcompare_key by assumption.
  pose proof (key_le_trans (sf_key x) (sf_key y) (sf_key z)) as H.
  destruct (key_compare (sf_key x) (sf_key y)), (key_compare (sf_key y) (sf_key z)),
    (key_compare (sf_key x) (sf_key z)); try discriminate; try reflexivity;
    intros _ _; exfalso; apply H; congruence.
Qed.

(** ** Multiplication *)

Lemma SFmul_comm (x y : sf) : SF64mul x y = SF64mul y x.
Proof.
  destruct x as [sx | sx | | sx mx ex], y as [sy | sy | | sy my ey];
    cbn; rewrite ?(xorb_comm sy sx); try reflexivity.
  now rewrite (Pos.mul_comm my mx), (Z.add_comm ey ex).
Qed.

(** ** Zeros and NaN through the arithmetic of the similarity quotient *)

Lemma SFmul_zero_l s y : zero_or_nan (SF64mul (S754_zero s) y).
Proof. destruct y; exact I. Qed.

Lemma SFmul_zero_or_nan_l x y : zero_or_nan x -> zero_or_nan (SF64mul x y).
Proof. destruct x, y; cbn; intros H; try contradiction; exact I. Qed.

Lemma SFadd_zero_or_nan x y :
  zero_or_nan x -> zero_or_nan y -> zero_or_nan (SF64add x y).
Proof.
  destruct x as [sx| | |], y as [sy| | |]; cbn; intros Hx Hy; try contradiction; auto.
  now destruct sx, sy.
Qed.

Lemma SFsqrt_zero_or_nan x : zero_or_nan x -> zero_or_nan (SF64sqrt x).
Proof. destruct x; cbn; intros H; try contradiction; exact I. Qed.

Lemma SFdiv_zero_or_nan x y :
  zero_or_nan x -> zero_or_nan y -> SF64div x y = S754_nan.
Proof. destruct x, y; cbn; intros Hx Hy; try contradiction; reflexivity. Qed.


(** ** The same facts on primitive floats *)

Local Open Scope float_scope.

Lemma is_nan_spec (x : float) : is_nan x = sf_is_nan (Prim2SF x).
Proof.
  unfold is_nan. rewrite FloatAxioms.eqb_spec. unfold SFeqb.
  destruct (Prim2SF x) as [s | s | | s m e]; cbn; try reflexivity; try (now destruct s).
  rewrite Z.compare_refl, Pos.compare_cont_refl. now destruct s.
Qed.

Lemma Prim2SF_nan (x : float) : Prim2SF x = S754_nan -> x = nan.
Proof. intros H. apply Prim2SF_inj. now rewrite H. Qed.

(** [0 < y - x] holds exactly when [x < y], for numbers [x] and [y]. *)
Lemma sub_pos (x y : float) :
  is_nan x = false -> is_nan y = false -> (0 <? y - x) = (x <? y).
Proof.
  rewrite !is_nan_spec, !FloatAxioms.ltb_spec, FloatAxioms.sub_spec. intros Nx Ny.
  change (Prim2SF 0) with (S754_zero false).
  apply SFsub_pos; auto using Prim2SF_valid.
Qed.

Lemma ltb_false_leb (x y : float) :
  is_nan x = false -> is_nan y = false -> (x <? y) = false -> (y <=? x) = true.
Proof. rewrite !is_nan_spec, FloatAxioms.ltb_spec, FloatAxioms.leb_spec. apply SFltb_false_leb. Qed.

Lemma leb_ltb_false (x y : float) : (y <=? x) = true -> (x <? y) = false.
Proof. rewrite FloatAxioms.ltb_spec, FloatAxioms.leb_spec. apply SFleb_ltb_false. Qed.

Lemma ltb_leb (x y : float) : (x <? y) = true -> (x <=? y) = true.
Proof.
  rewrite FloatAxioms.ltb_spec, FloatAxioms.leb_spec. unfold SFltb, SFleb.
  now destruct (SFcompare (Prim2SF x) (Prim2SF y)) as [[]|].
Qed.

Lemma leb_trans (x y z : float) :
  (x <=? y) = true -> (y <=? z) = true -> (x <=? z) = true.
Proof. rewrite !FloatAxioms.leb_spec. apply SFleb_trans. Qed.

Lemma leb_not_nan (x y : float) :
  (x <=? y) = true -> is_nan x = false /\ is_nan y = false.
Proof. rewrite FloatAxioms.leb_spec, !is_nan_spec. apply SFleb_not_nan. Qed.

Lemma mul_comm (x y : float) : x * y = y * x.
Proof. apply Prim2SF_inj. rewrite !FloatAxioms.mul_spec. apply SFmul_comm. Qed.

End F64.

(** ** Rounding error of the square root, the product and the quotient

    Each operation rounds its exact result to 53 bits.  Away from underflow
    and overflow the rounded and the exact result lie between two consecutive
    53-bit numbers, so that they differ by a factor of at most [1 + eps]. *)

Module Rounding.

Import F64.

Local Open Scope Z_scope.

Lemma round_nearest_even_le m l : round_nearest_even m l <= m + 1.
Proof.
  destruct l as [|[]]; cbn; try lia. destruct (Z.even m); lia.
Qed.

(** The bit length is determined by the powers of two around a number. *)
Lemma digits2_pos_unique (m : positive) (d : Z) :
  2 ^ (d - 1) <= Zpos m < 2 ^ d -> Zpos (digits2_pos m) = d.
Proof.
  intros [Hlo Hhi].
  pose proof (digits2_pos_bounds m) as [Hlo' Hhi'].
  assert (Hd : 0 < d).
  { destruct (Z.ltb_spec 0 d); [assumption|].
    assert (2 ^ d <= 2 ^ 0) by (apply Z.pow_le_mono_r; lia).
    change (2 ^ 0) with 1 in *. lia. }
  destruct (Z.lt_trichotomy (Zpos (digits2_pos m)) d) as [H | [H | H]]; [|assumption|].
  - assert (2 ^ Zpos (digits2_pos m) <= 2 ^ (d - 1)) by (apply Z.pow_le_mono_r; lia). lia.
  - assert (2 ^ d <= 2 ^ (Zpos (digits2_pos m) - 1)) by (apply Z.pow_le_mono_r; lia). lia.
Qed.

(** Rounding a mantissa of at least 53 bits, away from underflow and
    overflow: the result is a finite number whose mantissa, at the exponent
    of the truncated input, is the truncated mantissa or the next integer. *)
Lemma binary_round_aux_normal (s : bool) (m : positive) (e : Z) (l : location) :
  53 <= Zpos (digits2_pos m) ->
  -1074 <= e + Zpos (digits2_pos m) - 53 ->
  e + Zpos (digits2_pos m) - 53 < 971 ->
  exists (mr : positive) (er m1 : Z),
    binary_round_aux prec emax s (Zpos m) e l = S754_finite s mr er /\
    2 ^ 52 <= m1 < 2 ^ 53 /\
    m1 * 2 ^ (Zpos (digits2_pos m) - 53) <= Zpos m
      < (m1 + 1) * 2 ^ (Zpos (digits2_pos m) - 53) /\
    ((er = e + Zpos (digits2_pos m) - 53 /\ Zpos mr < 2 ^ 53 /\
      (Zpos mr = m1 \/ Zpos mr = m1 + 1)) \/
     (er = e + Zpos (digits2_pos m) - 52 /\ Zpos mr = 2 ^ 52 /\ m1 + 1 = 2 ^ 53)).
Proof.
  intros Hd Hlo Hhi.
  set (d := Zpos (digits2_pos m)) in *.
  pose proof (digits2_pos_bounds m) as [Hmlo Hmhi]. fold d in Hmlo, Hmhi.
  (* the truncated mantissa *)
  remember (d - 53) as n eqn:Hn.
  assert (Hpow : 2 ^ (d - 1) = 2 ^ 52 * 2 ^ n /\ 2 ^ d = 2 ^ 53 * 2 ^ n /\ 0 < 2 ^ n).
  { subst n. rewrite <- !Z.pow_add_r by lia.
    split; [f_equal; lia|]. split; [f_equal; lia|]. apply Z.pow_pos_nonneg; lia. }
  destruct Hpow as (Hp1 & Hp2 & Hp3).
  set (m1 := Zpos m / 2 ^ n).
  assert (Hm1 : m1 * 2 ^ n <= Zpos m < (m1 + 1) * 2 ^ n).
  { unfold m1. pose proof (Z.div_mod (Zpos m) (2 ^ n) ltac:(lia)) as Hdm.
    pose proof (Z.mod_pos_bound (Zpos m) (2 ^ n) Hp3). nia. }
  assert (Hm1r : 2 ^ 52 <= m1 < 2 ^ 53).
  { split.
    - unfold m1. apply Z.div_le_lower_bound; [lia|]. lia.
    - unfold m1. apply Z.div_lt_upper_bound; [lia|]. lia. }
  unfold binary_round_aux.
  assert (Hfirst : shr_m (fst (shr_fexp prec emax (Zpos m) e l)) = m1 /\
                   snd (shr_fexp prec emax (Zpos m) e l) = e + n).
  { unfold shr_fexp, shr, fexp, SpecFloat.emin, prec, emax, Zdigits2. fold d.
    replace (Z.max (d + e - 53) (3 - 1024 - 53) - e) with n by lia.
    unfold m1. clear m1 Hm1 Hm1r Hp1 Hp2 Hp3.
    destruct n as [|p|p]; cbn [fst snd].
    - rewrite shr_m_of_loc. cbn. split; [now rewrite Z.div_1_r | lia].
    - rewrite iter_shr_1_m by (rewrite shr_m_of_loc; lia).
      rewrite shr_m_of_loc. split; reflexivity.
    - lia. }
  destruct (shr_fexp prec emax (Zpos m) e l) as [mrs' e']. cbn [fst snd] in Hfirst.
  destruct Hfirst as [Hm' He'].
  pose proof (round_nearest_even_ge (shr_m mrs') (loc_of_shr_record mrs')) as Hge.
  pose proof (round_nearest_even_le (shr_m mrs') (loc_of_shr_record mrs')) as Hle.
  destruct (round_nearest_even (shr_m mrs') (loc_of_shr_record mrs')) as [|m2|m2]; try lia.
  change (2 ^ 52) with 4503599627370496 in *.
  change (2 ^ 53) with 9007199254740992 in *.
  destruct (Z.eq_dec (Zpos m2) 9007199254740992) as [Hcarry | Hcarry].
  - (* the mantissa carried into a 54th bit *)
    assert (Hd2 : Zpos (digits2_pos m2) = 54)
      by (apply digits2_pos_unique; rewrite Hcarry; cbn; lia).
    unfold shr_fexp, shr, fexp, SpecFloat.emin, prec, emax, Zdigits2. rewrite Hd2.
    replace (Z.max (54 + e' - 53) (3 - 1024 - 53) - e') with 1 by lia.
    cbn [SpecFloat.iter_pos shr_record_of_loc]. rewrite Hcarry. cbn [shr_1 shr_m].
    replace (e' + 1 <=? 1024 - 53) with true by (symmetry; apply Z.leb_le; lia).
    exists 4503599627370496%positive, (e' + 1), m1. repeat split; try lia.
  - assert (Hd2 : Zpos (digits2_pos m2) = 53)
      by (apply digits2_pos_unique; cbn; lia).
    unfold shr_fexp, shr, fexp, SpecFloat.emin, prec, emax, Zdigits2. rewrite Hd2.
    replace (Z.max (53 + e' - 53) (3 - 1024 - 53) - e') with 0 by lia.
    cbn [shr_record_of_loc shr_m].
    replace (e' <=? 1024 - 53) with true by (symmetry; apply Z.leb_le; lia).
    exists m2, e', m1. repeat split; try lia.
Qed.

(** ** Rounding error of the operations, over the reals *)

Lemma bpow_pos (e : Z) : (0 < powerRZ 2 e)%R.
Proof. apply powerRZ_lt. lra. Qed.

Lemma bpow_add (a b : Z) : powerRZ 2 (a + b) = (powerRZ 2 a * powerRZ 2 b)%R.
Proof. apply powerRZ_add. lra. Qed.

Lemma IZR_pow2 (n : Z) : 0 <= n -> IZR (2 ^ n) = powerRZ 2 n.
Proof.
  intros Hn. rewrite <- (Z2Nat.id n Hn) at 1.
  rewrite <- pow_IZR. rewrite pow_powerRZ. now rewrite Z2Nat.id.
Qed.

Lemma F2R_scale (m e n : Z) : 0 <= n -> F2R (m * 2 ^ n) e = F2R m (n + e).
Proof.
  intros Hn. unfold F2R. rewrite mult_IZR, IZR_pow2, bpow_add by assumption. ring.
Qed.

Lemma F2R_le (m m' e : Z) : m <= m' -> (F2R m e <= F2R m' e)%R.
Proof.
  intros H. unfold F2R. apply Rmult_le_compat_r; [left; apply bpow_pos | now apply IZR_le].
Qed.

Lemma F2R_pos (m : positive) (e : Z) : (0 < F2R (Zpos m) e)%R.
Proof.
  unfold F2R. apply Rmult_lt_0_compat; [now apply IZR_lt | apply bpow_pos].
Qed.

Lemma F2R_mul (m m' e e' : Z) : (F2R m e * F2R m' e' = F2R (m * m') (e + e'))%R.
Proof. unfold F2R. rewrite mult_IZR, bpow_add. ring. Qed.

Lemma eps_pos : (0 < eps)%R.
Proof. unfold eps. lra. Qed.

(** Two numbers in an interval [[M u, (M + 1) u]] with [2^52 <= M] are
    within one rounding of each other. *)
Lemma close_bracket (M : Z) (u x y : R) :
  2 ^ 52 <= M -> (0 < u)%R ->
  (IZR M * u <= x <= IZR (M + 1) * u)%R ->
  (IZR M * u <= y <= IZR (M + 1) * u)%R ->
  close 1 x y.
Proof.
  intros HM Hu Hx Hy.
  apply IZR_le in HM. change (2 ^ 52) with 4503599627370496 in HM.
  rewrite plus_IZR in Hx, Hy.
  assert (Hlo : (4503599627370496 * u <= IZR M * u)%R)
    by (apply Rmult_le_compat_r; lra).
  assert (Hw : (u <= IZR M * u * eps)%R) by (unfold eps; lra).
  unfold close. rewrite pow_1.
  assert (He : (0 < eps)%R) by exact eps_pos.
  assert (Hxe : (0 <= x * eps)%R) by (apply Rmult_le_pos; lra).
  assert (Hye : (0 <= y * eps)%R) by (apply Rmult_le_pos; lra).
  assert (Hxe' : (IZR M * u * eps <= x * eps)%R) by (apply Rmult_le_compat_r; lra).
  assert (Hye' : (IZR M * u * eps <= y * eps)%R) by (apply Rmult_le_compat_r; lra).
  repeat split; lra.
Qed.

Lemma close_trans (j k : nat) (x y z : R) :
  close j x y -> close k y z -> close (j + k) x z.
Proof.
  intros (Hx & Hy & Hxy & Hyx) (_ & Hz & Hyz & Hzy).
  assert (He : (0 < 1 + eps)%R) by (pose proof eps_pos; lra).
  assert (Hj : (0 < (1 + eps) ^ j)%R) by now apply pow_lt.
  assert (Hk : (0 < (1 + eps) ^ k)%R) by now apply pow_lt.
  unfold close. rewrite pow_add. repeat split; try assumption.
  - apply Rle_trans with (1 := Hxy).
    replace (z * ((1 + eps) ^ j * (1 + eps) ^ k))%R
      with (z * (1 + eps) ^ k * (1 + eps) ^ j)%R by ring.
    apply Rmult_le_compat_r; lra.
  - apply Rle_trans with (1 := Hzy).
    replace (x * ((1 + eps) ^ j * (1 + eps) ^ k))%R
      with (x * (1 + eps) ^ j * (1 + eps) ^ k)%R by ring.
    apply Rmult_le_compat_r; lra.
Qed.

Lemma close_sym (k : nat) (x y : R) : close k x y -> close k y x.
Proof. unfold close. tauto. Qed.

(** Rounding a mantissa of at least 53 bits, away from underflow and
    overflow, is within one rounding of every real between the mantissa and
    the next integer at the given exponent. *)
Lemma binary_round_aux_close (s : bool) (m : positive) (e : Z) (l : location) (x : R) :
  53 <= Zpos (digits2_pos m) ->
  -1074 <= e + Zpos (digits2_pos m) - 53 ->
  e + Zpos (digits2_pos m) - 53 < 971 ->
  (F2R (Zpos m) e <= x <= F2R (Zpos m + 1) e)%R ->
  exists (mr : positive) (er : Z),
    binary_round_aux prec emax s (Zpos m) e l = S754_finite s mr er /\
    Zpos (digits2_pos mr) = 53 /\
    e + Zpos (digits2_pos m) - 53 <= er <= e + Zpos (digits2_pos m) - 52 /\
    close 1 x (F2R (Zpos mr) er).
Proof.
  intros Hd Hlo Hhi Hx.
  destruct (binary_round_aux_normal s m e l Hd Hlo Hhi)
    as (mr & er & m1 & Hr & Hm1 & Hm & Hcase).
  exists mr, er. split; [exact Hr|].
  split; [apply digits2_pos_unique; change (2 ^ (53 - 1)) with (2 ^ 52); lia|].
  split; [lia|].
  set (n := Zpos (digits2_pos m) - 53) in *.
  assert (Hn : 0 <= n) by lia.
  apply (close_bracket m1 (powerRZ 2 (n + e))); [lia | apply bpow_pos | |].
  - fold (F2R m1 (n + e)) (F2R (m1 + 1) (n + e)).
    rewrite <- !F2R_scale by assumption. split.
    + apply Rle_trans with (2 := proj1 Hx). apply F2R_le. lia.
    + apply Rle_trans with (1 := proj2 Hx). apply F2R_le. lia.
  - fold (F2R m1 (n + e)) (F2R (m1 + 1) (n + e)).
    destruct Hcase as [(-> & _ & [-> | ->]) | (-> & -> & Hc)].
    + replace (e + Zpos (digits2_pos m) - 53) with (n + e) by lia.
      split; [lra | apply F2R_le; lia].
    + replace (e + Zpos (digits2_pos m) - 53) with (n + e) by lia.
      split; [apply F2R_le; lia | lra].
    + replace (e + Zpos (digits2_pos m) - 52) with (1 + (n + e)) by lia.
      rewrite <- (F2R_scale _ _ 1) by lia. rewrite Hc.
      split; [apply F2R_le; lia | apply F2R_le; lia].
Qed.

Lemma digits2_pos_53 (m : positive) :
  Zpos (digits2_pos m) = 53 -> 2 ^ 52 <= Zpos m < 2 ^ 53.
Proof. intros H. pose proof (digits2_pos_bounds m) as Hb. now rewrite H in Hb. Qed.

Lemma close_mul (j k : nat) (x y x' y' : R) :
  close j x y -> close k x' y' -> close (j + k) (x * x') (y * y').
Proof.
  intros (Hx & Hy & Hxy & Hyx) (Hx' & Hy' & Hxy' & Hyx').
  assert (He : (0 < 1 + eps)%R) by (pose proof eps_pos; lra).
  assert (Hj : (0 < (1 + eps) ^ j)%R) by now apply pow_lt.
  assert (Hk : (0 < (1 + eps) ^ k)%R) by now apply pow_lt.
  unfold close. rewrite pow_add.
  split; [now apply Rmult_lt_0_compat|]. split; [now apply Rmult_lt_0_compat|]. split.
  - replace (y * y' * ((1 + eps) ^ j * (1 + eps) ^ k))%R
      with ((y * (1 + eps) ^ j) * (y' * (1 + eps) ^ k))%R by ring.
    apply Rmult_le_compat; lra.
  - replace (x * x' * ((1 + eps) ^ j * (1 + eps) ^ k))%R
      with ((x * (1 + eps) ^ j) * (x' * (1 + eps) ^ k))%R by ring.
    apply Rmult_le_compat; lra.
Qed.

(** *** Square root *)

Lemma SFsqrt_close (m : positive) (e : Z) :
  Zpos (digits2_pos m) = 53 -> -1074 <= e -> e <= 971 ->
  exists (mr : positive) (er : Z),
    SF64sqrt (S754_finite false m e) = S754_finite false mr er /\
    Zpos (digits2_pos mr) = 53 /\
    Z.div2 e - 26 <= er <= Z.div2 e - 25 /\
    close 2 (F2R (Zpos m) e) (F2R (Zpos mr) er * F2R (Zpos mr) er).
Proof.
  intros Hd Hlo Hhi.
  pose proof (digits2_pos_53 m Hd) as Hm.
  change (2 ^ 52) with 4503599627370496 in Hm.
  change (2 ^ 53) with 9007199254740992 in Hm.
  unfold SF64sqrt, SFsqrt, SFsqrt_core_binary, Zdigits2. rewrite Hd.
  assert (Hh : Z.div2 (53 + e + 1) = Z.div2 e + 27)
    by (rewrite !Z.div2_div; Z.div_mod_to_equations; lia).
  rewrite Hh. clear Hh.
  assert (Hodd : e = 2 * Z.div2 e \/ e = 2 * Z.div2 e + 1)
    by (rewrite Z.div2_div; Z.div_mod_to_equations; lia).
  set (h := Z.div2 e) in *.
  unfold fexp, SpecFloat.emin, prec, emax.
  replace (Z.min (Z.max (h + 27 - 53) (3 - 1024 - 53)) h) with (h - 26)
    by lia.
  set (s := e - 2 * (h - 26)).
  assert (Hs : s = 52 \/ s = 53)
    by (unfold s; lia).
  set (m' := match s with Z0 => Zpos m | Zpos _ => Z.shiftl (Zpos m) s | Zneg _ => 0 end).
  assert (Hm' : m' = Zpos m * 2 ^ s).
  { unfold m'. destruct Hs as [-> | ->]; now rewrite Z.shiftl_mul_pow2 by lia. }
  clearbody m'.
  assert (Hm'r : 2 ^ 52 * 2 ^ 52 <= m' < 2 ^ 53 * 2 ^ 53).
  { rewrite Hm'. destruct Hs as [-> | ->].
    - change (2 ^ 52) with 4503599627370496. change (2 ^ 53) with 9007199254740992. nia.
    - change (2 ^ 52) with 4503599627370496. change (2 ^ 53) with 9007199254740992. nia. }
  pose proof (Z.sqrtrem_spec m' ltac:(lia)) as Hq.
  destruct (Z.sqrtrem m') as [q r]. destruct Hq as [Hq Hr].
  change (2 ^ 52) with 4503599627370496 in Hm'r.
  change (2 ^ 53) with 9007199254740992 in Hm'r.
  assert (Hqr : 4503599627370496 <= q < 9007199254740992) by nia.
  destruct q as [|q|q]; try lia.
  assert (Hdq : Zpos (digits2_pos q) = 53) by (apply digits2_pos_unique; cbn; lia).
  set (l := if r =? 0 then loc_Exact else loc_Inexact (if r <=? Zpos q then Lt else Gt)).
  clearbody l.
  assert (HS : (0 < F2R (Zpos m) e)%R) by apply F2R_pos.
  assert (Hscale : F2R (Zpos m) e = F2R m' (2 * (h - 26))).
  { rewrite Hm'. rewrite F2R_scale by lia. f_equal. unfold s. lia. }
  destruct (binary_round_aux_close false q (h - 26) l (R_sqrt.sqrt (F2R (Zpos m) e)))
    as (mr & er & Hr' & Hdr & Her & Hc); try (rewrite Hdq; lia).
  { split.
    - rewrite <- (sqrt_square (F2R (Zpos q) (h - 26))) by (left; apply F2R_pos).
      apply sqrt_le_1_alt. rewrite F2R_mul, Hscale.
      replace (h - 26 + (h - 26)) with (2 * (h - 26)) by lia.
      apply F2R_le. lia.
    - rewrite <- (sqrt_square (F2R (Zpos q + 1) (h - 26)))
        by (change (Zpos q + 1) with (Zpos (q + 1)); left; apply F2R_pos).
      apply sqrt_le_1_alt. rewrite F2R_mul, Hscale.
      replace (h - 26 + (h - 26)) with (2 * (h - 26)) by lia.
      apply F2R_le. nia. }
  exists mr, er. split; [exact Hr'|]. split; [exact Hdr|].
  split; [rewrite Hdq in Her; lia|].
  rewrite <- (sqrt_sqrt (F2R (Zpos m) e)) at 1 by lra.
  exact (close_mul 1 1 _ _ _ _ Hc Hc).
Qed.

(** *** Multiplication *)

Lemma SFmul_close (mx my : positive) (ex ey : Z) :
  Zpos (digits2_pos mx) = 53 -> Zpos (digits2_pos my) = 53 ->
  -1074 <= ex + ey + 52 -> ex + ey + 53 < 971 ->
  exists (mr : positive) (er : Z),
    SF64mul (S754_finite false mx ex) (S754_finite false my ey) = S754_finite false mr er /\
    Zpos (digits2_pos mr) = 53 /\
    ex + ey + 52 <= er <= ex + ey + 54 /\
    close 1 (F2R (Zpos mx) ex * F2R (Zpos my) ey) (F2R (Zpos mr) er).
Proof.
  intros Hdx Hdy Hlo Hhi.
  pose proof (digits2_pos_53 mx Hdx) as Hx.
  pose proof (digits2_pos_53 my Hdy) as Hy.
  change (2 ^ 52) with 4503599627370496 in Hx, Hy.
  change (2 ^ 53) with 9007199254740992 in Hx, Hy.
  unfold SF64mul, SFmul. cbn [xorb].
  assert (Hd : Zpos (digits2_pos (mx * my)) = 105 \/ Zpos (digits2_pos (mx * my)) = 106).
  { destruct (Z.lt_ge_cases (Zpos (mx * my)) (2 ^ 105)) as [H | H].
    - left. apply digits2_pos_unique. split; [|exact H].
      rewrite Pos2Z.inj_mul. change (2 ^ (105 - 1)) with (4503599627370496 * 4503599627370496). nia.
    - right. apply digits2_pos_unique. split; [exact H|].
      rewrite Pos2Z.inj_mul. change (2 ^ 106) with (9007199254740992 * 9007199254740992). nia. }
  destruct (binary_round_aux_close false (mx * my) (ex + ey) loc_Exact
              (F2R (Zpos mx) ex * F2R (Zpos my) ey))
    as (mr & er & Hr & Hdr & Her & Hc); try lia.
  { rewrite F2R_mul, Pos2Z.inj_mul. split; [lra | apply F2R_le; lia]. }
  exists mr, er. split; [exact Hr|]. split; [exact Hdr|]. split; [lia | exact Hc].
Qed.

(** *** Division *)

Lemma SFdiv_close (mx my : positive) (ex ey : Z) :
  Zpos (digits2_pos mx) = 53 -> Zpos (digits2_pos my) = 53 ->
  -1021 <= ex - ey -> ex - ey <= 1000 ->
  exists (mr : positive) (er : Z),
    SF64div (S754_finite false mx ex) (S754_finite false my ey) = S754_finite false mr er /\
    Zpos (digits2_pos mr) = 53 /\
    close 1 (F2R (Zpos mx) ex / F2R (Zpos my) ey) (F2R (Zpos mr) er).
Proof.
  intros Hdx Hdy Hlo Hhi.
  pose proof (digits2_pos_53 mx Hdx) as Hx.
  pose proof (digits2_pos_53 my Hdy) as Hy.
  change (2 ^ 52) with 4503599627370496 in Hx, Hy.
  change (2 ^ 53) with 9007199254740992 in Hx, Hy.
  unfold SF64div, SFdiv, SFdiv_core_binary, Zdigits2. cbn [xorb]. rewrite Hdx, Hdy.
  unfold fexp, SpecFloat.emin, prec, emax.
  replace (Z.min (Z.max (53 + ex - (53 + ey) - 53) (3 - 1024 - 53)) (ex - ey))
    with (ex - ey - 53) by lia.
  replace (ex - ey - (ex - ey - 53)) with 53 by lia.
  rewrite Z.shiftl_mul_pow2 by lia.
  change (2 ^ 53) with 9007199254740992.
  pose proof (Z_div_mod (Zpos mx * 9007199254740992) (Zpos my) ltac:(lia)) as Hq.
  destruct (Z.div_eucl (Zpos mx * 9007199254740992) (Zpos my)) as [q r].
  destruct Hq as [Hq Hr].
  assert (Hqr : 4503599627370496 <= q < 18014398509481984) by nia.
  destruct q as [|q|q]; try lia.
  assert (Hdq : Zpos (digits2_pos q) = 53 \/ Zpos (digits2_pos q) = 54).
  { destruct (Z.lt_ge_cases (Zpos q) (2 ^ 53)) as [H | H].
    - left. apply digits2_pos_unique. split; [cbn; lia | exact H].
    - right. apply digits2_pos_unique. split; [exact H | cbn; lia]. }
  generalize (new_location (Zpos my) r). intros l.
  assert (HX : (0 < F2R (Zpos mx) ex)%R) by apply F2R_pos.
  assert (HY : (0 < F2R (Zpos my) ey)%R) by apply F2R_pos.
  assert (Hscale : F2R (Zpos mx) ex = F2R (Zpos mx * 9007199254740992) (ex - ey - 53 + ey)).
  { change 9007199254740992 with (2 ^ 53). rewrite F2R_scale by lia. f_equal. lia. }
  destruct (binary_round_aux_close false q (ex - ey - 53) l
              (F2R (Zpos mx) ex / F2R (Zpos my) ey))
    as (mr & er & Hr' & Hdr & Her & Hc); try lia.
  { split.
    - apply Rmult_le_reg_r with (1 := HY).
      unfold Rdiv. rewrite Rmult_assoc, Rinv_l, Rmult_1_r by lra.
      rewrite F2R_mul, Hscale. apply F2R_le. lia.
    - apply Rmult_le_reg_r with (1 := HY).
      unfold Rdiv. rewrite Rmult_assoc, Rinv_l, Rmult_1_r by lra.
      rewrite F2R_mul, Hscale. apply F2R_le. nia. }
  exists mr, er. split; [exact Hr'|]. split; [exact Hdr | exact Hc].
Qed.

(** *** The quotient [S / (sqrt S * sqrt S)] *)

Lemma close_div_one (k : nat) (x y : R) : close k x y -> close k (x / y) 1.
Proof.
  intros (Hx & Hy & Hxy & Hyx).
  assert (Hi : (0 < / y)%R) by now apply Rinv_0_lt_compat.
  unfold close, Rdiv. split; [now apply Rmult_lt_0_compat|]. split; [lra|]. split.
  - apply Rmult_le_reg_r with (1 := Hy).
    rewrite Rmult_assoc, Rinv_l by lra. lra.
  - apply Rmult_le_reg_r with (1 := Hy).
    replace (x * / y * (1 + eps) ^ k * y)%R with (x * (1 + eps) ^ k * (/ y * y))%R by ring.
    rewrite Rinv_l by lra. lra.
Qed.

(** Four roundings away from 1 is within [8 eps = 2^-49] of 1. *)
Lemma close_4_one (x : R) : close 4 x 1 -> (1 - 8 * eps <= x <= 1 + 8 * eps)%R.
Proof.
  intros (Hx & _ & Hle & Hge).
  assert (He : (0 < eps <= / 16)%R) by (unfold eps; lra).
  assert (H2 : ((1 + eps) ^ 2 <= 1 + 3 * eps)%R) by (cbn [pow]; nra).
  assert (H4 : ((1 + eps) ^ 4 <= 1 + 8 * eps)%R).
  { replace ((1 + eps) ^ 4)%R with ((1 + eps) ^ 2 * (1 + eps) ^ 2)%R by ring.
    assert (0 < (1 + eps) ^ 2)%R by (apply pow_lt; lra). nra. }
  split; [|lra].
  assert (Hx8 : (1 <= x * (1 + 8 * eps))%R).
  { apply Rle_trans with (1 := Hge). apply Rmult_le_compat_l; lra. }
  nra.
Qed.

Lemma SF_self_quotient_close (m : positive) (e : Z) :
  Zpos (digits2_pos m) = 53 -> -1074 <= e <= 967 ->
  exists (mc : positive) (ec : Z),
    SF64div (S754_finite false m e)
      (SF64mul (SF64sqrt (S754_finite false m e)) (SF64sqrt (S754_finite false m e))) =
    S754_finite false mc ec /\
    Zpos (digits2_pos mc) = 53 /\
    (1 - 8 * eps <= F2R (Zpos mc) ec <= 1 + 8 * eps)%R.
Proof.
  intros Hd He.
  destruct (SFsqrt_close m e Hd) as (mr & er & -> & Hdr & Her & Hcr); try lia.
  assert (Hh : e = 2 * Z.div2 e \/ e = 2 * Z.div2 e + 1)
    by (rewrite Z.div2_div; Z.div_mod_to_equations; lia).
  destruct (SFmul_close mr mr er er Hdr Hdr) as (mp & ep & -> & Hdp & Hep & Hcp); try lia.
  destruct (SFdiv_close m mp e ep Hd Hdp) as (mc & ec & -> & Hdc & Hcc); try lia.
  exists mc, ec. split; [reflexivity|]. split; [exact Hdc|].
  apply close_4_one.
  apply (close_trans 1 3 _ (F2R (Zpos m) e / F2R (Zpos mp) ep)).
  - now apply close_sym.
  - apply close_div_one. exact (close_trans 2 1 _ _ _ Hcr Hcp).
Qed.

Lemma bpow_le (a b : Z) : a <= b -> (powerRZ 2 a <= powerRZ 2 b)%R.
Proof.
  intros H. replace b with (a + (b - a)) by lia.
  rewrite bpow_add, <- (IZR_pow2 (b - a)) by lia.
  assert (H1 : (1 <= IZR (2 ^ (b - a)))%R).
  { apply IZR_le. assert (0 < 2 ^ (b - a)) by (apply Z.pow_pos_nonneg; lia). lia. }
  pose proof (bpow_pos a). nra.
Qed.

Lemma bpow_opp (n : Z) : 0 <= n -> powerRZ 2 (- n) = (/ IZR (2 ^ n))%R.
Proof. intros H. now rewrite powerRZ_neg', IZR_pow2. Qed.

(** A binary64 number within [2^-49] of 1 has one of 25 mantissas. *)
Lemma near_one_inv (m : positive) (e : Z) :
  Zpos (digits2_pos m) = 53 ->
  (1 - 8 * eps <= F2R (Zpos m) e <= 1 + 8 * eps)%R ->
  (e = -53 /\ 2 ^ 53 - 16 <= Zpos m < 2 ^ 53 - 16 + 16) \/
  (e = -52 /\ 2 ^ 52 <= Zpos m < 2 ^ 52 + 9).
Proof.
  intros Hd [Hlo Hhi].
  pose proof (digits2_pos_53 m Hd) as [Hm1 Hm2].
  apply IZR_le in Hm1. apply IZR_lt in Hm2.
  change (2 ^ 52) with 4503599627370496 in *.
  change (2 ^ 53) with 9007199254740992 in *.
  unfold eps, F2R in Hlo, Hhi.
  pose proof (bpow_pos e) as He.
  destruct (Z.le_gt_cases e (-54)) as [H1 | H1].
  { exfalso. apply bpow_le in H1.
    assert (E : powerRZ 2 (-54) = (/ 18014398509481984)%R)
      by exact (bpow_opp 54 ltac:(lia)).
    rewrite E in H1.
    assert (IZR (Zpos m) * powerRZ 2 e <= 9007199254740992 * / 18014398509481984)%R
      by (apply Rmult_le_compat; lra).
    lra. }
  destruct (Z.le_gt_cases (-51) e) as [H2 | H2].
  { exfalso. apply bpow_le in H2.
    assert (E : powerRZ 2 (-51) = (/ 2251799813685248)%R)
      by exact (bpow_opp 51 ltac:(lia)).
    rewrite E in H2.
    assert (4503599627370496 * / 2251799813685248 <= IZR (Zpos m) * powerRZ 2 e)%R
      by (apply Rmult_le_compat; lra).
    lra. }
  assert (He' : e = -53 \/ e = -52) by lia.
  destruct He' as [-> | ->]; [left | right]; (split; [reflexivity|]).
  - assert (E : powerRZ 2 (-53) = (/ 9007199254740992)%R)
      by exact (bpow_opp 53 ltac:(lia)).
    rewrite E in Hlo.
    assert (H : (IZR (9007199254740992 - 16) <= IZR (Zpos m))%R)
      by (rewrite minus_IZR; lra).
    apply le_IZR in H. apply lt_IZR in Hm2. lia.
  - assert (E : powerRZ 2 (-52) = (/ 4503599627370496)%R)
      by exact (bpow_opp 52 ltac:(lia)).
    rewrite E in Hhi.
    assert (H : (IZR (Zpos m) <= IZR (4503599627370496 + 8))%R)
      by (rewrite plus_IZR; lra).
    apply le_IZR in H. apply le_IZR in Hm1. lia.
Qed.

Lemma Z_range_forallb (f : Z -> bool) (lo : Z) (n : nat) :
  forallb f (map (fun k => lo + Z.of_nat k) (seq 0 n)) = true ->
  forall z, lo <= z < lo + Z.of_nat n -> f z = true.
Proof.
  intros H z Hz. rewrite forallb_forall in H. apply H.
  apply in_map_iff. exists (Z.to_nat (z - lo)). split; [lia|].
  apply in_seq. lia.
Qed.

Lemma near_one_below : forall z, 2 ^ 53 - 16 <= z < 2 ^ 53 - 16 + 16 -> near_one (-53) z = true.
Proof. apply (Z_range_forallb (near_one (-53)) (2 ^ 53 - 16) 16). now vm_compute. Qed.

Lemma near_one_above : forall z, 2 ^ 52 <= z < 2 ^ 52 + 9 -> near_one (-52) z = true.
Proof. apply (Z_range_forallb (near_one (-52)) (2 ^ 52) 9). now vm_compute. Qed.

(** A float between [2^-1022] and [2^1020] is a positive normal number. *)
Lemma normal_range_inv (x : float) :
  (0x1p-1022 <=? x)%float = true -> (x <? 0x1p+1020)%float = true ->
  exists (m : positive) (e : Z),
    Prim2SF x = S754_finite false m e /\
    Zpos (digits2_pos m) = 53 /\ -1074 <= e <= 967.
Proof.
  rewrite FloatAxioms.leb_spec, FloatAxioms.ltb_spec.
  replace (Prim2SF 0x1p-1022) with (S754_finite false 4503599627370496 (-1074))
    by (now vm_compute).
  replace (Prim2SF 0x1p+1020) with (S754_finite false 4503599627370496 968)
    by (now vm_compute).
  pose proof (Prim2SF_valid x) as Hv. intros Hlo Hhi.
  destruct (Prim2SF x) as [s | s | | s m e].
  - destruct s; discriminate Hlo.
  - destruct s; [discriminate Hlo | discriminate Hhi].
  - discriminate Hlo.
  - destruct s; [discriminate Hlo|].
    apply valid_finite_inv in Hv. destruct Hv as (Hd & He & Hn).
    exists m, e. split; [reflexivity|].
    unfold SFleb, SFcompare in Hlo. unfold SFltb, SFcompare in Hhi.
    rewrite ?Pos.compare_cont_spec in Hlo, Hhi. cbn [Pos.switch_Eq] in Hlo, Hhi.
    destruct (Z.compare_spec (-1074) e) as [<- | Hlt | Hgt]; [| |discriminate].
    + destruct (Pos.compare_spec 4503599627370496 m) as [<- | Hm | Hm];
        [split; [reflexivity | lia] | | discriminate].
      apply Pos2Z.pos_lt_pos in Hm.
      split; [|lia]. apply digits2_pos_unique. cbn.
      pose proof (digits2_pos_bounds m) as [_ Hb].
      assert (2 ^ Zpos (digits2_pos m) <= 2 ^ 53) by (apply Z.pow_le_mono_r; lia).
      change (2 ^ 53) with 9007199254740992 in *. lia.
    + split; [apply Hn; lia|].
      destruct (Z.compare_spec e 968) as [-> | H | H]; [|lia|discriminate].
      destruct (Pos.compare_spec m 4503599627370496) as [H | H | H]; try discriminate.
      specialize (Hn eq_refl). apply digits2_pos_53 in Hn.
      change (2 ^ 52) with 4503599627370496 in Hn.
      apply Pos2Z.pos_lt_pos in H. lia.
Qed.

(** For [s] in that range, [s / (sqrt s * sqrt s)] is within [2^-49] of 1. *)
Lemma self_quotient_near_one (s : float) :
  (0x1p-1022 <=? s)%float = true -> (s <? 0x1p+1020)%float = true ->
  (abs (s / (sqrt s * sqrt s) - 1) <=? 0x1p-49)%float = true.
Proof.
  intros Hlo Hhi.
  destruct (normal_range_inv s Hlo Hhi) as (m & e & Hs & Hd & He).
  destruct (SF_self_quotient_close m e Hd He) as (mc & ec & Hc & Hdc & Hr).
  assert (Hq : (s / (sqrt s * sqrt s))%float = SF2Prim (S754_finite false mc ec)).
  { rewrite <- (SF2Prim_Prim2SF (s / (sqrt s * sqrt s))%float). f_equal.
    rewrite FloatAxioms.div_spec, FloatAxioms.mul_spec, FloatAxioms.sqrt_spec, Hs. exact Hc. }
  rewrite Hq.
  destruct (near_one_inv mc ec Hdc Hr) as [[-> H] | [-> H]].
  - exact (near_one_below (Zpos mc) H).
  - exact (near_one_above (Zpos mc) H).
Qed.

End Rounding.

(** ** Rounding in general, and the range of the cosine

    What [binary_round_aux] returns for every mantissa, exponent and
    location, also below the normal range; from it the error of a sum, a
    product and a quotient; and from these, by the inequality of Cauchy and
    Schwarz, a bound on the quotient [cosineSimilarity] computes. *)

Module Bounds.

Import F64 Rounding.

Local Open Scope Z_scope.

Lemma loc_of_shr_record_of_loc m l : loc_of_shr_record (shr_record_of_loc m l) = l.
Proof. destruct l as [|[]]; reflexivity. Qed.

Lemma Zdigits2_bounds (m : Z) :
  0 <= m -> 0 <= Zdigits2 m /\ m < 2 ^ Zdigits2 m.
Proof.
  intros Hm. destruct m as [|p|p]; cbn [Zdigits2]; [cbn; lia | | lia].
  pose proof (digits2_pos_bounds p). lia.
Qed.

(** The first step of a rounding: the mantissa is cut to the target
    exponent. *)
Lemma shr_fexp_value (m e : Z) (l : location) :
  0 <= m ->
  shr_m (fst (shr_fexp prec emax m e l)) =
    m / 2 ^ Z.max (fexp prec emax (Zdigits2 m + e) - e) 0 /\
  snd (shr_fexp prec emax m e l) = e + Z.max (fexp prec emax (Zdigits2 m + e) - e) 0 /\
  (fexp prec emax (Zdigits2 m + e) - e <= 0 ->
   loc_of_shr_record (fst (shr_fexp prec emax m e l)) = l).
Proof.
  intros Hm. unfold shr_fexp, shr.
  destruct (fexp prec emax (Zdigits2 m + e) - e) as [|p|p] eqn:Hn; cbn [fst snd].
  - rewrite shr_m_of_loc, loc_of_shr_record_of_loc. cbn. rewrite Z.div_1_r.
    repeat split; lia.
  - rewrite iter_shr_1_m by (rewrite shr_m_of_loc; lia).
    rewrite shr_m_of_loc. rewrite Z.max_l by lia. repeat split; lia.
  - rewrite shr_m_of_loc, loc_of_shr_record_of_loc. rewrite Z.max_r by lia.
    cbn. rewrite Z.div_1_r. repeat split; lia.
Qed.

(** What a rounding returns: the mantissa cut to the target exponent, or
    the next integer; nothing else, whatever the mantissa, the exponent and
    the location are. *)
Lemma binary_round_aux_value (s : bool) (m e : Z) (l : location) :
  0 <= m ->
  exists m2 : Z,
    m / 2 ^ Z.max (fexp prec emax (Zdigits2 m + e) - e) 0 <= m2
      <= m / 2 ^ Z.max (fexp prec emax (Zdigits2 m + e) - e) 0 + 1 /\
    (fexp prec emax (Zdigits2 m + e) - e <= 0 -> l = loc_Exact -> m2 = m) /\
    ((m2 = 0 /\ binary_round_aux prec emax s m e l = S754_zero s) \/
     (exists (mr : positive) (er : Z),
        0 < m2 /\
        ((er = e + Z.max (fexp prec emax (Zdigits2 m + e) - e) 0 /\ Zpos mr = m2) \/
         (er = e + Z.max (fexp prec emax (Zdigits2 m + e) - e) 0 + 1 /\
          Zpos mr = 2 ^ 52 /\ m2 = 2 ^ 53)) /\
        binary_round_aux prec emax s m e l =
          if er <=? 971 then S754_finite s mr er else S754_infinity s)).
Proof.
  intros Hm.
  destruct (shr_fexp_value m e l Hm) as (Hm1 & He1 & Hl1).
  pose proof (Zdigits2_bounds m Hm) as [Hd0 Hd].
  set (n := Z.max (fexp prec emax (Zdigits2 m + e) - e) 0) in *.
  assert (Hn : 0 <= n /\ Zdigits2 m - 53 <= n /\ -1074 <= e + n)
    by (unfold n, fexp, SpecFloat.emin, prec, emax; lia).
  assert (Hpn : 0 < 2 ^ n) by (apply Z.pow_pos_nonneg; lia).
  assert (Hcut : 0 <= m / 2 ^ n < 2 ^ 53).
  { split; [apply Z.div_pos; lia|].
    apply Z.div_lt_upper_bound; [lia|].
    rewrite <- Z.pow_add_r by lia.
    eapply Z.lt_le_trans; [exact Hd|]. apply Z.pow_le_mono_r; lia. }
  unfold binary_round_aux.
  destruct (shr_fexp prec emax m e l) as [mrs' e']. cbn [fst snd] in Hm1, He1, Hl1.
  pose proof (round_nearest_even_ge (shr_m mrs') (loc_of_shr_record mrs')) as Hge.
  pose proof (round_nearest_even_le (shr_m mrs') (loc_of_shr_record mrs')) as Hle.
  set (m2 := round_nearest_even (shr_m mrs') (loc_of_shr_record mrs')) in *.
  exists m2. rewrite Hm1 in Hge, Hle. split; [lia|]. split.
  { intros Hshift ->. unfold m2. rewrite Hl1, Hm1 by assumption. cbn.
    unfold n. rewrite Z.max_r by lia. cbn. now rewrite Z.div_1_r. }
  change (2 ^ 53) with 9007199254740992 in Hcut.
  destruct m2 as [|p2|p2] eqn:Hm2; [left | right | lia].
  - split; [reflexivity|].
    unfold shr_fexp, shr, fexp, SpecFloat.emin, prec, emax, Zdigits2.
    destruct (Z.max (0 + e' - 53) (3 - 1024 - 53) - e') eqn:Hs; try lia; reflexivity.
  - pose proof (digits2_pos_bounds p2) as [Hlo2 Hhi2].
    destruct (Z.eq_dec (Zpos p2) 9007199254740992) as [Hcarry | Hcarry].
    + assert (Hd2 : Zpos (digits2_pos p2) = 54)
        by (apply digits2_pos_unique; rewrite Hcarry; cbn; lia).
      unfold shr_fexp, shr, fexp, SpecFloat.emin, prec, emax, Zdigits2. rewrite Hd2.
      replace (Z.max (54 + e' - 53) (3 - 1024 - 53) - e') with 1 by lia.
      cbn [SpecFloat.iter_pos shr_record_of_loc]. rewrite Hcarry. cbn [shr_1 shr_m].
      exists 4503599627370496%positive, (e' + 1).
      split; [lia|]. split; [right; repeat split; lia|]. reflexivity.
    + assert (Hd2 : Zpos (digits2_pos p2) <= 53).
      { destruct (Z.le_gt_cases (Zpos (digits2_pos p2)) 53) as [H | H]; [exact H|].
        assert (2 ^ 53 <= 2 ^ (Zpos (digits2_pos p2) - 1)) by (apply Z.pow_le_mono_r; lia).
        change (2 ^ 53) with 9007199254740992 in *. lia. }
      unfold shr_fexp, shr, fexp, SpecFloat.emin, prec, emax, Zdigits2.
      destruct (Z.max (Zpos (digits2_pos p2) + e' - 53) (3 - 1024 - 53) - e') eqn:Hs;
        try lia; cbn [shr_record_of_loc shr_m fst snd].
      * exists p2, e'. split; [lia|]. split; [left; split; [lia | reflexivity]|]. reflexivity.
      * exists p2, e'. split; [lia|]. split; [left; split; [lia | reflexivity]|]. reflexivity.
Qed.

(** ** Over the reals *)

Lemma bpow_lt_inv (a b : Z) : (powerRZ 2 a < powerRZ 2 b)%R -> a < b.
Proof.
  intros H. destruct (Z.lt_ge_cases a b) as [Hlt | Hge]; [exact Hlt|].
  apply bpow_le in Hge. lra.
Qed.

Lemma F2R_add (m m' e : Z) : (F2R (m + m') e = F2R m e + F2R m' e)%R.
Proof. unfold F2R. rewrite plus_IZR. ring. Qed.

Lemma F2R_opp (m e : Z) : (F2R (- m) e = - F2R m e)%R.
Proof. unfold F2R. rewrite opp_IZR. ring. Qed.

Lemma F2R_one (e : Z) : F2R 1 e = powerRZ 2 e.
Proof. unfold F2R. ring. Qed.

Lemma F2R_nonneg (m e : Z) : 0 <= m -> (0 <= F2R m e)%R.
Proof.
  intros H. unfold F2R. apply Rmult_le_pos; [now apply IZR_le | left; apply bpow_pos].
Qed.

(** A positive mantissa of [d] bits at exponent [e] stands for a number
    between [2^(d-1+e)] and [2^(d+e)]. *)
Lemma F2R_digits (m : positive) (e : Z) :
  (powerRZ 2 (Zpos (digits2_pos m) - 1 + e) <= F2R (Zpos m) e
   < powerRZ 2 (Zpos (digits2_pos m) + e))%R.
Proof.
  pose proof (digits2_pos_bounds m) as [Hlo Hhi].
  assert (Hd : 0 <= Zpos (digits2_pos m) - 1) by lia.
  rewrite !bpow_add, <- (IZR_pow2 (Zpos (digits2_pos m) - 1)),
    <- (IZR_pow2 (Zpos (digits2_pos m))) by lia. unfold F2R.
  pose proof (bpow_pos e). apply IZR_le in Hlo. apply IZR_lt in Hhi.
  split; [apply Rmult_le_compat_r; lra | apply Rmult_lt_compat_r; lra].
Qed.

Lemma eps_bpow : eps = powerRZ 2 (-52).
Proof. symmetry. exact (bpow_opp 52 ltac:(lia)). Qed.

Lemma Rabs_SF2R_finite (s : bool) (m : positive) (e : Z) :
  Rabs (SF2R (S754_finite s m e)) = F2R (Zpos m) e.
Proof.
  pose proof (F2R_pos m e). cbn [SF2R].
  destruct s; [rewrite Rabs_Ropp|]; apply Rabs_pos_eq; lra.
Qed.

(** A rounding is above the number it rounds by at most one part in [2^52],
    or by [2^-1074] where it underflows, as long as the exponent it is given
    is small enough for the number. *)
Lemma binary_round_aux_upper (s : bool) (m e : Z) (l : location) (X : R) :
  0 <= m ->
  (F2R m e <= X)%R ->
  (powerRZ 2 e <= X * eps + powerRZ 2 (-1074))%R ->
  (X * (1 + eps) + powerRZ 2 (-1074) < powerRZ 2 971)%R ->
  sf_finite (binary_round_aux prec emax s m e l) = true /\
  (Rabs (SF2R (binary_round_aux prec emax s m e l))
   <= X * (1 + eps) + powerRZ 2 (-1074))%R.
Proof.
  intros Hm HX He Hmax.
  destruct (binary_round_aux_value s m e l Hm) as (m2 & [Hlo Hhi] & _ & Hres).
  pose proof (Zdigits2_bounds m Hm) as [Hd0 Hd].
  set (n := Z.max (fexp prec emax (Zdigits2 m + e) - e) 0) in *.
  assert (Hn : 0 <= n) by (unfold n; lia).
  assert (HX0 : (0 <= X)%R) by (pose proof (F2R_nonneg m e Hm); lra).
  pose proof eps_pos as Heps.
  pose proof (bpow_pos (-1074)) as Heta.
  assert (HXe : (0 <= X * eps)%R) by (apply Rmult_le_pos; lra).
  assert (Hulp : (powerRZ 2 (e + n) <= X * eps + powerRZ 2 (-1074))%R).
  { destruct (Z.eq_dec n 0) as [-> | Hn0]; [now rewrite Z.add_0_r|].
    assert (Hen : e + n = Z.max (Zdigits2 m + e - 53) (-1074))
      by (unfold n, fexp, SpecFloat.emin, prec, emax in *; lia).
    destruct (Z.le_gt_cases (Zdigits2 m + e - 53) (-1074)) as [Hsub | Hnorm].
    - rewrite Hen, Z.max_r by lia. lra.
    - rewrite Hen, Z.max_l by lia.
      destruct m as [|p|p]; [cbn [Zdigits2] in *; lia | | lia].
      cbn [Zdigits2] in *.
      pose proof (F2R_digits p e) as [Hlow _].
      replace (Zpos (digits2_pos p) + e - 53) with (Zpos (digits2_pos p) - 1 + e + -52)
        by lia.
      rewrite bpow_add, <- eps_bpow.
      assert (powerRZ 2 (Zpos (digits2_pos p) - 1 + e) * eps <= X * eps)%R
        by (apply Rmult_le_compat_r; lra).
      lra. }
  assert (HV : (F2R m2 (e + n) <= X + powerRZ 2 (e + n))%R).
  { apply Rle_trans with (F2R (m / 2 ^ n + 1) (e + n)); [apply F2R_le; lia|].
    rewrite F2R_add, F2R_one.
    apply Rplus_le_compat_r. apply Rle_trans with (2 := HX).
    replace (e + n) with (n + e) by lia. rewrite <- F2R_scale by assumption.
    apply F2R_le. rewrite Z.mul_comm. apply Z.mul_div_le.
    apply Z.pow_pos_nonneg; lia. }
  destruct Hres as [[_ ->] | (mr & er & Hpos & Hcase & ->)].
  - split; [reflexivity|]. cbn [SF2R]. rewrite Rabs_R0. lra.
  - assert (Hval : F2R (Zpos mr) er = F2R m2 (e + n)).
    { destruct Hcase as [[-> ->] | (-> & -> & ->)]; [reflexivity|].
      replace (e + n + 1) with (1 + (e + n)) by lia.
      rewrite <- F2R_scale by lia. reflexivity. }
    assert (Her : er < 971).
    { apply bpow_lt_inv. apply Rle_lt_trans with (2 := Hmax).
      pose proof (F2R_digits mr er) as [Hlow _].
      assert (powerRZ 2 er <= powerRZ 2 (Zpos (digits2_pos mr) - 1 + er))%R
        by (apply bpow_le; lia).
      lra. }
    replace (er <=? 971) with true by (symmetry; apply Z.leb_le; lia).
    split; [reflexivity|]. rewrite Rabs_SF2R_finite. lra.
Qed.

Lemma close_refl (k : nat) (x : R) : (0 < x)%R -> close k x x.
Proof.
  intros Hx. pose proof eps_pos.
  assert (1 <= (1 + eps) ^ k)%R by (apply pow_R1_Rle; lra).
  unfold close. repeat split; try assumption; nra.
Qed.

(** *** Addition *)

(** A mantissa that is canonical at its exponent is kept. *)
Lemma binary_round_aux_exact (s : bool) (m : positive) (e : Z) :
  fexp prec emax (Zpos (digits2_pos m) + e) = e -> e <= 971 ->
  binary_round_aux prec emax s (Zpos m) e loc_Exact = S754_finite s m e.
Proof.
  intros Hcanon He.
  destruct (binary_round_aux_value s (Zpos m) e loc_Exact ltac:(lia))
    as (m2 & _ & Hsame & Hres).
  cbn [Zdigits2] in *. rewrite Hcanon, Z.sub_diag in *. cbn [Z.max] in *.
  specialize (Hsame ltac:(lia) eq_refl). subst m2.
  destruct Hres as [[H _] | (mr & er & _ & Hcase & ->)]; [discriminate H|].
  destruct Hcase as [[-> [= ->]] | (_ & _ & Hcarry)].
  - rewrite Z.add_0_r.
    replace (e <=? 971) with true by (symmetry; apply Z.leb_le; lia). reflexivity.
  - assert (Hd : Zpos (digits2_pos m) = 54)
      by (apply digits2_pos_unique; rewrite Hcarry; cbn; lia).
    rewrite Hd in Hcanon. unfold fexp, SpecFloat.emin, prec, emax in Hcanon. lia.
Qed.

(** Rounding a sum's mantissa, the exponent being that of an operand:
    the result is the number itself, or within one rounding of it. *)
Lemma binary_round_close (s : bool) (p : positive) (e : Z) :
  -1074 <= e -> (F2R (Zpos p) e < powerRZ 2 1023)%R ->
  exists (mr : positive) (er : Z),
    binary_round prec emax s p e = S754_finite s mr er /\
    close 1 (F2R (Zpos p) e) (F2R (Zpos mr) er).
Proof.
  intros He Hmax.
  pose proof (F2R_digits p e) as [Hlow _].
  assert (Hde : Zpos (digits2_pos p) - 1 + e < 1023)
    by (apply bpow_lt_inv; lra).
  unfold binary_round, shl_align.
  assert (HF : fexp prec emax (Zpos (digits2_pos p) + e) =
               Z.max (Zpos (digits2_pos p) + e - 53) (-1074)) by reflexivity.
  destruct (fexp prec emax (Zpos (digits2_pos p) + e) - e) as [|k|k] eqn:Hk.
  - exists p, e. rewrite binary_round_aux_exact by lia.
    split; [reflexivity | apply close_refl, F2R_pos].
  - destruct (binary_round_aux_close s p e loc_Exact (F2R (Zpos p) e))
      as (mr & er & Hr & _ & _ & Hc); try lia.
    { split; [lra | apply F2R_le; lia]. }
    exists mr, er. split; assumption.
  - exists (Pos.iter xO p k), (fexp prec emax (Zpos (digits2_pos p) + e)).
    rewrite binary_round_aux_exact.
    + split; [reflexivity|].
      replace (F2R (Zpos (Pos.iter xO p k)) (fexp prec emax (Zpos (digits2_pos p) + e)))
        with (F2R (Zpos p) e); [apply close_refl, F2R_pos|].
      rewrite iter_xO_pow, F2R_scale by lia. f_equal. lia.
    + rewrite digits2_pos_iter_xO, Pos2Z.inj_add.
      replace (Zpos (digits2_pos p) + Zpos k + fexp prec emax (Zpos (digits2_pos p) + e))
        with (Zpos (digits2_pos p) + e) by lia.
      reflexivity.
    + lia.
Qed.

Lemma SF2R_finite (s : bool) (m : positive) (e : Z) :
  SF2R (S754_finite s m e) = F2R (cond_Zopp s (Zpos m)) e.
Proof. destruct s; cbn [SF2R cond_Zopp]; [now rewrite F2R_opp | reflexivity]. Qed.

Lemma F2R_aligned (s : bool) (m : positive) (e e' : Z) :
  e' <= e -> F2R (cond_Zopp s (Zpos m * 2 ^ (e - e'))) e' = SF2R (S754_finite s m e).
Proof.
  intros He. rewrite SF2R_finite.
  destruct s; cbn [cond_Zopp]; rewrite ?F2R_opp, F2R_scale by lia;
    repeat f_equal; lia.
Qed.

Lemma valid_exponent (s : bool) (m : positive) (e : Z) :
  valid_binary (S754_finite s m e) = true -> -1074 <= e <= 971.
Proof.
  intros Hv. pose proof (valid_finite_inv s m e Hv) as (_ & He & _).
  cbn in Hv. unfold bounded in Hv. apply andb_true_iff in Hv as [_ Hle].
  apply Z.leb_le in Hle. unfold emax, prec in Hle. lia.
Qed.

(** The sum of two finite numbers, away from overflow, is the rounding of
    their exact sum: within one part in [2^52] of it, and of its sign. *)
Lemma SFadd_bound (x y : sf) :
  valid_binary x = true -> valid_binary y = true ->
  sf_finite x = true -> sf_finite y = true ->
  (Rabs (SF2R x) + Rabs (SF2R y) < powerRZ 2 1023)%R ->
  sf_finite (SF64add x y) = true /\
  (Rabs (SF2R (SF64add x y)) <= Rabs (SF2R x + SF2R y) * (1 + eps))%R /\
  (Rabs (SF2R x + SF2R y) <= Rabs (SF2R (SF64add x y)) * (1 + eps))%R /\
  (0 <= SF2R x + SF2R y -> 0 <= SF2R (SF64add x y))%R.
Proof.
  intros Hvx Hvy Hfx Hfy Hmax. pose proof eps_pos as Heps.
  assert (Hsame : forall r : R,
             (Rabs r <= Rabs r * (1 + eps) /\ Rabs r <= Rabs r * (1 + eps))%R)
    by (intros r; pose proof (Rabs_pos r); split; nra).
  destruct x as [sx | sx | | sx mx ex]; try discriminate Hfx;
    destruct y as [sy | sy | | sy my ey]; try discriminate Hfy.
  - assert (H : SF2R (SF64add (S754_zero sx) (S754_zero sy)) = 0%R)
      by (destruct sx, sy; reflexivity).
    assert (H' : sf_finite (SF64add (S754_zero sx) (S754_zero sy)) = true)
      by (destruct sx, sy; reflexivity).
    rewrite H, H'. cbn [SF2R]. rewrite Rplus_0_l, Rabs_R0. repeat split; lra.
  - change (SF64add (S754_zero sx) (S754_finite sy my ey)) with (S754_finite sy my ey).
    cbn [SF2R sf_finite]. rewrite Rplus_0_l. destruct (Hsame (SF2R (S754_finite sy my ey))).
    repeat split; auto.
  - change (SF64add (S754_finite sx mx ex) (S754_zero sy)) with (S754_finite sx mx ex).
    cbn [SF2R sf_finite]. rewrite Rplus_0_r. destruct (Hsame (SF2R (S754_finite sx mx ex))).
    repeat split; auto.
  - pose proof (valid_exponent _ _ _ Hvx) as Hex.
    pose proof (valid_exponent _ _ _ Hvy) as Hey.
    unfold SF64add, SFadd. rewrite !shl_align_fst by lia.
    set (ez := Z.min ex ey).
    set (M := cond_Zopp sx (Zpos mx * 2 ^ (ex - ez)) + cond_Zopp sy (Zpos my * 2 ^ (ey - ez))).
    assert (Hsum : (SF2R (S754_finite sx mx ex) + SF2R (S754_finite sy my ey))%R = F2R M ez).
    { unfold M. rewrite F2R_add, !F2R_aligned by (unfold ez; lia). reflexivity. }
    rewrite Hsum.
    assert (HM : (Rabs (F2R M ez) < powerRZ 2 1023)%R).
    { rewrite <- Hsum. eapply Rle_lt_trans; [apply Rabs_triang | exact Hmax]. }
    destruct M as [|p|p] eqn:HMp; cbn [binary_normalize].
    + cbn [SF2R sf_finite]. unfold F2R. rewrite Rmult_0_l, Rabs_R0. repeat split; lra.
    + pose proof (F2R_pos p ez) as Hp.
      rewrite (Rabs_pos_eq (F2R (Zpos p) ez)) in HM |- * by lra.
      destruct (binary_round_close false p ez ltac:(unfold ez; lia) HM)
        as (mr & er & -> & (_ & Hr & H1 & H2)).
      rewrite pow_1 in H1, H2. cbn [SF2R sf_finite]. rewrite Rabs_pos_eq by lra.
      repeat split; try lra.
    + pose proof (F2R_pos p ez) as Hp.
      assert (Hneg : F2R (Zneg p) ez = (- F2R (Zpos p) ez)%R)
        by (change (Zneg p) with (- Zpos p); apply F2R_opp).
      rewrite Hneg, Rabs_Ropp, (Rabs_pos_eq (F2R (Zpos p) ez)) in HM |- * by lra.
      destruct (binary_round_close true p ez ltac:(unfold ez; lia) HM)
        as (mr & er & -> & (_ & Hr & H1 & H2)).
      rewrite pow_1 in H1, H2. cbn [SF2R sf_finite]. rewrite Rabs_Ropp, Rabs_pos_eq by lra.
      repeat split; try lra.
Qed.

(** *** Multiplication *)

(** A number of at least [2^-1022] in magnitude is normal. *)
Lemma normal_digits (s : bool) (m : positive) (e : Z) :
  valid_binary (S754_finite s m e) = true ->
  (powerRZ 2 (-1022) <= F2R (Zpos m) e)%R ->
  Zpos (digits2_pos m) = 53.
Proof.
  intros Hv Hx. destruct (valid_finite_inv s m e Hv) as (Hd & He & Hn).
  destruct (Z.eq_dec e (-1074)) as [-> | Hne]; [|apply Hn; lia].
  pose proof (F2R_digits m (-1074)) as [_ Hhi].
  assert (-1022 < Zpos (digits2_pos m) + -1074) by (apply bpow_lt_inv; lra).
  lia.
Qed.

Lemma SF2R_zero_inv (x : sf) :
  sf_finite x = true -> SF2R x = 0%R -> exists s, x = S754_zero s.
Proof.
  destruct x as [s | s | | s m e]; try discriminate; intros _ H; [now exists s|].
  pose proof (F2R_pos m e). destruct s; cbn [SF2R] in H; lra.
Qed.

Lemma SFmul_zero (x y : sf) :
  sf_finite x = true -> sf_finite y = true ->
  (SF2R x = 0 \/ SF2R y = 0)%R ->
  sf_finite (SF64mul x y) = true /\ SF2R (SF64mul x y) = 0%R.
Proof.
  intros Hx Hy [H | H].
  - destruct (SF2R_zero_inv x Hx H) as [s ->].
    destruct y as [sy | sy | | sy my ey]; try discriminate Hy; split; reflexivity.
  - destruct (SF2R_zero_inv y Hy H) as [s ->].
    destruct x as [sx | sx | | sx mx ex]; try discriminate Hx; split; reflexivity.
Qed.

Lemma SF2R_normal_inv (x : sf) :
  (powerRZ 2 (-1022) <= Rabs (SF2R x))%R -> exists s m e, x = S754_finite s m e.
Proof.
  pose proof (bpow_pos (-1022)).
  destruct x as [s | s | | s m e]; cbn [SF2R]; rewrite ?Rabs_R0; try lra.
  intros _. now exists s, m, e.
Qed.

(** The product of two normal numbers, away from underflow and overflow,
    is within one part in [2^52] of the exact product, and of its sign. *)
Lemma SFmul_bound (x y : sf) :
  valid_binary x = true -> valid_binary y = true ->
  (powerRZ 2 (-1022) <= Rabs (SF2R x))%R ->
  (powerRZ 2 (-1022) <= Rabs (SF2R y))%R ->
  (powerRZ 2 (-1020) <= Rabs (SF2R x) * Rabs (SF2R y) < powerRZ 2 1022)%R ->
  sf_finite (SF64mul x y) = true /\
  (Rabs (SF2R (SF64mul x y)) <= Rabs (SF2R x) * Rabs (SF2R y) * (1 + eps))%R /\
  (Rabs (SF2R x) * Rabs (SF2R y) <= Rabs (SF2R (SF64mul x y)) * (1 + eps))%R /\
  (0 <= SF2R x * SF2R y -> 0 <= SF2R (SF64mul x y))%R.
Proof.
  intros Hvx Hvy Hnx Hny Hxy.
  destruct (SF2R_normal_inv x Hnx) as (sx & mx & ex & ->).
  destruct (SF2R_normal_inv y Hny) as (sy & my & ey & ->).
  rewrite !Rabs_SF2R_finite in *.
  pose proof (normal_digits _ _ _ Hvx Hnx) as Hdx.
  pose proof (normal_digits _ _ _ Hvy Hny) as Hdy.
  pose proof (F2R_digits mx ex) as [Hx1 Hx2].
  pose proof (F2R_digits my ey) as [Hy1 Hy2].
  rewrite Hdx in Hx1, Hx2. rewrite Hdy in Hy1, Hy2.
  pose proof (F2R_pos mx ex) as HX. pose proof (F2R_pos my ey) as HY.
  pose proof (bpow_pos (53 - 1 + ex)). pose proof (bpow_pos (53 - 1 + ey)).
  assert (Hlo : (powerRZ 2 (53 - 1 + ex + (53 - 1 + ey))
                 <= F2R (Zpos mx) ex * F2R (Zpos my) ey)%R)
    by (rewrite bpow_add; apply Rmult_le_compat; lra).
  assert (Hhi : (F2R (Zpos mx) ex * F2R (Zpos my) ey
                 < powerRZ 2 (53 + ex + (53 + ey)))%R)
    by (rewrite bpow_add; apply Rmult_le_0_lt_compat; lra).
  assert (He1 : 53 - 1 + ex + (53 - 1 + ey) < 1022) by (apply bpow_lt_inv; lra).
  assert (He2 : -1020 < 53 + ex + (53 + ey)) by (apply bpow_lt_inv; lra).
  pose proof (digits2_pos_53 mx Hdx) as Hmx.
  pose proof (digits2_pos_53 my Hdy) as Hmy.
  change (2 ^ 52) with 4503599627370496 in Hmx, Hmy.
  change (2 ^ 53) with 9007199254740992 in Hmx, Hmy.
  unfold SF64mul, SFmul.
  assert (Hd : Zpos (digits2_pos (mx * my)) = 105 \/ Zpos (digits2_pos (mx * my)) = 106).
  { destruct (Z.lt_ge_cases (Zpos (mx * my)) (2 ^ 105)) as [H' | H'].
    - left. apply digits2_pos_unique. split; [|exact H'].
      rewrite Pos2Z.inj_mul. change (2 ^ (105 - 1)) with (4503599627370496 * 4503599627370496).
      nia.
    - right. apply digits2_pos_unique. split; [exact H'|].
      rewrite Pos2Z.inj_mul. change (2 ^ 106) with (9007199254740992 * 9007199254740992).
      nia. }
  destruct (binary_round_aux_close (xorb sx sy) (mx * my) (ex + ey) loc_Exact
              (F2R (Zpos mx) ex * F2R (Zpos my) ey))
    as (mr & er & -> & _ & _ & (_ & Hr & H1 & H2)); try lia.
  { rewrite F2R_mul, Pos2Z.inj_mul. split; [lra | apply F2R_le; lia]. }
  rewrite pow_1 in H1, H2. rewrite Rabs_SF2R_finite.
  split; [reflexivity|]. split; [exact H2|]. split; [exact H1|].
  destruct sx, sy; cbn [SF2R xorb]; intros Hsign; try lra; nra.
Qed.

(** *** Square root *)

Lemma SFsqrt_bound (x : sf) :
  valid_binary x = true ->
  (powerRZ 2 (-1022) <= SF2R x)%R ->
  sf_finite (SF64sqrt x) = true /\
  (0 < SF2R (SF64sqrt x))%R /\
  close 2 (SF2R x) (SF2R (SF64sqrt x) * SF2R (SF64sqrt x)).
Proof.
  intros Hv Hn. pose proof (bpow_pos (-1022)) as Hpos.
  destruct x as [s | s | | s m e]; cbn [SF2R] in Hn; try lra.
  pose proof (F2R_pos m e) as Hx.
  destruct s; [lra|].
  pose proof (normal_digits _ _ _ Hv Hn) as Hd.
  pose proof (valid_exponent _ _ _ Hv) as He.
  destruct (SFsqrt_close m e Hd) as (mr & er & -> & _ & _ & Hc); try lia.
  cbn [SF2R sf_finite]. split; [reflexivity|]. split; [apply F2R_pos | exact Hc].
Qed.

(** *** Division *)

(** A quotient is above the exact quotient by at most one part in [2^52],
    or by [2^-1074] where it underflows. *)
Lemma SFdiv_bound (x y : sf) :
  valid_binary x = true -> valid_binary y = true ->
  sf_finite x = true -> sf_finite y = true ->
  (0 < Rabs (SF2R y))%R ->
  (Rabs (SF2R x) / Rabs (SF2R y) * (1 + eps) + powerRZ 2 (-1074) < powerRZ 2 971)%R ->
  sf_finite (SF64div x y) = true /\
  (Rabs (SF2R (SF64div x y))
   <= Rabs (SF2R x) / Rabs (SF2R y) * (1 + eps) + powerRZ 2 (-1074))%R.
Proof.
  intros Hvx Hvy Hfx Hfy Hy Hmax.
  pose proof eps_pos as Heps. pose proof (bpow_pos (-1074)) as Heta.
  destruct y as [sy | sy | | sy my ey]; cbn [SF2R] in Hy; rewrite ?Rabs_R0 in Hy;
    try lra; try discriminate Hfy.
  destruct x as [sx | sx | | sx mx ex]; try discriminate Hfx.
  - cbn [SF64div SFdiv SF2R sf_finite] in *. split; [reflexivity|].
    rewrite Rabs_R0 in *. unfold Rdiv in *. rewrite Rmult_0_l in *. lra.
  - rewrite !Rabs_SF2R_finite in *.
    pose proof (F2R_pos mx ex) as HX. pose proof (F2R_pos my ey) as HY.
    set (X := (F2R (Zpos mx) ex / F2R (Zpos my) ey)%R) in *.
    assert (HXY : (X * F2R (Zpos my) ey = F2R (Zpos mx) ex)%R)
      by (unfold X; field; lra).
    pose proof (F2R_digits mx ex) as [Hx1 _].
    pose proof (F2R_digits my ey) as [_ Hy2].
    unfold SF64div, SFdiv, SFdiv_core_binary. cbn [Zdigits2].
    set (d1 := Zpos (digits2_pos mx)) in *. set (d2 := Zpos (digits2_pos my)) in *.
    set (e' := Z.min (fexp prec emax (d1 + ex - (d2 + ey))) (ex - ey)).
    assert (He' : e' <= ex - ey /\ e' <= Z.max (d1 + ex - (d2 + ey) - 53) (-1074))
      by (unfold e', fexp, SpecFloat.emin, prec, emax; lia).
    set (m' := match ex - ey - e' with
               | 0 => Zpos mx
               | Zpos _ => Z.shiftl (Zpos mx) (ex - ey - e')
               | Zneg _ => 0
               end).
    assert (Hm' : m' = Zpos mx * 2 ^ (ex - ey - e')).
    { unfold m'. destruct (ex - ey - e') as [|k|k] eqn:Hk; [cbn; lia | | lia].
      now rewrite Z.shiftl_mul_pow2 by lia. }
    clearbody m'.
    pose proof (Z_div_mod m' (Zpos my) ltac:(lia)) as Hq.
    destruct (Z.div_eucl m' (Zpos my)) as [q r]. destruct Hq as [Hq Hr].
    assert (Hpow : 0 < 2 ^ (ex - ey - e')) by (apply Z.pow_pos_nonneg; lia).
    assert (Hq0 : 0 <= q) by nia.
    apply binary_round_aux_upper; try assumption.
    + apply Rmult_le_reg_r with (1 := HY). rewrite HXY, F2R_mul.
      apply Rle_trans with (F2R m' (e' + ey)); [apply F2R_le; nia|].
      rewrite Hm', F2R_scale by lia. right. f_equal. lia.
    + assert (HXpos : (0 < X)%R) by (unfold X; apply Rdiv_lt_0_compat; lra).
      destruct (Z.le_gt_cases e' (-1074)) as [Hsub | Hnorm].
      * apply bpow_le in Hsub. nra.
      * assert (Hle : e' <= d1 + ex - (d2 + ey) - 1 + -52) by lia.
        apply bpow_le in Hle. rewrite bpow_add, <- eps_bpow in Hle.
        assert (Hlow : (powerRZ 2 (d1 + ex - (d2 + ey) - 1) <= X)%R).
        { apply Rmult_le_reg_r with (1 := HY). rewrite HXY.
          apply Rle_trans with (2 := Hx1).
          replace (d1 - 1 + ex) with (d1 + ex - (d2 + ey) - 1 + (d2 + ey)) by lia.
          rewrite bpow_add. apply Rmult_le_compat_l; [left; apply bpow_pos | lra]. }
        assert (powerRZ 2 (d1 + ex - (d2 + ey) - 1) * eps <= X * eps)%R
          by (apply Rmult_le_compat_r; lra).
        lra.
Qed.

(** *** Order *)

Lemma F2R_le_inv (m m' e : Z) : (F2R m e <= F2R m' e)%R -> m <= m'.
Proof.
  intros H. destruct (Z.le_gt_cases m m') as [Hle | Hgt]; [exact Hle|].
  apply IZR_lt in Hgt. pose proof (bpow_pos e). unfold F2R in H. nra.
Qed.

(** Two positive finite numbers compare as the reals they stand for. *)
Lemma SFleb_pos (m1 m2 : positive) (e1 e2 : Z) :
  valid_binary (S754_finite false m1 e1) = true ->
  valid_binary (S754_finite false m2 e2) = true ->
  SFleb (S754_finite false m1 e1) (S754_finite false m2 e2) = true <->
  (F2R (Zpos m1) e1 <= F2R (Zpos m2) e2)%R.
Proof.
  intros Hv1 Hv2. unfold SFleb.
  rewrite (finite_compare_aligned _ _ _ _ _ _ Hv1 Hv2). unfold aligned.
  rewrite !shl_align_fst by lia. cbn [cond_Zopp].
  set (ez := Z.min e1 e2).
  change (F2R (Zpos m1) e1) with (SF2R (S754_finite false m1 e1)).
  change (F2R (Zpos m2) e2) with (SF2R (S754_finite false m2 e2)).
  rewrite <- (F2R_aligned false m1 e1 ez), <- (F2R_aligned false m2 e2 ez)
    by (unfold ez; lia).
  cbn [cond_Zopp].
  destruct (Z.compare_spec (Zpos m1 * 2 ^ (e1 - ez)) (Zpos m2 * 2 ^ (e2 - ez)))
    as [Heq | Hlt | Hgt].
  - rewrite Heq. split; [intros _; lra | reflexivity].
  - split; [intros _; apply F2R_le; lia | reflexivity].
  - split; [discriminate|]. intros H%F2R_le_inv. lia.
Qed.

Lemma F2R_pow2 (e : Z) : F2R 4503599627370496 e = powerRZ 2 (52 + e).
Proof.
  change 4503599627370496 with (1 * 2 ^ 52). rewrite F2R_scale by lia. apply F2R_one.
Qed.

Lemma bpow_m1000 : powerRZ 2 (-1000) = (powerRZ 2 (-500) * powerRZ 2 (-500))%R.
Proof. exact (bpow_add (-500) (-500)). Qed.

Lemma bpow_1000 : powerRZ 2 1000 = (powerRZ 2 500 * powerRZ 2 500)%R.
Proof. exact (bpow_add 500 500). Qed.

Lemma bpow_lt (a b : Z) : a < b -> (powerRZ 2 a < powerRZ 2 b)%R.
Proof.
  intros H. replace b with (a + (b - a)) by lia.
  rewrite bpow_add, <- (IZR_pow2 (b - a)) by lia.
  assert (H1 : (2 <= IZR (2 ^ (b - a)))%R).
  { apply IZR_le. change 2 with (2 ^ 1) at 1. apply Z.pow_le_mono_r; lia. }
  pose proof (bpow_pos a). nra.
Qed.

Lemma bpow_succ (a : Z) : powerRZ 2 (1 + a) = (2 * powerRZ 2 a)%R.
Proof. rewrite bpow_add. change (powerRZ 2 1) with (2 * 1)%R. ring. Qed.

Local Open Scope float_scope.

(** *** The operations on floats *)

Lemma finite_zero : finite 0 = true /\ B2R 0 = 0%R.
Proof. split; reflexivity. Qed.

Lemma add_bound (x y : float) :
  finite x = true -> finite y = true ->
  (Rabs (B2R x) + Rabs (B2R y) < powerRZ 2 1023)%R ->
  finite (x + y) = true /\
  (Rabs (B2R (x + y)) <= Rabs (B2R x + B2R y) * (1 + eps))%R /\
  (Rabs (B2R x + B2R y) <= Rabs (B2R (x + y)) * (1 + eps))%R /\
  (0 <= B2R x + B2R y -> 0 <= B2R (x + y))%R.
Proof.
  unfold finite, B2R. rewrite FloatAxioms.add_spec.
  apply SFadd_bound; apply Prim2SF_valid.
Qed.

Lemma mul_zero (x y : float) :
  finite x = true -> finite y = true ->
  (B2R x = 0 \/ B2R y = 0)%R ->
  finite (x * y) = true /\ B2R (x * y) = 0%R.
Proof. unfold finite, B2R. rewrite FloatAxioms.mul_spec. apply SFmul_zero. Qed.

Lemma mul_bound (x y : float) :
  (powerRZ 2 (-1022) <= Rabs (B2R x))%R ->
  (powerRZ 2 (-1022) <= Rabs (B2R y))%R ->
  (powerRZ 2 (-1020) <= Rabs (B2R x) * Rabs (B2R y) < powerRZ 2 1022)%R ->
  finite (x * y) = true /\
  (Rabs (B2R (x * y)) <= Rabs (B2R x) * Rabs (B2R y) * (1 + eps))%R /\
  (Rabs (B2R x) * Rabs (B2R y) <= Rabs (B2R (x * y)) * (1 + eps))%R /\
  (0 <= B2R x * B2R y -> 0 <= B2R (x * y))%R.
Proof.
  unfold finite, B2R. rewrite FloatAxioms.mul_spec.
  apply SFmul_bound; apply Prim2SF_valid.
Qed.

Lemma sqrt_bound (x : float) :
  (powerRZ 2 (-1022) <= B2R x)%R ->
  finite (sqrt x) = true /\
  (0 < B2R (sqrt x))%R /\
  close 2 (B2R x) (B2R (sqrt x) * B2R (sqrt x)).
Proof.
  unfold finite, B2R. rewrite FloatAxioms.sqrt_spec.
  apply SFsqrt_bound; apply Prim2SF_valid.
Qed.

Lemma div_bound (x y : float) :
  finite x = true -> finite y = true ->
  (0 < Rabs (B2R y))%R ->
  (Rabs (B2R x) / Rabs (B2R y) * (1 + eps) + powerRZ 2 (-1074) < powerRZ 2 971)%R ->
  finite (x / y) = true /\
  (Rabs (B2R (x / y))
   <= Rabs (B2R x) / Rabs (B2R y) * (1 + eps) + powerRZ 2 (-1074))%R.
Proof.
  unfold finite, B2R. rewrite FloatAxioms.div_spec.
  apply SFdiv_bound; apply Prim2SF_valid.
Qed.

(** *** Components away from underflow and overflow *)

Lemma is_zero_B2R (x : float) :
  is_zero x = true -> finite x = true /\ B2R x = 0%R.
Proof.
  unfold is_zero, finite, B2R. rewrite FloatAxioms.eqb_spec.
  change (Prim2SF 0) with (S754_zero false).
  destruct (Prim2SF x) as [s | s | | s m e]; cbn; try discriminate; auto;
    now destruct s.
Qed.

Lemma moderate_nonzero (x : float) :
  moderate x = true -> is_zero x = false ->
  finite x = true /\
  (powerRZ 2 (-500) <= Rabs (B2R x) <= powerRZ 2 500)%R.
Proof.
  unfold moderate. intros H Hz. rewrite Hz in H. cbn [orb] in H.
  apply andb_true_iff in H as [Hlo Hhi].
  rewrite FloatAxioms.leb_spec, FloatAxioms.abs_spec in Hlo, Hhi.
  replace (Prim2SF 0x1p-500) with (S754_finite false 4503599627370496 (-552)) in Hlo
    by (now vm_compute).
  replace (Prim2SF 0x1p+500) with (S754_finite false 4503599627370496 448) in Hhi
    by (now vm_compute).
  unfold finite, B2R. pose proof (Prim2SF_valid x) as Hv.
  destruct (Prim2SF x) as [s | s | | s m e]; try discriminate Hlo; try discriminate Hhi.
  cbn [SFabs] in Hlo, Hhi. rewrite Rabs_SF2R_finite.
  assert (Hv' : valid_binary (S754_finite false m e) = true) by exact Hv.
  apply SFleb_pos in Hlo; [|reflexivity | exact Hv'].
  apply SFleb_pos in Hhi; [|exact Hv' | reflexivity].
  rewrite F2R_pow2 in Hlo, Hhi. split; [reflexivity|]. split; assumption.
Qed.

(** The bound of the result, as the comparison of floats states it. *)
Lemma leb_bound (r : float) :
  finite r = true ->
  (Rabs (B2R r) <= 1 + 4096 * eps)%R ->
  (abs r <=? 1 + 0x1p-40) = true.
Proof.
  intros Hf Hr.
  rewrite FloatAxioms.leb_spec, FloatAxioms.abs_spec.
  replace (Prim2SF (1 + 0x1p-40)) with (S754_finite false 4503599627374592 (-52))
    by (now vm_compute).
  unfold finite, B2R in *. pose proof (Prim2SF_valid r) as Hv.
  destruct (Prim2SF r) as [s | s | | s m e]; try discriminate Hf; [reflexivity|].
  cbn [SFabs]. rewrite Rabs_SF2R_finite in Hr.
  apply SFleb_pos; [exact Hv | reflexivity|].
  apply Rle_trans with (1 := Hr). right.
  unfold F2R. rewrite <- eps_bpow. unfold eps. field.
Qed.

(** ** The sums of the cosine *)

Lemma Rabs_sq (x : R) : (Rabs x * Rabs x = x * x)%R.
Proof. rewrite <- Rabs_mult. apply Rabs_pos_eq. nra. Qed.

(** The factor of [k] roundings, for the numbers of roundings met here. *)
Lemma pow_eps_bound (k : nat) :
  (INR k * eps <= / 3)%R -> ((1 + eps) ^ k <= 1 + 3 / 2 * INR k * eps)%R.
Proof.
  pose proof eps_pos as Heps.
  induction k as [|k IH]; intros Hk.
  - cbn. lra.
  - rewrite S_INR in *. cbn [pow].
    assert (Hk0 : (0 <= INR k)%R) by apply pos_INR.
    assert (Hke : (0 <= INR k * eps)%R) by (apply Rmult_le_pos; lra).
    specialize (IH ltac:(lra)).
    assert (H1 : (0 < 1 + eps)%R) by lra.
    apply Rle_trans with ((1 + eps) * (1 + 3 / 2 * INR k * eps))%R;
      [apply Rmult_le_compat_l; lra|].
    nra.
Qed.

Lemma pow_eps_small (k : nat) :
  (k <= 2730)%nat -> (1 <= (1 + eps) ^ k <= 1 + 4095 * eps)%R.
Proof.
  intros Hk. pose proof eps_pos as Heps.
  split; [apply pow_R1_Rle; lra|].
  assert (HI : (INR k <= 2730)%R).
  { rewrite INR_IZR_INZ. apply IZR_le. lia. }
  assert (H0 : (0 <= INR k)%R) by apply pos_INR.
  assert (He : (INR k * eps <= 2730 * eps)%R) by (apply Rmult_le_compat_r; lra).
  apply Rle_trans with (1 + 3 / 2 * INR k * eps)%R;
    [apply pow_eps_bound; unfold eps in *; lra | lra].
Qed.

Lemma pow_eps_2 (k : nat) : (k <= 2730)%nat -> (1 <= (1 + eps) ^ k <= 2)%R.
Proof.
  intros Hk. destruct (pow_eps_small k Hk). unfold eps in *. split; lra.
Qed.

(** The square of a component, and the product of two. *)
Lemma square_bound (x : float) :
  moderate x = true ->
  finite (x * x) = true /\ (0 <= B2R (x * x))%R /\
  (B2R x * B2R x <= B2R (x * x) * (1 + eps))%R /\
  (B2R (x * x) <= B2R x * B2R x * (1 + eps))%R /\
  (B2R x * B2R x <= powerRZ 2 1000)%R /\
  (is_zero x = false -> powerRZ 2 (-1000) <= B2R x * B2R x)%R.
Proof.
  intros Hx. pose proof eps_pos as Heps. pose proof (bpow_pos 1000).
  destruct (is_zero x) eqn:Hz.
  - destruct (is_zero_B2R x Hz) as [Hf H0].
    destruct (mul_zero x x Hf Hf (or_introl H0)) as [Hfp Hp].
    rewrite Hp, H0. repeat split; try lra; try assumption; discriminate.
  - destruct (moderate_nonzero x Hx Hz) as [Hf [Hlo Hhi]].
    pose proof (Rabs_pos (B2R x)) as Ha.
    pose proof (bpow_pos (-500)). pose proof (bpow_pos 500).
    assert (Hn : (powerRZ 2 (-1022) <= Rabs (B2R x))%R)
      by (apply Rle_trans with (2 := Hlo); apply bpow_le; lia).
    assert (Hl2 : (powerRZ 2 (-1000) <= Rabs (B2R x) * Rabs (B2R x))%R)
      by (rewrite bpow_m1000; apply Rmult_le_compat; lra).
    assert (Hh2 : (Rabs (B2R x) * Rabs (B2R x) <= powerRZ 2 1000)%R)
      by (rewrite bpow_1000; apply Rmult_le_compat; lra).
    assert (Hb1 : (powerRZ 2 (-1020) <= powerRZ 2 (-1000))%R) by (apply bpow_le; lia).
    assert (Hb2 : (powerRZ 2 1000 < powerRZ 2 1022)%R) by (apply bpow_lt; lia).
    destruct (mul_bound x x Hn Hn) as (Hfp & Hu & Hl & Hs); [lra|].
    rewrite Rabs_sq in *.
    assert (Hp : (0 <= B2R (x * x))%R) by (apply Hs; nra).
    rewrite (Rabs_pos_eq (B2R (x * x))) in Hu, Hl by exact Hp.
    repeat split; try lra; try assumption.
Qed.

Lemma product_bound (x y : float) :
  moderate x = true -> moderate y = true ->
  finite (x * y) = true /\
  (Rabs (B2R (x * y)) <= Rabs (B2R x) * Rabs (B2R y) * (1 + eps))%R /\
  (Rabs (B2R x) * Rabs (B2R y) <= powerRZ 2 1000)%R.
Proof.
  intros Hx Hy. pose proof eps_pos as Heps. pose proof (bpow_pos 1000).
  assert (Hzero : forall u v : float,
             finite u = true -> finite v = true -> (B2R u = 0 \/ B2R v = 0)%R ->
             finite (u * v) = true /\
             (Rabs (B2R (u * v)) <= Rabs (B2R u) * Rabs (B2R v) * (1 + eps))%R /\
             (Rabs (B2R u) * Rabs (B2R v) <= powerRZ 2 1000)%R).
  { intros u v Hu Hv H0. destruct (mul_zero u v Hu Hv H0) as [Hf Hp].
    rewrite Hp, Rabs_R0. split; [exact Hf|].
    pose proof (Rabs_pos (B2R u)). pose proof (Rabs_pos (B2R v)).
    destruct H0 as [-> | ->]; rewrite Rabs_R0; split; nra. }
  destruct (is_zero x) eqn:Hzx.
  { destruct (is_zero_B2R x Hzx) as [Hfx H0].
    assert (Hfy : finite y = true).
    { destruct (is_zero y) eqn:Hzy; [apply (is_zero_B2R y Hzy)
                                     | apply (moderate_nonzero y Hy Hzy)]. }
    apply Hzero; auto. }
  destruct (moderate_nonzero x Hx Hzx) as [Hfx [Hlx Hhx]].
  destruct (is_zero y) eqn:Hzy.
  { destruct (is_zero_B2R y Hzy) as [Hfy H0]. apply Hzero; auto. }
  destruct (moderate_nonzero y Hy Hzy) as [Hfy [Hly Hhy]].
  pose proof (bpow_pos (-500)). pose proof (bpow_pos 500).
  assert (Hnx : (powerRZ 2 (-1022) <= Rabs (B2R x))%R)
    by (apply Rle_trans with (2 := Hlx); apply bpow_le; lia).
  assert (Hny : (powerRZ 2 (-1022) <= Rabs (B2R y))%R)
    by (apply Rle_trans with (2 := Hly); apply bpow_le; lia).
  assert (Hl2 : (powerRZ 2 (-1000) <= Rabs (B2R x) * Rabs (B2R y))%R)
    by (rewrite bpow_m1000; apply Rmult_le_compat; lra).
  assert (Hh2 : (Rabs (B2R x) * Rabs (B2R y) <= powerRZ 2 1000)%R)
    by (rewrite bpow_1000; apply Rmult_le_compat; lra).
  assert (Hb1 : (powerRZ 2 (-1020) <= powerRZ 2 (-1000))%R) by (apply bpow_le; lia).
  assert (Hb2 : (powerRZ 2 1000 < powerRZ 2 1022)%R) by (apply bpow_lt; lia).
  destruct (mul_bound x y Hnx Hny) as (Hfp & Hu & _); [lra|].
  repeat split; assumption.
Qed.

Lemma R_sum_squares_nonneg (a : list float) : (0 <= R_sum_squares a)%R.
Proof. induction a as [|x a IH]; cbn [R_sum_squares]; [lra | nra]. Qed.

Lemma R_abs_dot_nonneg (a b : list float) : (0 <= R_abs_dot a b)%R.
Proof.
  revert b. induction a as [|x a IH]; intros [|y b]; cbn [R_abs_dot]; try lra.
  specialize (IH b). pose proof (Rabs_pos (B2R x)). pose proof (Rabs_pos (B2R y)). nra.
Qed.

(** The inequality of Cauchy and Schwarz. *)
Lemma cauchy_schwarz_step (X Y t A B : R) :
  (0 <= X -> 0 <= Y -> 0 <= t -> 0 <= A -> 0 <= B -> t * t <= A * B ->
   (X * Y + t) * (X * Y + t) <= (X * X + A) * (Y * Y + B))%R.
Proof.
  intros HX HY Ht HA HB Hle.
  assert (HXY : (0 <= X * Y)%R) by now apply Rmult_le_pos.
  assert (Hmix : (2 * (X * Y) * t <= X * X * B + A * (Y * Y))%R).
  { apply Rsqr_incr_0_var; [unfold Rsqr | nra].
    assert (H1 : (0 <= (X * Y) * (X * Y) * (A * B - t * t))%R)
      by (apply Rmult_le_pos; nra).
    pose proof (Rle_0_sqr (X * X * B - A * (Y * Y))) as H2. unfold Rsqr in H2.
    nra. }
  nra.
Qed.

Lemma cauchy_schwarz (a b : list float) :
  (R_abs_dot a b * R_abs_dot a b <= R_sum_squares a * R_sum_squares b)%R.
Proof.
  revert b. induction a as [|x a IH]; intros [|y b]; cbn [R_abs_dot R_sum_squares].
  - lra.
  - pose proof (R_sum_squares_nonneg (y :: b)) as H. cbn [R_sum_squares] in H. nra.
  - pose proof (R_sum_squares_nonneg (x :: a)) as H. cbn [R_sum_squares] in H. nra.
  - rewrite <- (Rabs_sq (B2R x)), <- (Rabs_sq (B2R y)).
    apply cauchy_schwarz_step; auto using Rabs_pos, R_abs_dot_nonneg, R_sum_squares_nonneg.
Qed.

(** One step of a sum of nonnegative terms. *)
Lemma sum_step (A P E Q S u uk : R) :
  (1 <= u -> u <= uk -> 0 <= E -> 0 <= Q -> 0 <= A -> 0 <= P -> 0 <= S ->
   E <= A * uk -> A <= E * uk -> Q <= P * u -> P <= Q * u ->
   S <= (A + P) * u -> A + P <= S * u ->
   E + Q <= S * (u * uk) /\ S <= (E + Q) * (u * uk))%R.
Proof.
  intros Hu Huk HE HQ HA HP HS H1 H2 H3 H4 H5 H6. split.
  - apply Rle_trans with ((A + P) * uk)%R; [nra|].
    replace (S * (u * uk))%R with (S * u * uk)%R by ring.
    apply Rmult_le_compat_r; lra.
  - apply Rle_trans with (1 := H5).
    replace ((E + Q) * (u * uk))%R with ((E + Q) * uk * u)%R by ring.
    apply Rmult_le_compat_r; [lra | nra].
Qed.

(** The sum of squares the code computes is within [k + n] roundings of the
    exact sum, [k] being the roundings behind the accumulator. *)
Lemma sum_squares_from_bound (a : list float) :
  Forall (fun x => moderate x = true) a ->
  forall (acc : float) (E : R) (k : nat),
    finite acc = true ->
    (0 <= E)%R -> (0 <= B2R acc)%R ->
    (E <= B2R acc * (1 + eps) ^ k)%R -> (B2R acc <= E * (1 + eps) ^ k)%R ->
    (1 <= k)%nat -> (k + length a <= 2730)%nat ->
    (E + INR (length a) * powerRZ 2 1000 <= powerRZ 2 1011)%R ->
    finite (sum_squares_from acc a) = true /\
    (0 <= B2R (sum_squares_from acc a))%R /\
    (E + R_sum_squares a
     <= B2R (sum_squares_from acc a) * (1 + eps) ^ (k + length a))%R /\
    (B2R (sum_squares_from acc a)
     <= (E + R_sum_squares a) * (1 + eps) ^ (k + length a))%R.
Proof.
  pose proof eps_pos as Heps.
  induction 1 as [|x a Hx _ IH]; intros acc E k Hf HE HA H1 H2 Hk Hlen Hmax.
  - cbn [sum_squares_from fold_left R_sum_squares length].
    rewrite Nat.add_0_r, Rplus_0_r. auto.
  - cbn [length] in Hlen, Hmax. rewrite S_INR in Hmax.
    change (sum_squares_from acc (x :: a)) with (sum_squares_from (acc + x * x) a).
    destruct (square_bound x Hx) as (Hfp & Hp & Hq1 & Hq2 & Hq3 & _).
    pose proof (pow_eps_2 k ltac:(lia)) as [Hk1 Hk2].
    pose proof (bpow_pos 1000) as Hb. pose proof (pos_INR (length a)) as Hn.
    assert (Hn' : (0 <= INR (length a) * powerRZ 2 1000)%R) by (apply Rmult_le_pos; lra).
    pose proof (bpow_succ 1011 : powerRZ 2 1012 = (2 * powerRZ 2 1011)%R) as E1012.
    pose proof (bpow_succ 1000 : powerRZ 2 1001 = (2 * powerRZ 2 1000)%R) as E1001.
    pose proof (bpow_succ 1022 : powerRZ 2 1023 = (2 * powerRZ 2 1022)%R) as E1023.
    assert (Heps1 : (eps <= 1)%R) by (unfold eps; lra).
    assert (HAmax : (B2R acc <= powerRZ 2 1012)%R).
    { rewrite E1012. apply Rle_trans with (1 := H2).
      apply Rle_trans with (E * 2)%R; [apply Rmult_le_compat_l; lra | lra]. }
    assert (HPmax : (B2R (x * x) <= powerRZ 2 1001)%R).
    { rewrite E1001. apply Rle_trans with (1 := Hq2).
      apply Rle_trans with (powerRZ 2 1000 * (1 + eps))%R;
        [apply Rmult_le_compat_r; lra | nra]. }
    assert (Hb1 : (powerRZ 2 1012 + powerRZ 2 1001 < powerRZ 2 1023)%R).
    { pose proof (bpow_lt 1001 1012 ltac:(lia)).
      pose proof (bpow_lt 1012 1022 ltac:(lia)). lra. }
    destruct (add_bound acc (x * x) Hf Hfp) as (Hfs & Hs1 & Hs2 & Hs3).
    { rewrite !Rabs_pos_eq by assumption. lra. }
    specialize (Hs3 ltac:(lra)).
    rewrite (Rabs_pos_eq (B2R (acc + x * x))) in Hs1, Hs2 by assumption.
    rewrite (Rabs_pos_eq (B2R acc + B2R (x * x))) in Hs1, Hs2 by lra.
    assert (Huk : (1 + eps <= (1 + eps) ^ k)%R).
    { rewrite <- (pow_1 (1 + eps)) at 1. apply Rle_pow; [lra | lia]. }
    destruct (sum_step (B2R acc) (B2R (x * x)) E (B2R x * B2R x) (B2R (acc + x * x))
                (1 + eps) ((1 + eps) ^ k)) as [Hn1 Hn2]; try assumption; try lra; try nra.
    destruct (IH (acc + x * x) (E + B2R x * B2R x)%R (S k)) as (Hr1 & Hr2 & Hr3 & Hr4);
      try assumption; try lia; try nra.
    cbn [R_sum_squares length].
    replace (k + S (length a))%nat with (S k + length a)%nat by lia.
    replace (E + (B2R x * B2R x + R_sum_squares a))%R
      with (E + B2R x * B2R x + R_sum_squares a)%R by ring.
    auto.
Qed.

(** The dot product the code computes is, in magnitude, at most the sum of
    the magnitudes of the exact products, up to [k + n] roundings. *)
Lemma dot_from_bound (a : list float) :
  Forall (fun x => moderate x = true) a ->
  forall (b : list float), Forall (fun y => moderate y = true) b ->
  forall (acc : float) (T : R) (k : nat),
    finite acc = true ->
    (0 <= T)%R ->
    (Rabs (B2R acc) <= T * (1 + eps) ^ k)%R ->
    (1 <= k)%nat -> (k + length a <= 2730)%nat ->
    (T + INR (length a) * powerRZ 2 1000 <= powerRZ 2 1011)%R ->
    finite (dot_from acc a b) = true /\
    (Rabs (B2R (dot_from acc a b))
     <= (T + R_abs_dot a b) * (1 + eps) ^ (k + length a))%R.
Proof.
  pose proof eps_pos as Heps.
  induction 1 as [|x a Hx _ IH]; intros b Hb acc T k Hf HT H1 Hk Hlen Hmax.
  - cbn [dot_from combine fold_left R_abs_dot length].
    rewrite Nat.add_0_r, Rplus_0_r. auto.
  - cbn [length] in Hlen, Hmax. rewrite S_INR in Hmax.
    pose proof (pow_eps_2 k ltac:(lia)) as [Hk1 Hk2].
    pose proof (bpow_pos 1000) as Hb0. pose proof (pos_INR (length a)) as Hn.
    assert (Hn' : (0 <= INR (length a) * powerRZ 2 1000)%R) by (apply Rmult_le_pos; lra).
    destruct Hb as [|y b Hy Hb].
    + cbn [dot_from combine fold_left R_abs_dot]. split; [exact Hf|].
      rewrite Rplus_0_r. apply Rle_trans with (1 := H1).
      apply Rmult_le_compat_l; [exact HT|]. apply Rle_pow; [lra | lia].
    + change (dot_from acc (x :: a) (y :: b)) with (dot_from (acc + x * y) a b).
      destruct (product_bound x y Hx Hy) as (Hfp & Hp1 & Hp2).
      pose proof (Rabs_pos (B2R x)) as Hax. pose proof (Rabs_pos (B2R y)) as Hay.
      assert (Hxy : (0 <= Rabs (B2R x) * Rabs (B2R y))%R) by now apply Rmult_le_pos.
      pose proof (bpow_succ 1011 : powerRZ 2 1012 = (2 * powerRZ 2 1011)%R) as E1012.
      pose proof (bpow_succ 1000 : powerRZ 2 1001 = (2 * powerRZ 2 1000)%R) as E1001.
      pose proof (bpow_succ 1022 : powerRZ 2 1023 = (2 * powerRZ 2 1022)%R) as E1023.
      assert (Heps1 : (eps <= 1)%R) by (unfold eps; lra).
      assert (HAmax : (Rabs (B2R acc) <= powerRZ 2 1012)%R).
      { rewrite E1012. apply Rle_trans with (1 := H1).
        apply Rle_trans with (T * 2)%R; [apply Rmult_le_compat_l; lra | lra]. }
      assert (HPmax : (Rabs (B2R (x * y)) <= powerRZ 2 1001)%R).
      { rewrite E1001. apply Rle_trans with (1 := Hp1).
        apply Rle_trans with (powerRZ 2 1000 * (1 + eps))%R;
          [apply Rmult_le_compat_r; lra | nra]. }
      assert (Hb1 : (powerRZ 2 1012 + powerRZ 2 1001 < powerRZ 2 1023)%R).
      { pose proof (bpow_lt 1001 1012 ltac:(lia)).
        pose proof (bpow_lt 1012 1022 ltac:(lia)). lra. }
      destruct (add_bound acc (x * y) Hf Hfp) as (Hfs & Hs1 & _); [lra|].
      assert (Huk : (1 + eps <= (1 + eps) ^ k)%R).
      { rewrite <- (pow_1 (1 + eps)) at 1. apply Rle_pow; [lra | lia]. }
      pose proof (Rabs_triang (B2R acc) (B2R (x * y))) as Htri.
      assert (Hstep : (Rabs (B2R (acc + x * y))
                       <= (T + Rabs (B2R x) * Rabs (B2R y)) * (1 + eps) ^ S k)%R).
      { cbn [pow]. apply Rle_trans with (1 := Hs1).
        replace ((T + Rabs (B2R x) * Rabs (B2R y)) * ((1 + eps) * (1 + eps) ^ k))%R
          with ((T + Rabs (B2R x) * Rabs (B2R y)) * (1 + eps) ^ k * (1 + eps))%R by ring.
        apply Rmult_le_compat_r; [lra|].
        apply Rle_trans with (1 := Htri). nra. }
      destruct (IH b Hb (acc + x * y) (T + Rabs (B2R x) * Rabs (B2R y))%R (S k))
        as (Hr1 & Hr2); try assumption; try lia; try nra.
      cbn [R_abs_dot length].
      replace (k + S (length a))%nat with (S k + length a)%nat by lia.
      replace (T + (Rabs (B2R x) * Rabs (B2R y) + R_abs_dot a b))%R
        with (T + Rabs (B2R x) * Rabs (B2R y) + R_abs_dot a b)%R by ring.
      auto.
Qed.

(** ** The range of the cosine *)

Lemma R_sum_squares_lower (a : list float) :
  Forall (fun x => moderate x = true) a -> ~ zero_vector a ->
  (powerRZ 2 (-1000) <= R_sum_squares a)%R.
Proof.
  induction 1 as [|x a Hx Ha IH]; intros Hnz; [destruct Hnz; constructor|].
  cbn [R_sum_squares].
  destruct (square_bound x Hx) as (_ & _ & _ & _ & _ & Hlow).
  pose proof (R_sum_squares_nonneg a) as Hpos.
  destruct (is_zero x) eqn:Hz.
  - assert (Hnz' : ~ zero_vector a) by (intros H'; apply Hnz; now constructor).
    specialize (IH Hnz'). nra.
  - specialize (Hlow eq_refl). lra.
Qed.

Lemma R_sum_squares_upper (a : list float) :
  Forall (fun x => moderate x = true) a ->
  (R_sum_squares a <= INR (length a) * powerRZ 2 1000)%R.
Proof.
  induction 1 as [|x a Hx Ha IH]; cbn [R_sum_squares length]; [cbn; lra|].
  rewrite S_INR. destruct (square_bound x Hx) as (_ & _ & _ & _ & Hup & _). lra.
Qed.

Lemma Rsqr_le_inv (x y : R) : (0 <= y -> x * x <= y * y -> x <= y)%R.
Proof. intros Hy H. apply Rsqr_incr_0_var; [exact H | exact Hy]. Qed.

(** What is known of a magnitude: the rounded sum of squares [S] is within
    [n + 1] roundings of the exact one, and its rounded square root, squared,
    within two roundings of [S]. *)
Lemma magnitude_bound (a : list float) :
  (length a <= 1024)%nat ->
  Forall (fun x => moderate x = true) a -> ~ zero_vector a ->
  finite (magnitude a) = true /\
  (powerRZ 2 (-501) <= B2R (magnitude a) <= powerRZ 2 506)%R /\
  (R_sum_squares a
   <= B2R (magnitude a) * B2R (magnitude a) * (1 + eps) ^ 2 * (1 + eps) ^ (1 + length a))%R.
Proof.
  intros Hn Ha Hnz. pose proof eps_pos as Heps.
  pose proof (R_sum_squares_lower a Ha Hnz) as Hlow.
  pose proof (R_sum_squares_upper a Ha) as Hup.
  pose proof (bpow_pos 1000) as Hb.
  assert (HI : (0 <= INR (length a) <= 1024)%R).
  { split; [apply pos_INR|]. rewrite INR_IZR_INZ. apply IZR_le. lia. }
  pose proof (bpow_add 10 1000 : powerRZ 2 1010 = (powerRZ 2 10 * powerRZ 2 1000)%R) as E1010.
  assert (E10 : powerRZ 2 10 = 1024%R) by (rewrite <- (IZR_pow2 10) by lia; reflexivity).
  pose proof (bpow_succ 1010 : powerRZ 2 1011 = (2 * powerRZ 2 1010)%R) as E1011.
  pose proof (bpow_succ 1011 : powerRZ 2 1012 = (2 * powerRZ 2 1011)%R) as E1012.
  pose proof (bpow_succ (-1001) : powerRZ 2 (-1000) = (2 * powerRZ 2 (-1001))%R) as Em1000.
  pose proof (bpow_succ (-1002) : powerRZ 2 (-1001) = (2 * powerRZ 2 (-1002))%R) as Em1001.
  pose proof (bpow_add (-501) (-501)
              : powerRZ 2 (-1002) = (powerRZ 2 (-501) * powerRZ 2 (-501))%R) as Em1002.
  pose proof (bpow_add 506 506 : powerRZ 2 1012 = (powerRZ 2 506 * powerRZ 2 506)%R) as E506.
  pose proof (bpow_pos (-501)) as Hq1. pose proof (bpow_pos 506) as Hq2.
  pose proof (bpow_pos (-1002)) as Hq3.
  assert (Hsum : (INR (length a) * powerRZ 2 1000 <= powerRZ 2 1010)%R)
    by (rewrite E1010, E10; apply Rmult_le_compat_r; lra).
  destruct finite_zero as [Hf0 H0].
  destruct (sum_squares_from_bound a Ha 0 0%R 1) as (HfS & HS0 & HS1 & HS2);
    rewrite ?H0; try assumption; try lra; try lia.
  fold (sum_squares a) in *. rewrite Rplus_0_l in HS1, HS2.
  pose proof (pow_eps_2 (1 + length a) ltac:(lia)) as [HU1 HU2].
  pose proof (pow_eps_2 2 ltac:(lia)) as [Hu1 Hu2].
  set (U := ((1 + eps) ^ (1 + length a))%R) in *.
  set (u2 := ((1 + eps) ^ 2)%R) in *.
  set (S := B2R (sum_squares a)) in *.
  assert (HSlo : (powerRZ 2 (-1001) <= S)%R) by nra.
  assert (HShi : (S <= powerRZ 2 1011)%R) by nra.
  destruct (sqrt_bound (sum_squares a)) as (HfM & HM0 & (_ & HMM & HM1 & HM2)).
  { apply Rle_trans with (2 := HSlo). apply bpow_le. lia. }
  fold (magnitude a) in *. fold S u2 in HM1, HM2.
  set (M := B2R (magnitude a)) in *.
  split; [exact HfM|]. split; [split|].
  - apply Rsqr_le_inv; [lra|]. nra.
  - apply Rsqr_le_inv; [lra|]. nra.
  - apply Rle_trans with (1 := HS1). apply Rmult_le_compat_r; lra.
Qed.

(** The quotient the code computes is at most one in magnitude, up to
    [2 n + 6] roundings. *)
Lemma cosine_spec_range (a b : list float) :
  length a = length b -> (length a <= 1024)%nat ->
  Forall (fun x => moderate x = true) a ->
  Forall (fun y => moderate y = true) b ->
  ~ zero_vector a -> ~ zero_vector b ->
  (abs (cosine_spec a b) <=? 1 + 0x1p-40) = true.
Proof.
  intros Hlen Hn Ha Hb Hza Hzb. pose proof eps_pos as Heps.
  destruct (magnitude_bound a Hn Ha Hza) as (HfA & [HA1 HA2] & HA3).
  destruct (magnitude_bound b ltac:(lia) Hb Hzb) as (HfB & [HB1 HB2] & HB3).
  rewrite <- Hlen in HB3.
  pose proof (bpow_pos 1000) as Hb0.
  assert (HI : (0 <= INR (length a) <= 1024)%R).
  { split; [apply pos_INR|]. rewrite INR_IZR_INZ. apply IZR_le. lia. }
  pose proof (bpow_add 10 1000 : powerRZ 2 1010 = (powerRZ 2 10 * powerRZ 2 1000)%R) as E1010.
  assert (E10 : powerRZ 2 10 = 1024%R) by (rewrite <- (IZR_pow2 10) by lia; reflexivity).
  pose proof (bpow_succ 1010 : powerRZ 2 1011 = (2 * powerRZ 2 1010)%R) as E1011.
  destruct finite_zero as [Hf0 H0].
  destruct (dot_from_bound a Ha b Hb 0 0%R 1) as (HfD & HD);
    rewrite ?H0, ?Rabs_R0; try assumption; try lra; try lia.
  { rewrite E1011, E1010, E10. nra. }
  fold (dot a b) in *. rewrite Rplus_0_l in HD.
  pose proof (cauchy_schwarz a b) as HCS.
  pose proof (R_abs_dot_nonneg a b) as HT.
  pose proof (R_sum_squares_nonneg a) as HRa.
  pose proof (R_sum_squares_nonneg b) as HRb.
  pose proof (pow_eps_2 (1 + length a) ltac:(lia)) as [HU1 HU2].
  pose proof (pow_eps_2 2 ltac:(lia)) as [Hu1 Hu2].
  set (U := ((1 + eps) ^ (1 + length a))%R) in *.
  set (u2 := ((1 + eps) ^ 2)%R) in *.
  set (T := R_abs_dot a b) in *.
  set (Ma := B2R (magnitude a)) in *. set (Mb := B2R (magnitude b)) in *.
  pose proof (bpow_pos (-501)) as Hp501. pose proof (bpow_pos 506) as Hp506.
  pose proof (bpow_add (-501) (-501)
              : powerRZ 2 (-1002) = (powerRZ 2 (-501) * powerRZ 2 (-501))%R) as Em1002.
  pose proof (bpow_add 506 506 : powerRZ 2 1012 = (powerRZ 2 506 * powerRZ 2 506)%R) as E506.
  assert (HMlo : (powerRZ 2 (-1002) <= Ma * Mb)%R)
    by (rewrite Em1002; apply Rmult_le_compat; lra).
  assert (HMhi : (Ma * Mb <= powerRZ 2 1012)%R)
    by (rewrite E506; apply Rmult_le_compat; lra).
  (* the product of the magnitudes *)
  destruct (mul_bound (magnitude a) (magnitude b)) as (HfP & _ & HP1 & HP2).
  { rewrite Rabs_pos_eq by (fold Ma; lra). fold Ma.
    apply Rle_trans with (2 := HA1). apply bpow_le. lia. }
  { rewrite Rabs_pos_eq by (fold Mb; lra). fold Mb.
    apply Rle_trans with (2 := HB1). apply bpow_le. lia. }
  { rewrite !Rabs_pos_eq by (fold Ma Mb; lra). fold Ma Mb. split.
    - apply Rle_trans with (2 := HMlo). apply bpow_le. lia.
    - apply Rle_lt_trans with (1 := HMhi). apply bpow_lt. lia. }
  fold Ma Mb in HP1, HP2. rewrite !Rabs_pos_eq in HP1 by lra.
  specialize (HP2 ltac:(nra)).
  rewrite (Rabs_pos_eq (B2R (magnitude a * magnitude b))) in HP1 by exact HP2.
  set (P := B2R (magnitude a * magnitude b)) in *.
  pose proof (bpow_pos (-1002)) as Hp1002.
  assert (HP0 : (0 < P)%R) by nra.
  (* the dot product against the product of the magnitudes *)
  assert (HuU : (0 <= u2 * U * U)%R)
    by (apply Rmult_le_pos; [apply Rmult_le_pos|]; lra).
  assert (HMM : (0 <= Ma * Mb)%R) by (apply Rmult_le_pos; lra).
  assert (HTM : (T <= Ma * Mb * u2 * U)%R).
  { apply Rsqr_le_inv;
      [apply Rmult_le_pos; [apply Rmult_le_pos|]; lra|].
    apply Rle_trans with (1 := HCS).
    replace (Ma * Mb * u2 * U * (Ma * Mb * u2 * U))%R
      with ((Ma * Ma * u2 * U) * (Mb * Mb * u2 * U))%R by ring.
    apply Rmult_le_compat; assumption. }
  assert (HW : ((1 + eps) * (u2 * U * U) = (1 + eps) ^ (2 * length a + 5))%R).
  { unfold u2, U. rewrite <- !pow_add. rewrite <- (pow_1 (1 + eps)) at 1.
    rewrite <- pow_add. f_equal. lia. }
  assert (HDP : (Rabs (B2R (dot a b)) <= P * (1 + eps) ^ (2 * length a + 5))%R).
  { apply Rle_trans with (1 := HD). rewrite <- HW.
    apply Rle_trans with (Ma * Mb * u2 * U * U)%R; [apply Rmult_le_compat_r; lra|].
    replace (P * ((1 + eps) * (u2 * U * U)))%R with (P * (1 + eps) * (u2 * U * U))%R by ring.
    replace (Ma * Mb * u2 * U * U)%R with (Ma * Mb * (u2 * U * U))%R by ring.
    apply Rmult_le_compat_r; [exact HuU | lra]. }
  pose proof (pow_eps_small (2 * length a + 5) ltac:(lia)) as [HW1 HW2].
  pose proof (pow_eps_small (2 * length a + 6) ltac:(lia)) as [HV1 HV2].
  assert (HV : ((1 + eps) ^ (2 * length a + 6)
                = (1 + eps) ^ (2 * length a + 5) * (1 + eps))%R).
  { replace (2 * length a + 6)%nat with (S (2 * length a + 5)) by lia.
    cbn [pow]. ring. }
  set (W := ((1 + eps) ^ (2 * length a + 5))%R) in *.
  assert (Hq : (Rabs (B2R (dot a b)) / P <= W)%R).
  { apply Rmult_le_reg_r with (1 := HP0). unfold Rdiv.
    rewrite Rmult_assoc, Rinv_l by lra. lra. }
  pose proof (bpow_le (-1074) (-52) ltac:(lia)) as Heta. rewrite <- eps_bpow in Heta.
  pose proof (bpow_pos (-1074)) as Heta0.
  assert (Heps1 : (eps <= / 4096)%R) by (unfold eps; lra).
  assert (Hbig : (8 <= powerRZ 2 971)%R).
  { apply Rle_trans with (powerRZ 2 3); [|apply bpow_le; lia].
    rewrite <- (IZR_pow2 3) by lia. apply IZR_le. reflexivity. }
  assert (Hq0 : (0 <= Rabs (B2R (dot a b)) / P)%R)
    by (apply Rmult_le_pos; [apply Rabs_pos | left; apply Rinv_0_lt_compat; lra]).
  unfold cosine_spec.
  destruct (div_bound (dot a b) (magnitude a * magnitude b) HfD HfP) as (Hfr & Hr).
  { fold P. rewrite Rabs_pos_eq; lra. }
  { fold P. rewrite (Rabs_pos_eq P) by lra. nra. }
  fold P in Hr. rewrite (Rabs_pos_eq P) in Hr by lra.
  apply leb_bound; [exact Hfr|].
  apply Rle_trans with (1 := Hr). nra.
Qed.

End Bounds.

(** ** Vector Math *)

Section VectorMath.

Local Open Scope float_scope.

Lemma reduce_from_no_index {A B : Type} (f : B -> A -> B) (arr : list A) :
  forall idx acc, reduce_from (fun acc a _ => f acc a) arr idx acc = fold_left f arr acc.
Proof.
  induction arr as [|a arr IH]; intros idx acc; cbn; [reflexivity | apply IH].
Qed.

Lemma reduce_sum_squares (a : list float) :
  reduce (fun sum x _ => sum + x * x) a 0 = sum_squares a.
Proof. apply (reduce_from_no_index (fun sum x => sum + x * x)). Qed.

(** Reading [vecB] by index while walking [vecA] pairs the components up,
    as long as [vecB] is not the shorter vector. *)
Lemma reduce_from_dot (a : list float) :
  forall (seen b : list float) (acc : float),
    (length a <= length b)%nat ->
    reduce_from (fun sum x idx => sum + x * at_index (seen ++ b) idx) a (length seen) acc
    = dot_from acc a b.
Proof.
  induction a as [|x a IH]; intros seen b acc Hlen; [reflexivity|].
  destruct b as [|y b]; [cbn in Hlen; lia|].
  cbn [reduce_from]. unfold dot_from. cbn [combine fold_left fst snd].
  unfold at_index at 2. rewrite app_nth2, Nat.sub_diag by lia. cbn [nth].
  specialize (IH (seen ++ [y]) b (acc + x * y)).
  rewrite <- app_assoc, length_app, Nat.add_1_r in IH. cbn [app] in IH.
  apply IH. cbn in Hlen. lia.
Qed.

(** On vectors of which the second is not the shorter, the code computes
    the quotient the specification names. *)
Lemma cosineSimilarity_cosine_spec (a b : list float) :
  (length a <= length b)%nat -> cosineSimilarity a b = cosine_spec a b.
Proof.
  intros Hlen. unfold cosineSimilarity, cosine_spec, magnitude, dot.
  rewrite !reduce_sum_squares. f_equal.
  exact (reduce_from_dot a [] b 0 Hlen).
Qed.

Lemma dot_from_comm (a : list float) :
  forall (b : list float) (acc : float), dot_from acc a b = dot_from acc b a.
Proof.
  unfold dot_from.
  induction a as [|x a IH]; intros [|y b] acc; cbn; try reflexivity.
  rewrite (F64.mul_comm x y). apply IH.
Qed.

Lemma dot_from_self (a : list float) :
  forall acc : float, dot_from acc a a = sum_squares_from acc a.
Proof.
  unfold dot_from, sum_squares_from.
  induction a as [|x a IH]; intros acc; cbn; [reflexivity | apply IH].
Qed.

Lemma cosine_spec_comm (a b : list float) : cosine_spec a b = cosine_spec b a.
Proof.
  unfold cosine_spec, dot.
  now rewrite (dot_from_comm a b), (F64.mul_comm (magnitude a)).
Qed.

(** *** Zero vectors *)

Lemma is_zero_zn (x : float) : is_zero x = true -> zn x.
Proof.
  unfold is_zero, zn. rewrite FloatAxioms.eqb_spec.
  change (Prim2SF zero) with (S754_zero false).
  destruct (Prim2SF x) as [s | s | | s m e]; cbn; try easy; now destruct s.
Qed.

Lemma zn_mul_l (x y : float) : zn x -> zn (x * y).
Proof. unfold zn. rewrite FloatAxioms.mul_spec. apply F64.SFmul_zero_or_nan_l. Qed.

Lemma zn_mul_r (x y : float) : zn y -> zn (x * y).
Proof. rewrite F64.mul_comm. apply zn_mul_l. Qed.

Lemma zn_add (x y : float) : zn x -> zn y -> zn (x + y).
Proof. unfold zn. rewrite FloatAxioms.add_spec. apply F64.SFadd_zero_or_nan. Qed.

Lemma zn_sqrt (x : float) : zn x -> zn (sqrt x).
Proof. unfold zn. rewrite FloatAxioms.sqrt_spec. apply F64.SFsqrt_zero_or_nan. Qed.

Lemma zn_div (x y : float) : zn x -> zn y -> is_nan (x / y) = true.
Proof.
  unfold zn. intros Hx Hy.
  now rewrite F64.is_nan_spec, FloatAxioms.div_spec, (F64.SFdiv_zero_or_nan _ _ Hx Hy).
Qed.

Lemma zn_zero : zn 0.
Proof. exact I. Qed.

Lemma zn_sum_squares (a : list float) :
  zero_vector a -> forall acc, zn acc -> zn (sum_squares_from acc a).
Proof.
  unfold sum_squares_from.
  induction 1 as [|x a Hx _ IH]; intros acc Hacc; cbn; [assumption|].
  apply IH, zn_add; [assumption|]. now apply zn_mul_l, is_zero_zn.
Qed.

Lemma zn_dot_l (a : list float) :
  zero_vector a -> forall b acc, zn acc -> zn (dot_from acc a b).
Proof.
  unfold dot_from.
  induction 1 as [|x a Hx _ IH]; intros [|y b] acc Hacc; cbn; try assumption.
  apply IH, zn_add; [assumption|]. now apply zn_mul_l, is_zero_zn.
Qed.

Lemma zn_dot_r (a b : list float) :
  zero_vector b -> forall acc, zn acc -> zn (dot_from acc a b).
Proof.
  intros Hb acc Hacc. rewrite dot_from_comm. now apply zn_dot_l.
Qed.

Lemma cosine_spec_zero_vector (a b : list float) :
  zero_vector a \/ zero_vector b -> is_nan (cosine_spec a b) = true.
Proof.
  unfold cosine_spec, magnitude, dot, sum_squares.
  intros [H | H]; apply zn_div.
  - apply zn_dot_l; [assumption | exact zn_zero].
  - apply zn_mul_l, zn_sqrt, zn_sum_squares; [assumption | exact zn_zero].
  - apply zn_dot_r; [assumption | exact zn_zero].
  - apply zn_mul_r, zn_sqrt, zn_sum_squares; [assumption | exact zn_zero].
Qed.

End VectorMath.

(** The similarity of a vector with itself is the rounded quotient
    [S / (sqrt S * sqrt S)] of its rounded sum of squares [S]. *)
Lemma cosineSimilarity_self (v : list float) :
  cosineSimilarity v v =
    (sum_squares v / (sqrt (sum_squares v) * sqrt (sum_squares v)))%float.
Proof.
  rewrite cosineSimilarity_cosine_spec by lia.
  unfold cosine_spec, magnitude, dot. now rewrite dot_from_self.
Qed.

(** C7 (as amended): for vectors [a] and [b] of equal length,
    [cosineSimilarity a b] and [cosineSimilarity b a] are the same number
    (NaN on both sides in the degenerate cases); and for a vector [v] whose
    rounded sum of squares [S] satisfies [2^-1022 <= S < 2^1020], the
    similarity of [v] with itself is within [2^-49] of 1. *)
Theorem cosineSimilarity_symmetric (a b v : list float) :
  (length a = length b -> cosineSimilarity a b = cosineSimilarity b a) /\
  ((0x1p-1022 <=? sum_squares v)%float = true ->
   (sum_squares v <? 0x1p+1020)%float = true ->
   (abs (cosineSimilarity v v - 1) <=? 0x1p-49)%float = true).
Proof.
  split.
  - intros Hlen. rewrite !cosineSimilarity_cosine_spec by lia. apply cosine_spec_comm.
  - intros Hlo Hhi. rewrite cosineSimilarity_self.
    now apply Rounding.self_quotient_near_one.
Qed.

Lemma cosineSimilarity_symmetric_witness :
  (length [1; 2]%float = length [3; 4]%float /\
   cosineSimilarity [1; 2]%float [3; 4]%float = cosineSimilarity [3; 4]%float [1; 2]%float) /\
  ((0x1p-1022 <=? sum_squares [1; 1; 1]%float)%float = true /\
   (sum_squares [1; 1; 1]%float <? 0x1p+1020)%float = true /\
   (abs (cosineSimilarity [1; 1; 1]%float [1; 1; 1]%float - 1) <=? 0x1p-49)%float = true).
Proof.
  pose proof (cosineSimilarity_symmetric [1; 2]%float [3; 4]%float [1; 1; 1]%float)
    as [Hsym Hself].
  split.
  - split; [reflexivity | exact (Hsym eq_refl)].
  - split; [reflexivity|]. split; [reflexivity|]. exact (Hself eq_refl eq_refl).
Defined.

(** C7 fails as stated: the vector [[2^600]] has a nonzero magnitude, yet
    its sum of squares overflows and the similarity with itself is NaN, which
    is within no tolerance of 1. *)
Lemma cosineSimilarity_self_overflow :
  is_nan (cosineSimilarity [0x1p+600]%float [0x1p+600]%float) = true /\
  is_zero (magnitude [0x1p+600]%float) = false /\
  (abs (cosineSimilarity [0x1p+600]%float [0x1p+600]%float - 1) <=? 1)%float = false.
Proof. vm_compute. auto. Qed.

(** C8 (as amended): for vectors of equal length the result is the quotient
    [dot(a,b) / (|a| * |b|)] with every operation rounded to binary64, and it
    is NaN when either vector is a zero vector.  When the vectors have at
    most 1024 components, each of them zero or of a magnitude between
    [2^-500] and [2^500], and neither is a zero vector, the result lies in
    [[-1, 1]] up to rounding error: its magnitude is at most [1 + 2^-40]. *)
Theorem cosineSimilarity_quotient (a b : list float) :
  length a = length b ->
  cosineSimilarity a b = (dot a b / (magnitude a * magnitude b))%float /\
  (zero_vector a \/ zero_vector b -> is_nan (cosineSimilarity a b) = true) /\
  ((length a <= 1024)%nat ->
   Forall (fun x => moderate x = true) a ->
   Forall (fun y => moderate y = true) b ->
   ~ zero_vector a -> ~ zero_vector b ->
   (abs (cosineSimilarity a b) <=? 1 + 0x1p-40)%float = true).
Proof.
  intros Hlen. rewrite cosineSimilarity_cosine_spec by lia.
  split; [reflexivity|]. split; [apply cosine_spec_zero_vector|].
  intros Hn Ha Hb Hza Hzb. now apply Bounds.cosine_spec_range.
Qed.

Lemma cosineSimilarity_quotient_witness :
  (length [0; 0]%float = length [1; 2]%float /\
   zero_vector [0; 0]%float /\
   is_nan (cosineSimilarity [0; 0]%float [1; 2]%float) = true) /\
  (length [1; -2]%float = length [3; 4]%float /\
   (length [1; -2]%float <= 1024)%nat /\
   Forall (fun x => moderate x = true) [1; -2]%float /\
   Forall (fun y => moderate y = true) [3; 4]%float /\
   ~ zero_vector [1; -2]%float /\ ~ zero_vector [3; 4]%float /\
   (abs (cosineSimilarity [1; -2]%float [3; 4]%float) <=? 1 + 0x1p-40)%float = true).
Proof.
  split.
  - split; [reflexivity|].
    assert (Hz : zero_vector [0; 0]%float) by (repeat constructor).
    split; [exact Hz|].
    exact (proj1 (proj2 (cosineSimilarity_quotient [0; 0]%float [1; 2]%float eq_refl))
             (or_introl Hz)).
  - assert (Hn : (length [1; -2]%float <= 1024)%nat) by (cbn; lia).
    assert (Ha : Forall (fun x => moderate x = true) [1; -2]%float)
      by (repeat constructor).
    assert (Hb : Forall (fun y => moderate y = true) [3; 4]%float)
      by (repeat constructor).
    assert (Hza : ~ zero_vector [1; -2]%float)
      by (intros H; inversion H as [|x l Hx Hl]; discriminate Hx).
    assert (Hzb : ~ zero_vector [3; 4]%float)
      by (intros H; inversion H as [|x l Hx Hl]; discriminate Hx).
    split; [reflexivity|]. repeat (split; [assumption|]).
    exact (proj2 (proj2 (cosineSimilarity_quotient [1; -2]%float [3; 4]%float eq_refl))
             Hn Ha Hb Hza Hzb).
Defined.

(** C8 fails as stated: both vectors have a nonzero magnitude and the
    rounded quotient is above 1. *)
Lemma cosineSimilarity_above_one :
  (1 <? cosineSimilarity [1; 1; 1]%float [1; 1; 1]%float)%float = true /\
  is_zero (magnitude [1; 1; 1]%float) = false.
Proof. vm_compute. auto. Qed.

(** Below the range of the components named in C8 the bound is lost: the
    square of [0x1.388p-537] is rounded to a number with few bits, and the
    quotient is above 1.125. *)
Lemma cosineSimilarity_underflow_above_one :
  (1.125 <? cosineSimilarity [0x1.388p-537]%float [1]%float)%float = true /\
  moderate 0x1.388p-537 = false.
Proof. vm_compute. auto. Qed.

(** ** Arrays *)

Section Arrays.

Context {A : Type}.

Lemma sort_insert_Permutation (comparefn : A -> A -> float) (a : A) (l : list A) :
  Permutation (sort_insert comparefn a l) (a :: l).
Proof.
  induction l as [|b l IH]; cbn [sort_insert]; [reflexivity|].
  destruct (sorts_after comparefn a b); [|reflexivity].
  rewrite IH. apply perm_swap.
Qed.

Lemma Array_sort_Permutation (comparefn : A -> A -> float) (l : list A) :
  Permutation (Array_sort comparefn l) l.
Proof.
  induction l as [|a l IH]; cbn [Array_sort fold_right]; [reflexivity|].
  fold (Array_sort comparefn l).
  rewrite sort_insert_Permutation. now constructor.
Qed.

Lemma Array_sort_length (comparefn : A -> A -> float) (l : list A) :
  length (Array_sort comparefn l) = length l.
Proof. apply Permutation_length, Array_sort_Permutation. Qed.

(** A slice from index 0 is a prefix. *)
Lemma Array_slice_prefix (l : list A) (k : Z) :
  Array_slice l 0 k = firstn (Z.to_nat (relative_index (Z.of_nat (length l)) k)) l.
Proof.
  unfold Array_slice. cbn [relative_index Z.ltb Z.compare].
  replace (Z.min 0 (Z.of_nat (length l))) with 0%Z by lia.
  cbn [Z.to_nat skipn]. now rewrite Z.sub_0_r.
Qed.

Lemma Array_slice_length (l : list A) (k : Z) :
  (0 <= k)%Z ->
  Z.of_nat (length (Array_slice l 0 k)) = Z.min k (Z.of_nat (length l)).
Proof.
  intros Hk. rewrite Array_slice_prefix, length_firstn. unfold relative_index.
  destruct (Z.ltb_spec k 0); lia.
Qed.

Lemma Array_slice_all (l : list A) (k : Z) :
  (Z.of_nat (length l) <= k)%Z -> Array_slice l 0 k = l.
Proof.
  intros Hk. rewrite Array_slice_prefix. apply firstn_all2. unfold relative_index.
  destruct (Z.ltb_spec k 0); lia.
Qed.

Lemma StronglySorted_firstn (R : A -> A -> Prop) (n : nat) (l : list A) :
  StronglySorted R l -> StronglySorted R (firstn n l).
Proof.
  intros H. revert n. induction H as [|a l Hl IH Ha]; intros [|n]; cbn; try constructor.
  - apply IH.
  - apply Forall_forall. intros x Hx%(subseteq_take n l).
    eapply Forall_forall in Ha; eassumption.
Qed.

End Arrays.

(** Sorting commutes with a map the comparator looks through. *)
Lemma Array_sort_map {A B : Type} (f : A -> B) (comparefn : B -> B -> float) (l : list A) :
  Array_sort comparefn (map f l) = map f (Array_sort (fun a b => comparefn (f a) (f b)) l).
Proof.
  induction l as [|a l IH]; [reflexivity|].
  cbn [map Array_sort fold_right].
  fold (Array_sort comparefn (map f l)).
  fold (Array_sort (fun a b => comparefn (f a) (f b)) l).
  rewrite IH. clear IH.
  induction (Array_sort (fun a b => comparefn (f a) (f b)) l) as [|b s IHs];
    [reflexivity|].
  cbn [map sort_insert]. unfold sorts_after.
  destruct (0 <? comparefn (f a) (f b))%float; cbn [map];
    [now rewrite IHs | reflexivity].
Qed.

Lemma Array_slice_map {A B : Type} (f : A -> B) (l : list A) (k : Z) :
  Array_slice (map f l) 0 k = map f (Array_slice l 0 k).
Proof. now rewrite !Array_slice_prefix, length_map, firstn_map. Qed.

(** ** Retriever *)

Section Retriever.

Variable queryEmbedding : list float.

Lemma sorts_after_by_score (a b : Scored) :
  is_number a -> is_number b ->
  sorts_after by_score a b = (score a <? score b)%float.
Proof. intros Ha Hb. unfold sorts_after, by_score. now apply F64.sub_pos. Qed.

Lemma sort_insert_sorted (a : Scored) (l : list Scored) :
  is_number a -> Forall is_number l ->
  StronglySorted score_ge l -> StronglySorted score_ge (sort_insert by_score a l).
Proof.
  intros Ha Hl Hs. induction Hs as [|b l Hs IH Hb]; cbn [sort_insert].
  - repeat constructor.
  - apply Forall_cons in Hl as [Nb Nl].
    rewrite sorts_after_by_score by assumption.
    destruct (score a <? score b)%float eqn:Hlt.
    + constructor; [now apply IH|].
      rewrite (sort_insert_Permutation by_score a l).
      constructor; [now apply F64.ltb_leb | assumption].
    + assert (Hab : score_ge a b) by (now apply F64.ltb_false_leb).
      constructor; [now constructor|].
      constructor; [assumption|].
      eapply Forall_impl; [exact Hb|].
      intros c Hbc. unfold score_ge in *. eapply F64.leb_trans; eassumption.
Qed.

Lemma Array_sort_sorted (l : list Scored) :
  Forall is_number l -> StronglySorted score_ge (Array_sort by_score l).
Proof.
  induction l as [|a l IH]; intros Hl; [constructor|].
  cbn [Array_sort fold_right]. fold (Array_sort by_score l).
  apply Forall_cons in Hl as [Na Nl].
  apply sort_insert_sorted; auto.
  now rewrite (Array_sort_Permutation by_score l).
Qed.

(** [getTopKDocuments] sorts the documents themselves, by [score_of]. *)
Lemma getTopKDocuments_sort (documents : list EmbeddedDocument) (k : Z) :
  getTopKDocuments queryEmbedding documents k =
  Array_slice (Array_sort (by_score_of queryEmbedding) documents) 0 k.
Proof.
  unfold getTopKDocuments.
  rewrite (Array_sort_map (similarity queryEmbedding) by_score).
  rewrite Array_slice_map, map_map. cbn [doc similarity]. apply map_id.
Qed.

Lemma getTopKDocuments_scored (documents : list EmbeddedDocument) (k : Z) :
  map (similarity queryEmbedding) (getTopKDocuments queryEmbedding documents k) =
  Array_slice (Array_sort by_score (map (similarity queryEmbedding) documents)) 0 k.
Proof.
  rewrite getTopKDocuments_sort, <- Array_slice_map. f_equal.
  now rewrite (Array_sort_map (similarity queryEmbedding) by_score).
Qed.

Lemma getTopKDocuments_length (documents : list EmbeddedDocument) (k : Z) :
  (0 <= k)%Z ->
  Z.of_nat (length (getTopKDocuments queryEmbedding documents k)) =
  Z.min k (Z.of_nat (length documents)).
Proof.
  intros Hk. rewrite getTopKDocuments_sort, Array_slice_length by assumption.
  now rewrite Array_sort_length.
Qed.

Lemma getTopKDocuments_descending (documents : list EmbeddedDocument) (k : Z) :
  all_scores_numbers queryEmbedding documents ->
  descending queryEmbedding (getTopKDocuments queryEmbedding documents k).
Proof.
  intros Hn. unfold descending.
  assert (Hs : StronglySorted score_ge
                 (map (similarity queryEmbedding)
                    (getTopKDocuments queryEmbedding documents k))).
  { rewrite getTopKDocuments_scored, Array_slice_prefix.
    apply StronglySorted_firstn, Array_sort_sorted.
    exact (proj2 (List.Forall_map (similarity queryEmbedding) is_number documents) Hn). }
  revert Hs. generalize (getTopKDocuments queryEmbedding documents k).
  induction l as [|d l IH]; cbn [map]; intros Hs; [constructor|].
  apply StronglySorted_inv in Hs as [Hs Hd].
  constructor; [now apply IH|].
  exact (proj1 (List.Forall_map (similarity queryEmbedding) _ l) Hd).
Qed.

Lemma getTopKDocuments_all (documents : list EmbeddedDocument) (k : Z) :
  (Z.of_nat (length documents) <= k)%Z ->
  Permutation documents (getTopKDocuments queryEmbedding documents k).
Proof.
  intros Hk. rewrite getTopKDocuments_sort, Array_slice_all.
  - symmetry. apply Array_sort_Permutation.
  - now rewrite Array_sort_length.
Qed.

End Retriever.

(** C1 (as amended): for every query vector, corpus and integer [k >= 0],
    [getTopKDocuments] returns at most [min(k, corpus size)] documents, and
    when no similarity score is NaN the returned sequence is ordered by
    non-increasing score. *)
Theorem getTopKDocuments_at_most_k (q : list float) (documents : list EmbeddedDocument) (k : Z) :
  (0 <= k)%Z ->
  (Z.of_nat (length (getTopKDocuments q documents k))
     <= Z.min k (Z.of_nat (length documents)))%Z /\
  (all_scores_numbers q documents -> descending q (getTopKDocuments q documents k)).
Proof.
  intros Hk. split.
  - rewrite getTopKDocuments_length by assumption. lia.
  - apply getTopKDocuments_descending.
Qed.

Lemma sample_scores_numbers : all_scores_numbers Sample.query Sample.corpus.
Proof. repeat constructor. Qed.

Lemma getTopKDocuments_at_most_k_witness :
  (0 <= 2)%Z /\
  all_scores_numbers Sample.query Sample.corpus /\
  descending Sample.query (getTopKDocuments Sample.query Sample.corpus 2).
Proof.
  assert (Hk : (0 <= 2)%Z) by lia.
  split; [exact Hk|]. split; [exact sample_scores_numbers|].
  exact (proj2 (getTopKDocuments_at_most_k Sample.query Sample.corpus 2 Hk)
           sample_scores_numbers).
Defined.

(** C1 fails as stated.  With a document whose score is NaN between them, a
    lower score stays ahead of a higher one; and for [k = -1] the call
    returns one of two documents, more than [min(k, 2)]. *)
Lemma getTopKDocuments_nan_not_descending :
  getTopKDocuments Sample.query [Sample.diagonal; Sample.blank; Sample.aligned_doc] 3
    = [Sample.diagonal; Sample.blank; Sample.aligned_doc] /\
  is_nan (score_of Sample.query Sample.blank) = true /\
  (score_of Sample.query Sample.diagonal <? score_of Sample.query Sample.aligned_doc)%float
    = true /\
  ~ descending Sample.query
      (getTopKDocuments Sample.query [Sample.diagonal; Sample.blank; Sample.aligned_doc] 3) /\
  (Z.min (-1) 2 <
   Z.of_nat (length (getTopKDocuments Sample.query
                       [Sample.diagonal; Sample.aligned_doc] (-1))))%Z.
Proof.
  split; [reflexivity|]. split; [reflexivity|]. split; [reflexivity|]. split.
  - intros H. unfold descending in H.
    apply StronglySorted_inv in H as [_ H].
    apply Forall_cons in H as [H _]. discriminate H.
  - vm_compute. reflexivity.
Qed.

(** C2 (as amended): for every query vector and corpus, when [k] is at least
    the corpus size [getTopKDocuments] returns every document of the corpus
    exactly once, and when no similarity score is NaN the result is ordered
    by non-increasing score. *)
Theorem getTopKDocuments_whole_corpus (q : list float) (documents : list EmbeddedDocument) (k : Z) :
  (Z.of_nat (length documents) <= k)%Z ->
  Permutation documents (getTopKDocuments q documents k) /\
  (all_scores_numbers q documents -> descending q (getTopKDocuments q documents k)).
Proof.
  intros Hk. split.
  - now apply getTopKDocuments_all.
  - apply getTopKDocuments_descending.
Qed.

Lemma getTopKDocuments_whole_corpus_witness :
  (Z.of_nat (length Sample.corpus) <= 10)%Z /\
  Permutation Sample.corpus (getTopKDocuments Sample.query Sample.corpus 10) /\
  descending Sample.query (getTopKDocuments Sample.query Sample.corpus 10).
Proof.
  assert (Hk : (Z.of_nat (length Sample.corpus) <= 10)%Z) by (cbn; lia).
  split; [exact Hk|]. split.
  - exact (proj1 (getTopKDocuments_whole_corpus Sample.query Sample.corpus 10 Hk)).
  - exact (proj2 (getTopKDocuments_whole_corpus Sample.query Sample.corpus 10 Hk)
             sample_scores_numbers).
Defined.

(** C2 fails as stated.  The embedding of [short] has another dimension than
    the query, its score is NaN, and the whole corpus comes back with a lower
    score ahead of a higher one. *)
Lemma getTopKDocuments_whole_corpus_not_descending :
  (Z.of_nat (length [Sample.orthogonal; Sample.short; Sample.slanted]) <= 5)%Z /\
  getTopKDocuments Sample.query [Sample.orthogonal; Sample.short; Sample.slanted] 5
    = [Sample.orthogonal; Sample.short; Sample.slanted] /\
  is_nan (score_of Sample.query Sample.short) = true /\
  (score_of Sample.query Sample.orthogonal <? score_of Sample.query Sample.slanted)%float
    = true /\
  ~ descending Sample.query
      (getTopKDocuments Sample.query [Sample.orthogonal; Sample.short; Sample.slanted] 5).
Proof.
  split; [cbn; lia|]. split; [reflexivity|]. split; [reflexivity|]. split; [reflexivity|].
  intros H. unfold descending in H.
  apply StronglySorted_inv in H as [_ H].
  apply Forall_cons in H as [_ H]. apply Forall_cons in H as [H _]. discriminate H.
Qed.

(** *** Where the returned documents come from *)

(** The corpus with the position of each document. *)
Lemma combine_seq_lookup {A : Type} (l : list A) :
  forall seen : list A,
    Forall (fun p => (seen ++ l) !! fst p = Some (snd p))
      (combine (seq (length seen) (length l)) l) /\
    map snd (combine (seq (length seen) (length l)) l) = l /\
    map fst (combine (seq (length seen) (length l)) l) = seq (length seen) (length l).
Proof.
  induction l as [|a l IH]; intros seen; cbn [length seq combine map].
  - repeat split. constructor.
  - specialize (IH (seen ++ [a])).
    rewrite <- app_assoc, length_app, Nat.add_1_r in IH. cbn [app] in IH.
    destruct IH as (IH1 & IH2 & IH3). repeat split.
    + constructor; [|exact IH1]. cbn [fst snd].
      rewrite lookup_app_r, Nat.sub_diag by lia. reflexivity.
    + now rewrite IH2.
    + now rewrite IH3.
Qed.

Lemma Forall_positions {A : Type} (corpus : list A) (tagged : list (nat * A)) :
  Forall (fun p => corpus !! fst p = Some (snd p)) tagged ->
  Forall2 (fun i d => corpus !! i = Some d) (map fst tagged) (map snd tagged).
Proof. induction 1; cbn [map]; constructor; assumption. Qed.

(** Every returned document is the document at some position of the corpus,
    and no position is used twice. *)
Lemma getTopKDocuments_positions (q : list float) (corpus : list EmbeddedDocument) (k : Z) :
  exists positions : list nat,
    NoDup positions /\
    Forall2 (fun i d => corpus !! i = Some d) positions (getTopKDocuments q corpus k).
Proof.
  destruct (combine_seq_lookup corpus []) as (Hlook & Hsnd & Hfst).
  cbn [length app] in Hlook, Hsnd, Hfst.
  set (tagged := combine (seq 0 (length corpus)) corpus) in *.
  set (sorted := Array_sort (fun a b => by_score_of q (snd a) (snd b)) tagged).
  assert (Hperm : Permutation sorted tagged) by apply Array_sort_Permutation.
  exists (map fst (Array_slice sorted 0 k)).
  assert (Hres : getTopKDocuments q corpus k = map snd (Array_slice sorted 0 k)).
  { rewrite getTopKDocuments_sort, <- Hsnd at 1.
    now rewrite (Array_sort_map snd (by_score_of q)), Array_slice_map. }
  rewrite Hres, Array_slice_prefix. split.
  - rewrite <- firstn_map.
    eapply sublist_NoDup; [|apply sublist_take].
    rewrite Hperm, Hfst. apply NoDup_seq.
  - apply Forall_positions, Forall_take. now rewrite Hperm.
Qed.

Lemma getTopKDocuments_empty (q : list float) (k : Z) : getTopKDocuments q [] k = [].
Proof. unfold getTopKDocuments, Array_slice. cbn. now rewrite firstn_nil. Qed.

(** *** The call on a store *)

Lemma alloc_fresh (a : array) (s : gmap loc array) :
  (fst (alloc a s) ∉ dom s) /\
  (snd (alloc a s) !! fst (alloc a s) = Some a) /\
  (forall l, l ∈ dom s -> snd (alloc a s) !! l = s !! l) /\
  (dom s ⊆ dom (snd (alloc a s))).
Proof.
  unfold alloc. cbn [fst snd].
  pose proof (is_fresh (dom s)) as Hfresh.
  repeat split.
  - exact Hfresh.
  - apply lookup_insert_eq.
  - intros l Hl. apply lookup_insert_ne. intros Heq. now rewrite Heq in Hfresh.
  - rewrite dom_insert. set_solver.
Qed.

(** The call returns a new array that holds the documents
    [getTopKDocuments] computes, and every array the store held before the
    call still holds what it held. *)
Lemma getTopKDocuments_store_frame (q : list float) (documents : loc) (k : Z)
    (s : gmap loc array) (corpus : list EmbeddedDocument) :
  s !! documents = Some (DocArray corpus) ->
  exists (result : loc) (s' : gmap loc array),
    getTopKDocuments_store q documents k s = Some (result, s') /\
    (result ∉ dom s) /\
    (s' !! result = Some (DocArray (getTopKDocuments q corpus k))) /\
    (forall l, l ∈ dom s -> s' !! l = s !! l).
Proof.
  intros Hdocs. unfold getTopKDocuments_store. rewrite Hdocs.
  set (sims := map (similarity q) corpus).
  destruct (alloc_fresh (ScoredArray sims) s) as (F1 & L1 & K1 & D1).
  destruct (alloc (ScoredArray sims) s) as [l1 s1]. cbn [fst snd] in *.
  rewrite L1.
  set (s2 := <[l1 := ScoredArray (Array_sort by_score sims)]> s1).
  assert (L2 : s2 !! l1 = Some (ScoredArray (Array_sort by_score sims)))
    by apply lookup_insert_eq.
  assert (D2 : dom s ⊆ dom s2) by (unfold s2; rewrite dom_insert; set_solver).
  assert (K2 : forall l, l ∈ dom s -> s2 !! l = s !! l).
  { intros l Hl. unfold s2. rewrite lookup_insert_ne; [now apply K1|].
    intros Heq. now rewrite Heq in F1. }
  rewrite L2.
  set (cut := Array_slice (Array_sort by_score sims) 0 k).
  destruct (alloc_fresh (ScoredArray cut) s2) as (F3 & L3 & K3 & D3).
  destruct (alloc (ScoredArray cut) s2) as [l3 s3]. cbn [fst snd] in *.
  rewrite L3.
  destruct (alloc_fresh (DocArray (map doc cut)) s3) as (F4 & L4 & K4 & D4).
  destruct (alloc (DocArray (map doc cut)) s3) as [l4 s4]. cbn [fst snd] in *.
  exists l4, s4. repeat split.
  - set_solver.
  - exact L4.
  - intros l Hl. rewrite K4, K3, K2; set_solver.
Qed.

(** C10: every document [getTopKDocuments] returns is the document at some
    position of the corpus, no position is used twice, the array that holds
    the corpus (and every other array of the store) is left as it was, and on
    an empty corpus the result is empty.  This holds for every integer [k]. *)
Theorem getTopKDocuments_selects_from_corpus (q : list float) (documents : loc) (k : Z)
    (s : gmap loc array) (corpus : list EmbeddedDocument) :
  s !! documents = Some (DocArray corpus) ->
  exists (result : loc) (s' : gmap loc array) (positions : list nat),
    getTopKDocuments_store q documents k s = Some (result, s') /\
    s' !! result = Some (DocArray (getTopKDocuments q corpus k)) /\
    NoDup positions /\
    Forall2 (fun i d => corpus !! i = Some d) positions (getTopKDocuments q corpus k) /\
    s' !! documents = Some (DocArray corpus) /\
    (forall l, l ∈ dom s -> s' !! l = s !! l) /\
    (corpus = [] -> getTopKDocuments q corpus k = []).
Proof.
  intros Hdocs.
  destruct (getTopKDocuments_store_frame q documents k s corpus Hdocs)
    as (result & s' & Hrun & _ & Hres & Hframe).
  destruct (getTopKDocuments_positions q corpus k) as (positions & Hnodup & Hpos).
  exists result, s', positions. repeat split; try assumption.
  - rewrite Hframe; [assumption|]. apply elem_of_dom. now exists (DocArray corpus).
  - intros ->. apply getTopKDocuments_empty.
Qed.

Lemma getTopKDocuments_selects_from_corpus_witness :
  ({[7%nat := DocArray Sample.corpus]} : gmap loc array) !! 7%nat
    = Some (DocArray Sample.corpus) /\
  exists (result : loc) (s' : gmap loc array) (positions : list nat),
    getTopKDocuments_store Sample.query 7%nat 2 {[7%nat := DocArray Sample.corpus]}
      = Some (result, s') /\
    s' !! result
      = Some (DocArray (getTopKDocuments Sample.query Sample.corpus 2)) /\
    NoDup positions /\
    Forall2 (fun i d => Sample.corpus !! i = Some d) positions
      (getTopKDocuments Sample.query Sample.corpus 2) /\
    s' !! 7%nat = Some (DocArray Sample.corpus) /\
    (forall l, l ∈ dom ({[7%nat := DocArray Sample.corpus]} : gmap loc array) ->
       s' !! l = ({[7%nat := DocArray Sample.corpus]} : gmap loc array) !! l) /\
    (Sample.corpus = [] -> getTopKDocuments Sample.query Sample.corpus 2 = []).
Proof.
  assert (H : ({[7%nat := DocArray Sample.corpus]} : gmap loc array) !! 7%nat
              = Some (DocArray Sample.corpus)) by reflexivity.
  split; [exact H|].
  exact (getTopKDocuments_selects_from_corpus Sample.query 7%nat 2
           {[7%nat := DocArray Sample.corpus]} Sample.corpus H).
Defined.

(** ** Document Store *)

Lemma documents_of_cons (w : World) (file : string) (rest : list string) :
  documents_of w (file :: rest) =
  match readable w file with
  | Some content => make_document file content :: documents_of w rest
  | None => documents_of w rest
  end.
Proof. unfold documents_of. cbn [omap list_omap]. now destruct (readable w file). Qed.

Lemma read_failures_cons (w : World) (file : string) (rest : list string) :
  read_failures w (file :: rest) =
  match read_error w file with
  | Some err =>
      Console "error" [Text ("Error reading " +:+ file +:+ ":"); Err err]
        :: read_failures w rest
  | None => read_failures w rest
  end.
Proof. unfold read_failures. cbn [omap list_omap]. now destruct (read_error w file). Qed.

Lemma load_each_run (files : list string) :
  forall (documents : list Document) (w : World),
    load_each files documents w =
    (Normal (documents ++ documents_of w files),
     {| fs := fs w; trace := trace w ++ read_failures w files |}).
Proof.
  induction files as [|file rest IH]; intros documents [f t].
  - cbn. now rewrite !app_nil_r.
  - rewrite documents_of_cons, read_failures_cons.
    unfold readable, read_error. cbn [load_each]. run_io.
    destruct (f !! file) as [[content|]|] eqn:Hfile;
      rewrite IH; cbn [fs trace]; now rewrite <- app_assoc.
Qed.

Lemma documents_of_length (w : World) (files : list string) :
  length (documents_of w files) = length (List.filter (can_read w) files).
Proof.
  induction files as [|file rest IH]; [reflexivity|].
  rewrite documents_of_cons. cbn [List.filter]. unfold can_read at 1.
  destruct (readable w file); cbn [length]; now rewrite IH.
Qed.

Lemma read_failures_length (w : World) (files : list string) :
  length (read_failures w files) =
  length (List.filter (fun file => negb (can_read w file)) files).
Proof.
  induction files as [|file rest IH]; [reflexivity|].
  rewrite read_failures_cons. cbn [List.filter].
  unfold can_read at 1, readable, read_error.
  destruct (fs w !! file) as [[content|]|]; cbn [length negb]; now rewrite IH.
Qed.

(** C4: for every list of paths and every state of the file system,
    [loadDocuments] does not throw; it returns one document for each path
    that can be read, in the order of the paths, and writes one error line
    to the console for each path that cannot. *)
Theorem loadDocuments_skips_unreadable (files : list string) (w : World) :
  fst (loadDocuments_from files w) = Normal (documents_of w files) /\
  length (documents_of w files) = length (List.filter (can_read w) files) /\
  events_of (loadDocuments_from files) w =
    read_failures w files ++
    [Console "log" [Text "Loaded ";
                    Num (number_of_nat (length (documents_of w files)));
                    Text " documents"]] /\
  length (read_failures w files) =
    length (List.filter (fun file => negb (can_read w file)) files) /\
  fs (snd (loadDocuments_from files w)) = fs w.
Proof.
  unfold events_of, loadDocuments_from. unfold bind at 1 3 5. rewrite load_each_run.
  cbn [app]. unfold bind, console_log, emit, ret. cbn [fst snd fs trace].
  repeat split.
  - apply documents_of_length.
  - now rewrite <- app_assoc, skipn_app, skipn_all, Nat.sub_diag.
  - apply read_failures_length.
Qed.

(** Two files that can be read and one that is missing: two documents. *)
Lemma loadDocuments_two_of_three :
  fst (loadDocuments_from Sample.three_paths Sample.two_files) =
  Normal [ {| id := "emma";
              data := {| title := "Emma";
                         snippet := "Emma Woodhouse, handsome, clever, and rich." |} |};
           {| id := "persuasion_notes";
              data := {| title := "Persuasion Notes"; snippet := "Anne Elliot." |} |} ].
Proof. vm_compute. reflexivity. Qed.

(** ** Embedding Cache *)

Lemma JSON_number_exact (x : float) : JSON_exact x -> JSON_number x = JNum x.
Proof.
  intros (Hnan & Hinf & Hzero). unfold JSON_number. rewrite Hnan, Hinf. cbn [orb].
  destruct (is_zero x); [now rewrite Hzero | reflexivity].
Qed.

Lemma loaded_image_exact (d : EmbeddedDocument) :
  Forall JSON_exact (embedding d) -> loaded_image d = as_loaded d.
Proof.
  intros Hexact. unfold loaded_image, as_loaded. do 3 f_equal.
  induction Hexact as [|x e Hx _ IH]; cbn [map]; [reflexivity|].
  now rewrite IH, JSON_number_exact.
Qed.

Lemma map_loaded_image_exact (documents : list EmbeddedDocument) :
  Forall (fun d => Forall JSON_exact (embedding d)) documents ->
  map loaded_image documents = map as_loaded documents.
Proof.
  induction 1 as [|d documents Hd _ IH]; cbn [map]; [reflexivity|].
  now rewrite IH, loaded_image_exact.
Qed.

Lemma loaded_document_image (d : EmbeddedDocument) :
  loaded_document (JSON_image (cache_record d)) = Normal (loaded_image d).
Proof.
  unfold loaded_image. cbn. now rewrite map_map.
Qed.

Lemma map_completion_image (documents : list EmbeddedDocument) :
  map_completion loaded_document (map JSON_image (map cache_record documents)) =
  Normal (map loaded_image documents).
Proof.
  induction documents as [|d documents IH]; [reflexivity|].
  cbn [map map_completion]. rewrite loaded_document_image, IH. reflexivity.
Qed.

Lemma saveEmbeddingsToFile_run (JSON : JSONLib) (documents : list EmbeddedDocument) (w : World) :
  fs w !! EMBEDDINGS_FILE <> Some Directory ->
  saveEmbeddingsToFile JSON documents w = (Normal tt, saved JSON documents w).
Proof.
  intros Hfile. unfold saveEmbeddingsToFile, saved. run_io.
  destruct (fs w !! EMBEDDINGS_FILE) as [[content|]|]; try reflexivity.
  now contradict Hfile.
Qed.

Lemma loadEmbeddingsFromFile_saved (JSON : JSONLib) (documents : list EmbeddedDocument)
    (w : World) :
  reads_back JSON (JArr (map cache_record documents)) ->
  fst (loadEmbeddingsFromFile JSON (saved JSON documents w)) =
  Normal (Some (map loaded_image documents)).
Proof.
  intros Hback. unfold loadEmbeddingsFromFile, saved. run_io.
  rewrite lookup_insert_eq, Hback. cbn [JSON_image length_property map_loaded].
  rewrite map_completion_image. reflexivity.
Qed.

Lemma saveEmbeddingsToFile_then_load_general (JSON : JSONLib)
    (documents : list EmbeddedDocument) (w : World) :
  reads_back JSON (JArr (map cache_record documents)) ->
  fs w !! EMBEDDINGS_FILE <> Some Directory ->
  fst (saveEmbeddingsToFile JSON documents w) = Normal tt /\
  fst (loadEmbeddingsFromFile JSON (snd (saveEmbeddingsToFile JSON documents w))) =
    Normal (Some (map loaded_image documents)).
Proof.
  intros Hback Hfile. rewrite saveEmbeddingsToFile_run by assumption. cbn [fst snd].
  rewrite loadEmbeddingsFromFile_saved by assumption. auto.
Qed.

(** C3 (as amended): when the [JSON] object reads back what it writes for
    the corpus and the cache file can be written, saving a corpus and
    loading it again yields, in the same order, documents with the same
    [id], [title] and [snippet] and with the [embedding] JSON text keeps;
    the tuples are identical when every embedding component is a finite
    number other than [-0]. *)
Theorem saveEmbeddingsToFile_then_load (JSON : JSONLib) (documents : list EmbeddedDocument)
    (w : World) :
  reads_back JSON (JArr (map cache_record documents)) ->
  fs w !! EMBEDDINGS_FILE <> Some Directory ->
  fst (saveEmbeddingsToFile JSON documents w) = Normal tt /\
  fst (loadEmbeddingsFromFile JSON (snd (saveEmbeddingsToFile JSON documents w))) =
    Normal (Some (map loaded_image documents)) /\
  (Forall (fun d => Forall JSON_exact (embedding d)) documents ->
   fst (loadEmbeddingsFromFile JSON (snd (saveEmbeddingsToFile JSON documents w))) =
     Normal (Some (map as_loaded documents))).
Proof.
  intros Hback Hfile. rewrite saveEmbeddingsToFile_run by assumption. cbn [fst snd].
  rewrite loadEmbeddingsFromFile_saved by assumption.
  split; [reflexivity|]. split; [reflexivity|].
  intros Hexact. now rewrite map_loaded_image_exact.
Qed.

Lemma sample_reads_back :
  reads_back MiniJSON.JSON (JArr (map cache_record Sample.exact_corpus)).
Proof. vm_compute. reflexivity. Qed.

Lemma sample_exact :
  Forall (fun d => Forall JSON_exact (embedding d)) Sample.exact_corpus.
Proof.
  repeat constructor; try reflexivity; intros H; vm_compute in H; discriminate H.
Qed.

Lemma saveEmbeddingsToFile_then_load_witness :
  reads_back MiniJSON.JSON (JArr (map cache_record Sample.exact_corpus)) /\
  fs Sample.empty_world !! EMBEDDINGS_FILE <> Some Directory /\
  Forall (fun d => Forall JSON_exact (embedding d)) Sample.exact_corpus /\
  fst (loadEmbeddingsFromFile MiniJSON.JSON
         (snd (saveEmbeddingsToFile MiniJSON.JSON Sample.exact_corpus Sample.empty_world))) =
    Normal (Some (map as_loaded Sample.exact_corpus)).
Proof.
  assert (Hfile : fs Sample.empty_world !! EMBEDDINGS_FILE <> Some Directory)
    by (intros H; discriminate H).
  split; [exact sample_reads_back|]. split; [exact Hfile|]. split; [exact sample_exact|].
  exact (proj2 (proj2 (saveEmbeddingsToFile_then_load MiniJSON.JSON Sample.exact_corpus
                         Sample.empty_world sample_reads_back Hfile)) sample_exact).
Defined.

(** C3 fails as stated.  A corpus whose embedding holds NaN is saved with
    [null] in its place, and loading brings back [null]: with the JSON
    object of this file, and with every JSON object that reads back what it
    writes. *)
Lemma saveEmbeddingsToFile_then_load_nan :
  fst (loadEmbeddingsFromFile MiniJSON.JSON
         (snd (saveEmbeddingsToFile MiniJSON.JSON Sample.nan_corpus Sample.empty_world))) =
    Normal (Some [ {| Loaded.id := Some (JStr "a");
                      Loaded.data := {| Loaded.title := Some (JStr "a");
                                        Loaded.snippet := Some (JStr "a") |};
                      Loaded.embedding := Some (JArr [JNull; JNum 1]) |} ]) /\
  map as_loaded Sample.nan_corpus =
    [ {| Loaded.id := Some (JStr "a");
         Loaded.data := {| Loaded.title := Some (JStr "a");
                           Loaded.snippet := Some (JStr "a") |};
         Loaded.embedding := Some (JArr [JNum nan; JNum 1]) |} ] /\
  (forall (JSON : JSONLib) (w : World),
     reads_back JSON (JArr (map cache_record Sample.nan_corpus)) ->
     fs w !! EMBEDDINGS_FILE <> Some Directory ->
     fst (loadEmbeddingsFromFile JSON
            (snd (saveEmbeddingsToFile JSON Sample.nan_corpus w))) <>
     Normal (Some (map as_loaded Sample.nan_corpus))).
Proof.
  split; [vm_compute; reflexivity|]. split; [reflexivity|].
  intros JSON w Hback Hfile.
  rewrite (proj2 (saveEmbeddingsToFile_then_load_general JSON Sample.nan_corpus w
                    Hback Hfile)).
  intros H. discriminate H.
Qed.

(** ** Chat Orchestrator *)

Lemma events_of_nothing {A : Type} (a : A) (w : World) : events_of (ret a) w = [].
Proof. unfold events_of, ret. cbn [snd]. apply skipn_all. Qed.

(** Without a prompt the handler does nothing but answer. *)
Lemma post_generate_falsy (cohere : CohereClient)
    (cachedDocuments : option (list EmbeddedDocument)) (req : Request) :
  truthy (prompt req) = false ->
  V2.post_generate cohere cachedDocuments req = ret prompt_required.
Proof.
  unfold V2.post_generate.
  destruct (prompt req) as [p|]; [intros -> | intros _]; reflexivity.
Qed.

(** C5: for every request whose body has no prompt or an empty one, the
    handler responds with status 400 and calls neither provider: the world,
    and with it the record of provider calls, is left as it was. *)
Theorem generate_requires_prompt (cohere : CohereClient)
    (cachedDocuments : option (list EmbeddedDocument)) (req : Request) (w : World) :
  prompt req = None \/ prompt req = Some (JStr "") ->
  V2.post_generate cohere cachedDocuments req w = (Normal prompt_required, w) /\
  status prompt_required = 400%Z /\
  provider_calls (events_of (V2.post_generate cohere cachedDocuments req) w) = [].
Proof.
  intros Hprompt.
  assert (Hfalsy : truthy (prompt req) = false) by (destruct Hprompt as [-> | ->]; reflexivity).
  rewrite (post_generate_falsy cohere cachedDocuments req Hfalsy).
  now rewrite events_of_nothing.
Qed.

Lemma generate_requires_prompt_witness :
  (prompt {| prompt := Some (JStr "") |} = None \/
   prompt {| prompt := Some (JStr "") |} = Some (JStr "")) /\
  V2.post_generate Sample.cohere_up (Some Sample.corpus) {| prompt := Some (JStr "") |}
    Sample.empty_world = (Normal prompt_required, Sample.empty_world).
Proof.
  assert (H : prompt {| prompt := Some (JStr "") |} = None \/
              prompt {| prompt := Some (JStr "") |} = Some (JStr ""))
    by (right; reflexivity).
  split; [exact H|].
  exact (proj1 (generate_requires_prompt Sample.cohere_up (Some Sample.corpus)
                  {| prompt := Some (JStr "") |} Sample.empty_world H)).
Defined.

(** What the handler does with a prompt, by the outcome
    of each step. *)
Lemma V2_post_generate_run (cohere : CohereClient)
    (cachedDocuments : option (list EmbeddedDocument)) (req : Request) (w : World) :
  truthy (prompt req) = true ->
  (fst (V2.post_generate cohere cachedDocuments req w) = Normal upstream_failure \/
   exists text citations,
     fst (V2.post_generate cohere cachedDocuments req w) =
       Normal {| status := 200; body := GenerateBody text citations |} /\
     Forall (fun ev => ~ call_failed ev)
       (events_of (V2.post_generate cohere cachedDocuments req) w)) /\
  Forall (fun request => input_type request = "search_query")
    (embed_requests (events_of (V2.post_generate cohere cachedDocuments req) w)).
Proof.
  unfold events_of, V2.post_generate. destruct (prompt req) as [p|]; [|discriminate].
  intros ->. run_io. unfold V2.prompt_start.
  destruct p as [|b|x|s|elems|props];
    try (split; [left; reflexivity | new_events; constructor]).
  set (request := {| texts := [JStr s]; model := "embed-multilingual-v3.0";
                     input_type := "search_query" |}).
  destruct (embed cohere _ request) as [embedResponse|e];
    [|split; [left; reflexivity | new_events; repeat constructor]].
  destruct (call_getTopKDocuments _ cachedDocuments 5) as [topDocuments|e];
    [|split; [left; reflexivity | new_events; repeat constructor]].
  destruct (chat cohere _ (chat_request (JStr s) topDocuments)) as [response|e];
    [|split; [left; reflexivity | new_events; repeat constructor]].
  split.
  - right. eexists _, _. split; [reflexivity|].
    new_events. repeat constructor; intros [].
  - new_events. repeat constructor.
Qed.

(** C6: for every request with a prompt, if a call to the embedding or chat
    provider fails, the handler responds with status 500 and the body
    [{ error: 'Cohere request failed' }], whatever the error was. *)
Theorem generate_upstream_failure (cohere : CohereClient)
    (cachedDocuments : option (list EmbeddedDocument)) (req : Request) (w : World) :
  truthy (prompt req) = true ->
  Exists call_failed (events_of (V2.post_generate cohere cachedDocuments req) w) ->
  fst (V2.post_generate cohere cachedDocuments req w) =
    Normal {| status := 500; body := ErrorBody "Cohere request failed" |}.
Proof.
  intros Hprompt Hfailed.
  destruct (V2_post_generate_run cohere cachedDocuments req w Hprompt)
    as [[Hrun | (text & citations & _ & Hnone)] _]; [exact Hrun|].
  apply Exists_exists in Hfailed as (ev & Hin & Hev).
  eapply Forall_forall in Hnone; [|exact Hin]. contradiction.
Qed.

Lemma sample_call_failed :
  Exists call_failed
    (events_of (V2.post_generate Sample.cohere_down (Some Sample.corpus)
                  {| prompt := Some (JStr "Who is Mr Darcy?") |}) Sample.empty_world).
Proof. vm_compute. constructor 2. constructor 1. exact I. Qed.

Lemma generate_upstream_failure_witness :
  truthy (prompt {| prompt := Some (JStr "Who is Mr Darcy?") |}) = true /\
  Exists call_failed
    (events_of (V2.post_generate Sample.cohere_down (Some Sample.corpus)
                  {| prompt := Some (JStr "Who is Mr Darcy?") |}) Sample.empty_world) /\
  fst (V2.post_generate Sample.cohere_down (Some Sample.corpus)
         {| prompt := Some (JStr "Who is Mr Darcy?") |} Sample.empty_world) =
    Normal {| status := 500; body := ErrorBody "Cohere request failed" |}.
Proof.
  assert (H : truthy (prompt {| prompt := Some (JStr "Who is Mr Darcy?") |}) = true)
    by reflexivity.
  split; [exact H|]. split; [exact sample_call_failed|].
  exact (generate_upstream_failure Sample.cohere_down (Some Sample.corpus)
           {| prompt := Some (JStr "Who is Mr Darcy?") |} Sample.empty_world
           H sample_call_failed).
Defined.

(** The chat provider failing after a successful embedding: the error goes
    to the console, the caller gets the fixed message. *)
Lemma generate_chat_failure_run :
  V2.post_generate Sample.cohere_mute (Some [Sample.aligned_doc])
    {| prompt := Some (JStr "Who is Mr Darcy?") |} Sample.empty_world =
  (Normal {| status := 500; body := ErrorBody "Cohere request failed" |},
   {| fs := ∅;
      trace :=
        [Console "log" [Text ("Embedding user prompt: " +:+ dquote);
                        Text "Who is Mr Darcy?"; Text ("..." +:+ dquote)];
         Embed {| texts := [JStr "Who is Mr Darcy?"];
                  model := "embed-multilingual-v3.0";
                  input_type := "search_query" |}
               (Normal {| embeddings := [Sample.query] |});
         Console "log" [Text "Retrieved top "; Num 1; Text " documents."];
         Chat (chat_request (JStr "Who is Mr Darcy?") [Sample.aligned_doc])
              (Throw (ProviderError "503 Service Unavailable"));
         Console "error" [Text "Error communicating with Cohere API:";
                          Err (ProviderError "503 Service Unavailable")]] |}).
Proof. vm_compute. reflexivity. Qed.

(** ** The input type of embedding requests *)

Lemma embed_requests_app (l l' : list Event) :
  embed_requests (l ++ l') = embed_requests l ++ embed_requests l'.
Proof. apply omap_app. Qed.

(** Every request [embedDocumentsInBatches] sends is typed as a document
    request. *)
Lemma embed_from_events (cohere : CohereClient) (documents : list Document)
    (batchSize : nat) (fuel : nat) :
  forall (i : nat) (allEmbeddings : list (list float)) (w : World),
  exists new : list Event,
    trace (snd (embed_from fuel cohere documents batchSize i allEmbeddings w)) =
      trace w ++ new /\
    Forall (fun request => input_type request = "search_document") (embed_requests new).
Proof.
  induction fuel as [|fuel IH]; intros i allEmbeddings w; cbn [embed_from];
    destruct (i <? length documents)%nat;
    try (exists []; rewrite app_nil_r; split; [reflexivity | constructor]).
  run_io.
  match goal with
  | |- context [embed cohere ?t ?r] => destruct (embed cohere t r) as [response|e] eqn:Hembed
  end.
  - match goal with
    | |- context [embed_from fuel cohere documents batchSize ?j ?acc ?w'] =>
        destruct (IH j acc w') as (new & Hnew & Hall); rewrite Hnew
    end.
    cbn [trace]. rewrite <- !app_assoc. eexists. split; [reflexivity|].
    cbn [app embed_requests omap list_omap]. constructor; [reflexivity | exact Hall].
  - cbn [snd trace]. rewrite <- !app_assoc. eexists. split; [reflexivity|].
    repeat constructor.
Qed.

Lemma embedDocumentsInBatches_input_type (cohere : CohereClient)
    (documents : list Document) (batchSize : nat) (w : World) :
  Forall (fun request => input_type request = "search_document")
    (embed_requests (events_of (embedDocumentsInBatches cohere documents batchSize) w)).
Proof.
  unfold events_of, embedDocumentsInBatches.
  destruct (embed_from_events cohere documents batchSize (length documents) 0 [] w)
    as (new & -> & Hall).
  now rewrite drop_app_length.
Qed.

(** With a batch size of at least 1 the loop ends: the fuel does not run
    out. *)
Lemma embed_from_enough_fuel (cohere : CohereClient) (documents : list Document)
    (batchSize : nat) (fuel : nat) :
  (1 <= batchSize)%nat ->
  forall (i : nat) (allEmbeddings : list (list float)) (w : World),
    (length documents - i <= fuel * batchSize)%nat ->
    fst (embed_from fuel cohere documents batchSize i allEmbeddings w) <> Normal None.
Proof.
  intros Hsize. induction fuel as [|fuel IH]; intros i allEmbeddings w Hfuel;
    cbn [embed_from]; destruct (Nat.ltb_spec i (length documents));
    try (cbn; discriminate); try lia.
  run_io.
  match goal with
  | |- context [embed cohere ?t ?r] => destruct (embed cohere t r) as [response|e]
  end; [|cbn; discriminate].
  apply IH. lia.
Qed.

Lemma embedDocumentsInBatches_ends (cohere : CohereClient) (documents : list Document)
    (batchSize : nat) (w : World) :
  (1 <= batchSize)%nat ->
  fst (embedDocumentsInBatches cohere documents batchSize w) <> Normal None.
Proof.
  intros Hsize. apply embed_from_enough_fuel; [assumption | nia].
Qed.

(** The handler types its embedding request as a query. *)
Lemma V2_query_input_type (cohere : CohereClient)
    (cachedDocuments : option (list EmbeddedDocument)) (req : Request) (w : World) :
  Forall (fun request => input_type request = "search_query")
    (embed_requests (events_of (V2.post_generate cohere cachedDocuments req) w)).
Proof.
  destruct (truthy (prompt req)) eqn:Hprompt.
  - exact (proj2 (V2_post_generate_run cohere cachedDocuments req w Hprompt)).
  - rewrite (post_generate_falsy cohere cachedDocuments req Hprompt).
    rewrite events_of_nothing. constructor.
Qed.

(** A prompt that is a string and not empty is embedded once. *)
Lemma V2_query_request (cohere : CohereClient)
    (cachedDocuments : option (list EmbeddedDocument)) (s : string) (w : World) :
  s <> "" ->
  embed_requests
    (events_of (V2.post_generate cohere cachedDocuments {| prompt := Some (JStr s) |}) w) =
  [ {| texts := [JStr s]; model := "embed-multilingual-v3.0"; input_type := "search_query" |} ].
Proof.
  intros Hs. unfold events_of, V2.post_generate. cbn [prompt truthy].
  replace (String.eqb s "") with false by (symmetry; now apply String.eqb_neq).
  cbn [negb]. run_io. cbn [V2.prompt_start].
  set (request := {| texts := [JStr s]; model := "embed-multilingual-v3.0";
                     input_type := "search_query" |}).
  destruct (embed cohere _ request) as [embedResponse|e]; [|new_events; reflexivity].
  destruct (call_getTopKDocuments _ cachedDocuments 5) as [topDocuments|e];
    [|new_events; reflexivity].
  destruct (chat cohere _ (chat_request (JStr s) topDocuments)) as [response|e];
    new_events; reflexivity.
Qed.

(** With documents to embed, [embedDocumentsInBatches] sends a request. *)
Lemma embedDocumentsInBatches_requests (cohere : CohereClient) (documents : list Document)
    (batchSize : nat) (w : World) :
  documents <> [] ->
  embed_requests (events_of (embedDocumentsInBatches cohere documents batchSize) w) <> [].
Proof.
  intros Hdocs. unfold events_of, embedDocumentsInBatches.
  destruct documents as [|d documents]; [contradiction|].
  cbn [length embed_from Nat.ltb Nat.leb]. run_io.
  match goal with
  | |- context [embed cohere ?t ?r] => destruct (embed cohere t r) as [response|e]
  end.
  - match goal with
    | |- context [embed_from ?fuel cohere ?ds batchSize ?j ?acc ?w'] =>
        destruct (embed_from_events cohere ds batchSize fuel j acc w') as (new & -> & _)
    end.
    cbn [trace]. rewrite <- !app_assoc. rewrite drop_app_length. discriminate.
  - cbn [snd trace]. rewrite <- !app_assoc. rewrite drop_app_length. discriminate.
Qed.

(** C9: every embedding request is typed by its purpose.  The requests
    [embedDocumentsInBatches] sends for the corpus are typed
    [search_document], whatever the documents and the batch size, and there
    is such a request whenever there is a document; the handler of
    [/generate] sends no embedding request typed otherwise than
    [search_query], and for a prompt that is a string and not empty it sends
    one embedding request, for that prompt, typed [search_query]. *)
Theorem embedding_requests_typed (cohere : CohereClient) (documents : list Document)
    (batchSize : nat) (cachedDocuments : option (list EmbeddedDocument)) (req : Request)
    (s : string) (w : World) :
  Forall (fun request => input_type request = "search_document")
    (embed_requests (events_of (embedDocumentsInBatches cohere documents batchSize) w)) /\
  (documents <> [] ->
   embed_requests (events_of (embedDocumentsInBatches cohere documents batchSize) w) <> []) /\
  Forall (fun request => input_type request = "search_query")
    (embed_requests (events_of (V2.post_generate cohere cachedDocuments req) w)) /\
  (s <> "" ->
   embed_requests
     (events_of (V2.post_generate cohere cachedDocuments {| prompt := Some (JStr s) |}) w) =
   [ {| texts := [JStr s]; model := "embed-multilingual-v3.0";
        input_type := "search_query" |} ]).
Proof.
  split; [apply embedDocumentsInBatches_input_type|].
  split; [apply embedDocumentsInBatches_requests|].
  split; [apply V2_query_input_type|].
  apply V2_query_request.
Qed.

Lemma embedding_requests_typed_witness :
  [document Sample.diagonal] <> [] /\
  "Who is Mr Darcy?" <> "" /\
  embed_requests
    (events_of (embedDocumentsInBatches Sample.cohere_up [document Sample.diagonal] 96)
       Sample.empty_world) <> [] /\
  embed_requests
    (events_of (V2.post_generate Sample.cohere_up (Some Sample.corpus)
                  {| prompt := Some (JStr "Who is Mr Darcy?") |}) Sample.empty_world) =
  [ {| texts := [JStr "Who is Mr Darcy?"]; model := "embed-multilingual-v3.0";
       input_type := "search_query" |} ].
Proof.
  assert (Hd : [document Sample.diagonal] <> []) by discriminate.
  assert (Hs : "Who is Mr Darcy?" <> "") by discriminate.
  pose proof (embedding_requests_typed Sample.cohere_up [document Sample.diagonal] 96
                (Some Sample.corpus) {| prompt := None |} "Who is Mr Darcy?"
                Sample.empty_world) as (_ & Hsent & _ & Hquery).
  split; [exact Hd|]. split; [exact Hs|].
  split; [exact (Hsent Hd) | exact (Hquery Hs)].
Defined.
(** * Part III: further properties of the code *)

(** ** Retriever: what is returned and what is left out *)

Lemma StronglySorted_split {A : Type} (R : A -> A -> Prop) (n : nat) (l : list A) :
  StronglySorted R l ->
  Forall (fun later => Forall (fun earlier => R earlier later) (firstn n l)) (skipn n l).
Proof.
  intros H. revert n. induction H as [|a l Hl IH Ha]; intros [|n]; cbn [firstn skipn].
  - constructor.
  - constructor.
  - apply Forall_forall. intros x _. constructor.
  - specialize (IH n). apply Forall_forall. intros x Hx. constructor.
    + eapply Forall_forall in Ha; [exact Ha|].
      apply (subseteq_drop n l). exact Hx.
    + eapply Forall_forall in IH; [exact IH | exact Hx].
Qed.

Lemma Array_sort_by_score_of_sorted (q : list float) (documents : list EmbeddedDocument) :
  all_scores_numbers q documents ->
  descending q (Array_sort (by_score_of q) documents).
Proof.
  intros Hn.
  pose proof (getTopKDocuments_descending q documents (Z.of_nat (length documents)) Hn) as H.
  rewrite getTopKDocuments_sort, Array_slice_all in H; [exact H|].
  rewrite Array_sort_length. lia.
Qed.

(** X1: when every score is a number, the documents [getTopKDocuments] leaves
    out score no higher than any document it returns: the result and what is
    left out make up the corpus, and each document left out has a score at
    most that of each returned document. *)
Theorem getTopKDocuments_best (q : list float) (documents : list EmbeddedDocument) (k : Z) :
  all_scores_numbers q documents ->
  exists left_out : list EmbeddedDocument,
    Permutation documents (getTopKDocuments q documents k ++ left_out) /\
    Forall (fun out =>
              Forall (fun d => (score_of q out <=? score_of q d) = true)
                (getTopKDocuments q documents k))
      left_out.
Proof.
  intros Hn. rewrite getTopKDocuments_sort, Array_slice_prefix.
  set (sorted := Array_sort (by_score_of q) documents).
  set (n := Z.to_nat (relative_index (Z.of_nat (length sorted)) k)).
  exists (skipn n sorted). split.
  - rewrite firstn_skipn. symmetry. apply Array_sort_Permutation.
  - apply StronglySorted_split. now apply Array_sort_by_score_of_sorted.
Qed.

Lemma getTopKDocuments_best_witness :
  all_scores_numbers Sample.query Sample.corpus /\
  exists left_out : list EmbeddedDocument,
    Permutation Sample.corpus (getTopKDocuments Sample.query Sample.corpus 2 ++ left_out) /\
    Forall (fun out =>
              Forall (fun d => (score_of Sample.query out <=? score_of Sample.query d) = true)
                (getTopKDocuments Sample.query Sample.corpus 2))
      left_out.
Proof.
  split; [exact sample_scores_numbers|].
  exact (getTopKDocuments_best Sample.query Sample.corpus 2 sample_scores_numbers).
Defined.

(** X2: the number of documents returned, for every integer [k]: [min(k, n)]
    for [k >= 0], and [max(n + k, 0)] for a negative [k], which drops the
    [-k] documents ranked last instead of selecting none. *)
Theorem getTopKDocuments_count (q : list float) (documents : list EmbeddedDocument) (k : Z) :
  Z.of_nat (length (getTopKDocuments q documents k)) =
  (if (k <? 0)%Z then Z.max (Z.of_nat (length documents) + k) 0
   else Z.min k (Z.of_nat (length documents)))%Z.
Proof.
  rewrite getTopKDocuments_sort, Array_slice_prefix, length_firstn, Array_sort_length.
  unfold relative_index. destruct (Z.ltb_spec k 0); lia.
Qed.

(** ** Retriever: documents with equal scores *)

Lemma key_compare_eq (a b : Z * Z * Z) : key_compare a b = Eq -> a = b.
Proof.
  destruct a as [[a1 a2] a3], b as [[b1 b2] b3]. unfold key_compare.
  destruct (Z.compare_spec a1 b1); try discriminate.
  destruct (Z.compare_spec a2 b2); try discriminate.
  destruct (Z.compare_spec a3 b3); try discriminate.
  intros _. congruence.
Qed.

Lemma key_compare_refl (a : Z * Z * Z) : key_compare a a = Eq.
Proof.
  destruct a as [[a1 a2] a3]. unfold key_compare. now rewrite !Z.compare_refl.
Qed.

(** A number below another is not equal to what the other is equal to. *)
Lemma ltb_eqb_apart (x y c : float) :
  (x <? y) = true -> (y =? c) = true -> (x =? c) = false.
Proof.
  rewrite FloatAxioms.ltb_spec, !FloatAxioms.eqb_spec. unfold SFltb, SFeqb.
  intros Hlt Heq.
  assert (Nx : sf_is_nan (Prim2SF x) = false)
    by (destruct (Prim2SF x) as [| | |]; [reflexivity | reflexivity | discriminate | reflexivity]).
  assert (Ny : sf_is_nan (Prim2SF y) = false)
    by (destruct (Prim2SF x), (Prim2SF y); try reflexivity; discriminate).
  assert (Nc : sf_is_nan (Prim2SF c) = false)
    by (destruct (Prim2SF y), (Prim2SF c); try reflexivity; discriminate).
  revert Hlt Heq. rewrite !F64.SFcompare_key by assumption.
  destruct (key_compare (sf_key (Prim2SF y)) (sf_key (Prim2SF c))) eqn:Hyc; try discriminate.
  apply key_compare_eq in Hyc. rewrite <- Hyc.
  now destruct (key_compare (sf_key (Prim2SF x)) (sf_key (Prim2SF y))).
Qed.

Section Ties.

Variable q : list float.
Variable c : float.

Let tied (d : EmbeddedDocument) : bool := score_of q d =? c.

Lemma sorts_after_by_score_of (a b : EmbeddedDocument) :
  is_nan (score_of q a) = false -> is_nan (score_of q b) = false ->
  sorts_after (by_score_of q) a b = (score_of q a <? score_of q b).
Proof. intros Ha Hb. unfold sorts_after, by_score_of. now apply F64.sub_pos. Qed.

Lemma filter_sort_insert (a : EmbeddedDocument) (l : list EmbeddedDocument) :
  is_nan (score_of q a) = false -> all_scores_numbers q l ->
  List.filter tied (sort_insert (by_score_of q) a l) = List.filter tied (a :: l).
Proof.
  intros Na Hl. induction Hl as [|b l Nb Hl IH]; [reflexivity|].
  cbn [sort_insert]. rewrite sorts_after_by_score_of by assumption.
  destruct (score_of q a <? score_of q b) eqn:Hlt; [|reflexivity].
  cbn [List.filter] in *. rewrite IH.
  destruct (tied b) eqn:Hb; [|reflexivity].
  unfold tied in *. now rewrite (ltb_eqb_apart _ _ _ Hlt Hb).
Qed.

Lemma filter_Array_sort (l : list EmbeddedDocument) :
  all_scores_numbers q l ->
  List.filter tied (Array_sort (by_score_of q) l) = List.filter tied l.
Proof.
  intros Hl. induction Hl as [|a l Na Hl IH]; [reflexivity|].
  cbn [Array_sort fold_right]. fold (Array_sort (by_score_of q) l).
  rewrite filter_sort_insert; [|assumption|].
  - cbn [List.filter]. now rewrite IH.
  - unfold all_scores_numbers. now rewrite (Array_sort_Permutation (by_score_of q) l).
Qed.

End Ties.

(** X3: the sort is stable.  When every score is a number, the returned
    documents whose score equals [c] are the first documents of the corpus
    with that score, in the order of the corpus. *)
Theorem getTopKDocuments_stable (q : list float) (documents : list EmbeddedDocument)
    (k : Z) (c : float) :
  all_scores_numbers q documents ->
  exists later : list EmbeddedDocument,
    List.filter (fun d => score_of q d =? c) documents =
    List.filter (fun d => score_of q d =? c) (getTopKDocuments q documents k) ++ later.
Proof.
  intros Hn. rewrite getTopKDocuments_sort, Array_slice_prefix.
  set (sorted := Array_sort (by_score_of q) documents).
  set (n := Z.to_nat (relative_index (Z.of_nat (length sorted)) k)).
  exists (List.filter (fun d => score_of q d =? c) (skipn n sorted)).
  rewrite <- List.filter_app, firstn_skipn.
  symmetry. now apply filter_Array_sort.
Qed.

Lemma getTopKDocuments_stable_witness :
  all_scores_numbers Sample.query [Sample.diagonal; Sample.aligned_doc; Sample.diagonal] /\
  exists later : list EmbeddedDocument,
    List.filter (fun d => score_of Sample.query d =? score_of Sample.query Sample.diagonal)
      [Sample.diagonal; Sample.aligned_doc; Sample.diagonal] =
    List.filter (fun d => score_of Sample.query d =? score_of Sample.query Sample.diagonal)
      (getTopKDocuments Sample.query
         [Sample.diagonal; Sample.aligned_doc; Sample.diagonal] 2) ++ later.
Proof.
  assert (H : all_scores_numbers Sample.query
                [Sample.diagonal; Sample.aligned_doc; Sample.diagonal])
    by (repeat constructor).
  split; [exact H|].
  exact (getTopKDocuments_stable Sample.query
           [Sample.diagonal; Sample.aligned_doc; Sample.diagonal] 2
           (score_of Sample.query Sample.diagonal) H).
Defined.

(** ** Vector Math: vectors of different lengths *)

Section Lengths.

Local Open Scope float_scope.

Lemma add_nan_r (x : float) : x + nan = nan.
Proof.
  apply Prim2SF_inj. rewrite FloatAxioms.add_spec.
  change (Prim2SF nan) with S754_nan. now destruct (Prim2SF x).
Qed.

Lemma add_nan_l (x : float) : nan + x = nan.
Proof.
  apply Prim2SF_inj. rewrite FloatAxioms.add_spec.
  change (Prim2SF nan) with S754_nan. reflexivity.
Qed.

Lemma mul_nan_r (x : float) : x * nan = nan.
Proof.
  apply Prim2SF_inj. rewrite FloatAxioms.mul_spec.
  change (Prim2SF nan) with S754_nan. now destruct (Prim2SF x).
Qed.

Lemma div_nan_l (x : float) : nan / x = nan.
Proof.
  apply Prim2SF_inj. rewrite FloatAxioms.div_spec.
  change (Prim2SF nan) with S754_nan. reflexivity.
Qed.

(** Once the sum is NaN it stays NaN. *)
Lemma reduce_from_nan (b a : list float) :
  forall idx : nat,
    reduce_from (fun sum x idx => sum + x * at_index b idx) a idx nan = nan.
Proof.
  induction a as [|x a IH]; intros idx; cbn [reduce_from]; [reflexivity|].
  rewrite add_nan_l. apply IH.
Qed.

(** Walking [a] past the end of [b] reads [undefined]. *)
Lemma reduce_from_past_end (b a : list float) :
  forall (idx : nat) (acc : float),
    (idx <= length b < idx + length a)%nat ->
    reduce_from (fun sum x idx => sum + x * at_index b idx) a idx acc = nan.
Proof.
  induction a as [|x a IH]; intros idx acc Hlen; cbn [length] in Hlen; [lia|].
  cbn [reduce_from].
  destruct (Nat.le_gt_cases (length b) idx) as [Hout | Hin].
  - unfold at_index at 2. rewrite nth_overflow by assumption.
    rewrite mul_nan_r, add_nan_r. apply reduce_from_nan.
  - apply IH. lia.
Qed.

Lemma dot_from_firstn (a : list float) :
  forall (b : list float) (acc : float),
    dot_from acc a (firstn (length a) b) = dot_from acc a b.
Proof.
  unfold dot_from.
  induction a as [|x a IH]; intros [|y b] acc; cbn; try reflexivity. apply IH.
Qed.

End Lengths.

(** X4: [cosineSimilarity] accepts vectors of different lengths.  When the
    second vector is the shorter one the result is NaN; when it is the longer
    one, its components past the length of the first count in its magnitude
    and not in the dot product. *)
Theorem cosineSimilarity_lengths (a b : list float) :
  ((length b < length a)%nat -> cosineSimilarity a b = nan) /\
  ((length a <= length b)%nat ->
   cosineSimilarity a b = dot a (firstn (length a) b) / (magnitude a * magnitude b)).
Proof.
  split; intros Hlen.
  - unfold cosineSimilarity, reduce.
    rewrite reduce_from_past_end by lia. apply div_nan_l.
  - rewrite cosineSimilarity_cosine_spec by assumption.
    unfold cosine_spec, dot. now rewrite dot_from_firstn.
Qed.

Lemma cosineSimilarity_lengths_witness :
  ((length [1%float] < length [1%float; 2%float])%nat /\
   cosineSimilarity [1; 2] [1] = nan) /\
  ((length [1%float] <= length [1%float; 2%float])%nat /\
   cosineSimilarity [1] [1; 2] = dot [1] (firstn (length [1]) [1; 2])
                                   / (magnitude [1] * magnitude [1; 2])).
Proof.
  split.
  - assert (H : (length [1%float] < length [1%float; 2%float])%nat) by (cbn; lia).
    split; [exact H|]. exact (proj1 (cosineSimilarity_lengths [1; 2] [1]) H).
  - assert (H : (length [1%float] <= length [1%float; 2%float])%nat) by (cbn; lia).
    split; [exact H|]. exact (proj2 (cosineSimilarity_lengths [1] [1; 2]) H).
Defined.

(** ** Document Store: the fields of a loaded document *)

Section DocumentFields.

Lemma chars_str (cs : list ascii) : chars (str cs) = cs.
Proof. apply list_ascii_of_string_of_list_ascii. Qed.

Lemma str_chars (s : string) : str (chars s) = s.
Proof. apply string_of_list_ascii_of_string. Qed.

Lemma chars_app (s t : string) : chars (s +:+ t) = chars s ++ chars t.
Proof.
  unfold chars. induction s as [|c s IH]; [reflexivity|].
  change (String c s +:+ t) with (String c (s +:+ t)).
  cbn [list_ascii_of_string app]. now rewrite IH.
Qed.

Lemma length_chars (s : string) : length (chars s) = String.length s.
Proof.
  unfold chars. induction s as [|c s IH]; cbn; [reflexivity | now f_equal].
Qed.

(** *** The id *)

Lemma last_segment_no_sep (sep : ascii) (cs : list ascii) :
  forall segment : list ascii,
    ~ In sep segment ->
    ~ In sep (fold_left (fun segment c => if Ascii.eqb c sep then [] else segment ++ [c])
                cs segment).
Proof.
  induction cs as [|c cs IH]; intros segment Hseg; cbn [fold_left]; [exact Hseg|].
  apply IH.
  destruct (Ascii.eqb_spec c sep) as [-> | Hc]; [now intros []|].
  rewrite in_app_iff. cbn. intuition congruence.
Qed.

Lemma split_pop_no_sep (sep : ascii) (s : string) : ~ In sep (chars (split_pop sep s)).
Proof.
  unfold split_pop. rewrite chars_str.
  exact (last_segment_no_sep sep (chars s) [] (fun H => H)).
Qed.

Lemma split_pop_last (sep : ascii) (dir name : string) :
  split_pop sep (dir +:+ String sep EmptyString +:+ name) = split_pop sep name.
Proof.
  unfold split_pop. rewrite !chars_app, !fold_left_app. cbn [chars list_ascii_of_string fold_left].
  now rewrite Ascii.eqb_refl.
Qed.

Lemma remove_extension_prefix (s : string) :
  exists n : nat, chars (remove_extension s) = firstn n (chars s).
Proof.
  unfold remove_extension, drop_last.
  destruct (ends_with_nocase ".md" s); [rewrite chars_str; eauto|].
  destruct (ends_with_nocase ".txt" s); [rewrite chars_str; eauto|].
  exists (length (chars s)). now rewrite firstn_all.
Qed.

(** *** The title *)

Lemma length_capitalize_from (cs : list ascii) :
  forall after_word : bool, length (capitalize_from after_word cs) = length cs.
Proof. induction cs as [|c cs IH]; intros after_word; cbn; [reflexivity | now rewrite IH]. Qed.

Lemma upper_char_not_underscore (c : ascii) : c <> "_"%char -> upper_char c <> "_"%char.
Proof.
  intros Hc. unfold upper_char. destruct (in_range 97 122 c) eqn:Hr; [|exact Hc].
  unfold in_range in Hr. apply andb_true_iff in Hr as [Hlo Hhi].
  apply Nat.leb_le in Hlo, Hhi. intros H.
  apply (f_equal nat_of_ascii) in H. unfold code in *.
  rewrite nat_ascii_embedding in H by lia.
  change (nat_of_ascii "_") with 95%nat in H. lia.
Qed.

Lemma capitalize_from_no_underscore (cs : list ascii) :
  forall after_word : bool,
    ~ In "_"%char cs -> ~ In "_"%char (capitalize_from after_word cs).
Proof.
  induction cs as [|c cs IH]; intros after_word Hcs; cbn [capitalize_from]; [exact Hcs|].
  cbn [In] in *. intros [H | H].
  - destruct (is_word_char c && negb after_word); [|tauto].
    apply (upper_char_not_underscore c); tauto.
  - apply (IH (is_word_char c)); tauto.
Qed.

Lemma underscores_to_spaces_no_underscore (s : string) :
  ~ In "_"%char (chars (underscores_to_spaces s)).
Proof.
  unfold underscores_to_spaces. rewrite chars_str, in_map_iff.
  intros (c & Hc & _). destruct (Ascii.eqb_spec c "_"); [discriminate | congruence].
Qed.

Lemma upper_char_not_lower (c : ascii) : in_range 97 122 (upper_char c) = false.
Proof.
  unfold upper_char. destruct (in_range 97 122 c) eqn:Hr; [|exact Hr].
  unfold in_range in *. apply andb_true_iff in Hr as [Hlo Hhi].
  apply Nat.leb_le in Hlo, Hhi. unfold code in *.
  rewrite nat_ascii_embedding by lia.
  apply andb_false_iff. left. apply Nat.leb_gt. lia.
Qed.

Lemma is_word_char_upper_char (c : ascii) : is_word_char (upper_char c) = is_word_char c.
Proof.
  unfold upper_char. destruct (in_range 97 122 c) eqn:Hr; [|reflexivity].
  unfold is_word_char. rewrite Hr. unfold in_range in *.
  apply andb_true_iff in Hr as [Hlo Hhi]. apply Nat.leb_le in Hlo, Hhi. unfold code in *.
  rewrite nat_ascii_embedding by lia.
  rewrite orb_true_r. cbn [orb].
  assert (H : ((65 <=? nat_of_ascii c - 32)%nat && (nat_of_ascii c - 32 <=? 90)%nat) = true)
    by (apply andb_true_iff; split; apply Nat.leb_le; lia).
  rewrite H. now rewrite orb_true_r.
Qed.

Lemma lower_is_word_char (c : ascii) : in_range 97 122 c = true -> is_word_char c = true.
Proof. intros H. unfold is_word_char. rewrite H. now rewrite orb_true_r. Qed.

(** A lower-case letter of the result follows a word character. *)
Lemma capitalize_from_lower (cs : list ascii) :
  forall (after_word : bool) (i : nat) (c : ascii),
    capitalize_from after_word cs !! i = Some c -> in_range 97 122 c = true ->
    match i with
    | O => after_word = true
    | S j => exists p, capitalize_from after_word cs !! j = Some p /\ is_word_char p = true
    end.
Proof.
  induction cs as [|x cs IH]; intros after_word i c Hi Hc; [discriminate|].
  cbn [capitalize_from] in *. destruct i as [|i]; cbn in Hi.
  - injection Hi as <-. destruct after_word; [reflexivity|].
    rewrite andb_true_r in Hc. destruct (is_word_char x) eqn:Hx.
    + now rewrite upper_char_not_lower in Hc.
    + now rewrite (lower_is_word_char x Hc) in Hx.
  - specialize (IH (is_word_char x) i c Hi Hc). destruct i as [|i].
    + eexists. split; [reflexivity|].
      destruct (is_word_char x && negb after_word);
        [now rewrite is_word_char_upper_char | exact IH].
    + destruct IH as (p & Hp & Hw). exists p. split; [exact Hp | exact Hw].
Qed.

(** *** The snippet *)







Lemma split_pop_whole (sep : ascii) (name : string) :
  ~ In sep (chars name) -> split_pop sep name = name.
Proof.
  intros Hname. unfold split_pop.
  assert (H : forall segment,
             fold_left (fun segment c => if Ascii.eqb c sep then [] else segment ++ [c])
               (chars name) segment = segment ++ chars name).
  { induction (chars name) as [|c cs IH]; intros segment; cbn [fold_left].
    - now rewrite app_nil_r.
    - cbn [In] in Hname. destruct (Ascii.eqb_spec c sep) as [-> | Hc]; [tauto|].
      rewrite IH by tauto. now rewrite <- app_assoc. }
  rewrite H. apply str_chars.
Qed.

Lemma ends_with_nocase_app (suffix name ext : string) :
  (String.length suffix <= String.length ext)%nat ->
  ends_with_nocase suffix (name +:+ ext) = ends_with_nocase suffix ext.
Proof.
  intros Hlen. unfold ends_with_nocase.
  rewrite chars_app, length_app, !length_chars.
  replace (String.length suffix <=? String.length name + String.length ext)%nat with true
    by (symmetry; apply Nat.leb_le; lia).
  replace (String.length suffix <=? String.length ext)%nat with true
    by (symmetry; apply Nat.leb_le; lia).
  replace (String.length name + String.length ext - String.length suffix)%nat
    with (length (chars name) + (String.length ext - String.length suffix))%nat
    by (rewrite length_chars; lia).
  now rewrite drop_app_add.
Qed.

Lemma drop_last_app (name ext : string) :
  drop_last (String.length ext) (name +:+ ext) = name.
Proof.
  unfold drop_last.
  rewrite chars_app, <- (length_chars (name +:+ ext)), chars_app, length_app, !length_chars.
  replace (String.length name + String.length ext - String.length ext)%nat
    with (String.length name) by lia.
  rewrite <- (length_chars name), take_app_length. apply str_chars.
Qed.

Lemma remove_extension_txt (name : string) : remove_extension (name +:+ ".txt") = name.
Proof.
  unfold remove_extension.
  rewrite (ends_with_nocase_app ".md" name ".txt") by (cbn; lia).
  rewrite (ends_with_nocase_app ".txt" name ".txt") by (cbn; lia).
  exact (drop_last_app name ".txt").
Qed.

Lemma remove_extension_md (name : string) : remove_extension (name +:+ ".md") = name.
Proof.
  unfold remove_extension.
  rewrite (ends_with_nocase_app ".md" name ".md") by (cbn; lia).
  exact (drop_last_app name ".md").
Qed.

End DocumentFields.

(** X5: the id of a loaded document is taken from what follows the last
    [/] of the path: it holds no [/], a directory before the name does not
    change it, and a name without [/] that ends in [.txt] or in [.md] gives
    the name without that ending, so that paths in different directories, or
    with these two endings, share an id. *)
Theorem make_document_id (dir name content content' : string) :
  ~ In "/"%char (chars (id (make_document name content))) /\
  id (make_document (dir +:+ "/" +:+ name) content) = id (make_document name content') /\
  (~ In "/"%char (chars name) ->
   id (make_document (dir +:+ "/" +:+ name +:+ ".txt") content) = name /\
   id (make_document (dir +:+ "/" +:+ name +:+ ".md") content') = name).
Proof.
  unfold make_document. cbn [id]. split; [|split].
  - destruct (remove_extension_prefix (split_pop "/" name)) as [n ->].
    intros H%list_elem_of_In%(subseteq_take n)%list_elem_of_In.
    now apply (split_pop_no_sep "/" name).
  - now rewrite (split_pop_last "/" dir name).
  - intros Hname.
    assert (Htxt : ~ In "/"%char (chars (name +:+ ".txt")))
      by (rewrite chars_app, in_app_iff; cbn; intuition discriminate).
    assert (Hmd : ~ In "/"%char (chars (name +:+ ".md")))
      by (rewrite chars_app, in_app_iff; cbn; intuition discriminate).
    rewrite (split_pop_last "/" dir (name +:+ ".txt")), (split_pop_last "/" dir (name +:+ ".md")).
    rewrite !split_pop_whole by assumption.
    split; [apply remove_extension_txt | apply remove_extension_md].
Qed.

Lemma make_document_id_witness :
  ~ In "/"%char (chars "emma") /\
  id (make_document ("./documents" +:+ "/" +:+ "emma" +:+ ".txt") "Emma.") = "emma" /\
  id (make_document ("./notes" +:+ "/" +:+ "emma" +:+ ".md") "Notes.") = "emma".
Proof.
  assert (H : ~ In "/"%char (chars "emma")) by (cbn; intuition discriminate).
  split; [exact H|]. split.
  - exact (proj1 (proj2 (proj2 (make_document_id "./documents" "emma" "Emma." "Notes.")) H)).
  - exact (proj2 (proj2 (proj2 (make_document_id "./notes" "emma" "Emma." "Notes.")) H)).
Defined.

(** X6: the title of a loaded document has the length of its id and holds
    no underscore, and a lower-case letter in it comes right after a word
    character: the first letter of every word is in upper case. *)
Theorem make_document_title (file content : string) :
  String.length (title (data (make_document file content))) =
    String.length (id (make_document file content)) /\
  ~ In "_"%char (chars (title (data (make_document file content)))) /\
  (forall (i : nat) (c : ascii),
     chars (title (data (make_document file content))) !! i = Some c ->
     in_range 97 122 c = true ->
     exists (j : nat) (p : ascii),
       i = S j /\
       chars (title (data (make_document file content))) !! j = Some p /\
       is_word_char p = true).
Proof.
  unfold make_document. cbn [id data title]. unfold capitalize_words.
  rewrite chars_str. split; [|split].
  - rewrite <- !length_chars, chars_str, length_capitalize_from.
    unfold underscores_to_spaces. now rewrite chars_str, length_map.
  - apply capitalize_from_no_underscore, underscores_to_spaces_no_underscore.
  - intros i c Hi Hc.
    pose proof (capitalize_from_lower _ false i c Hi Hc) as H.
    destruct i as [|j]; [discriminate|].
    destruct H as (p & Hp & Hw). now exists j, p.
Qed.


Lemma make_document_title_witness :
  chars (title (data (make_document "./documents/pride_prejudice_analysis.txt" "Text.")))
    !! 1%nat = Some "r"%char /\
  in_range 97 122 "r"%char = true /\
  exists (j : nat) (p : ascii),
    1%nat = S j /\
    chars (title (data (make_document "./documents/pride_prejudice_analysis.txt" "Text.")))
      !! j = Some p /\
    is_word_char p = true.
Proof.
  assert (Hi : chars (title (data (make_document "./documents/pride_prejudice_analysis.txt"
                                     "Text."))) !! 1%nat = Some "r"%char)
    by (vm_compute; reflexivity).
  assert (Hc : in_range 97 122 "r"%char = true) by reflexivity.
  split; [exact Hi|]. split; [exact Hc|].
  exact (proj2 (proj2 (make_document_title "./documents/pride_prejudice_analysis.txt" "Text."))
           1%nat "r"%char Hi Hc).
Defined.


(** ** Embedding Client Adapter: the batches *)

Lemma Array_slice_batch {A : Type} (l : list A) (i n : nat) :
  (i < length l)%nat ->
  Array_slice l (Z.of_nat i) (Z.of_nat (i + n)) = firstn n (skipn i l).
Proof.
  intros Hi. unfold Array_slice, relative_index.
  destruct (Z.ltb_spec (Z.of_nat i) 0); [lia|].
  destruct (Z.ltb_spec (Z.of_nat (i + n)) 0); [lia|].
  rewrite (Z.min_l (Z.of_nat i)) by lia. rewrite Nat2Z.id.
  destruct (Nat.le_gt_cases (i + n) (length l)) as [Hn | Hn].
  - rewrite Z.min_l by lia. f_equal. lia.
  - rewrite Z.min_r by lia.
    rewrite !firstn_all2; [reflexivity | |]; rewrite length_skipn; lia.
Qed.

Lemma embed_responses_app (l l' : list Event) :
  embed_responses (l ++ l') = embed_responses l ++ embed_responses l'.
Proof. apply omap_app. Qed.

Lemma sleeps_app (l l' : list Event) : sleeps (l ++ l') = sleeps l ++ sleeps l'.
Proof. apply omap_app. Qed.

(** What a run of the loop that ends leaves in the trace. *)
Lemma embed_from_run (cohere : CohereClient) (documents : list Document) (batchSize : nat) :
  (1 <= batchSize)%nat ->
  forall (fuel i : nat) (acc : list (list float)) (w : World) (all : list (list float)),
    fst (embed_from fuel cohere documents batchSize i acc w) = Normal (Some all) ->
    exists new : list Event,
      trace (snd (embed_from fuel cohere documents batchSize i acc w)) = trace w ++ new /\
      fs (snd (embed_from fuel cohere documents batchSize i acc w)) = fs w /\
      concat (map texts (embed_requests new)) = map embedding_text (skipn i documents) /\
      Forall (fun r => (1 <= length (texts r) <= batchSize)%nat) (embed_requests new) /\
      all = acc ++ concat (map embeddings (embed_responses new)) /\
      Forall2 (fun r response => exists t, embed cohere t r = Normal response)
        (embed_requests new) (embed_responses new) /\
      sleeps new = repeat 10000%Z (length (embed_requests new)) /\
      (length documents - i <= batchSize * length (embed_requests new)
         < length documents - i + batchSize)%nat.
Proof.
  intros Hsize. induction fuel as [|fuel IH]; intros i acc w all; cbn [embed_from];
    destruct (Nat.ltb_spec i (length documents)) as [Hi | Hi].
  - discriminate.
  - intros [= <-]. exists []. cbn [snd ret]. rewrite !app_nil_r, skipn_all2 by lia.
    cbn. repeat split; try constructor; lia.
  - run_io.
    match goal with
    | |- context [embed cohere ?t ?r] =>
        destruct (embed cohere t r) as [response|e] eqn:Hembed
    end; [|discriminate].
    match goal with
    | |- context [embed_from fuel cohere documents batchSize ?j ?acc' ?w'] =>
        intros Hrun; destruct (IH j acc' w' all Hrun)
          as (new & Htrace & Hfs & Htexts & Hsizes & Hall & Hresp & Hsleep & Hcount);
        rewrite Htrace, Hfs
    end.
    cbn [trace fs]. rewrite <- !app_assoc. cbn [app].
    eexists. split; [reflexivity|]. split; [reflexivity|].
    cbn [embed_requests embed_responses sleeps omap list_omap].
    fold (embed_requests new) (embed_responses new) (sleeps new).
    cbn [map concat texts embeddings length repeat].
    rewrite Array_slice_batch by assumption.
    split; [|split; [|split; [|split; [|split]]]].
    + rewrite Htexts, <- map_app. f_equal.
      etransitivity; [|apply (firstn_skipn batchSize)].
      f_equal. rewrite skipn_skipn. f_equal. lia.
    + constructor; [|exact Hsizes]. cbn [texts].
      rewrite length_map, length_firstn, length_skipn. lia.
    + rewrite Hall, <- app_assoc. reflexivity.
    + constructor; [|exact Hresp]. eexists.
      rewrite Array_slice_batch in Hembed by assumption. exact Hembed.
    + now rewrite Hsleep.
    + rewrite Nat.mul_succ_r.
      destruct (length (embed_requests new)) as [|n];
        rewrite ?Nat.mul_0_r, ?Nat.mul_succ_r in *; lia.
  - intros [= <-]. exists []. cbn [snd ret]. rewrite !app_nil_r, skipn_all2 by lia.
    cbn. repeat split; try constructor; lia.
Qed.

Lemma Forall2_concat_length {A B C D : Type} (f : A -> list C) (g : B -> list D)
    (l : list A) (k : list B) :
  Forall2 (fun a b => length (g b) = length (f a)) l k ->
  length (concat (map g k)) = length (concat (map f l)).
Proof.
  induction 1 as [|a b l k Hab _ IH]; cbn [map concat]; [reflexivity|].
  rewrite !length_app. now rewrite Hab, IH.
Qed.

(** What a run of the loop that throws leaves in the trace. *)
Lemma embed_from_failure (cohere : CohereClient) (documents : list Document) (batchSize : nat) :
  forall (fuel i : nat) (acc : list (list float)) (w : World) (e : JsError),
    fst (embed_from fuel cohere documents batchSize i acc w) = Throw e ->
    exists (before : list Event) (request : EmbedRequest),
      trace (snd (embed_from fuel cohere documents batchSize i acc w)) =
        trace w ++ before ++ [Embed request (Throw e)] /\
      fs (snd (embed_from fuel cohere documents batchSize i acc w)) = fs w /\
      Forall (fun ev => ~ call_failed ev) before.
Proof.
  induction fuel as [|fuel IH]; intros i acc w e; cbn [embed_from];
    destruct (i <? length documents)%nat; try discriminate.
  run_io.
  match goal with
  | |- context [embed cohere ?t ?r] => destruct (embed cohere t r) as [response|e']
  end.
  - match goal with
    | |- context [embed_from fuel cohere documents batchSize ?j ?acc' ?w'] =>
        intros Hrun; destruct (IH j acc' w' e Hrun) as (before & request & Htrace & Hfs & Hok);
        rewrite Htrace, Hfs
    end.
    cbn [trace fs]. rewrite <- !app_assoc. cbn [app].
    eexists (_ :: _ :: _ :: before), request. split; [reflexivity|]. split; [reflexivity|].
    repeat (constructor; [intros []|]). exact Hok.
  - cbn [fst snd trace fs]. intros [= <-]. rewrite <- !app_assoc. cbn [app].
    eexists [_], _. split; [reflexivity|]. split; [reflexivity|].
    repeat (constructor; [intros []|]). constructor.
Qed.

(** What a run of the loop with a batch size of 0 leaves in the trace. *)
Lemma embed_from_zero (cohere : CohereClient) (documents : list Document) :
  documents <> [] ->
  (forall t r, exists response, embed cohere t r = Normal response) ->
  forall (fuel : nat) (acc : list (list float)) (w : World),
    fst (embed_from fuel cohere documents 0 0 acc w) = Normal None /\
    exists new : list Event,
      trace (snd (embed_from fuel cohere documents 0 0 acc w)) = trace w ++ new /\
      length (embed_requests new) = fuel /\
      Forall (fun r => texts r = []) (embed_requests new).
Proof.
  intros Hdocs Hup.
  assert (Hlen : (0 <? length documents)%nat = true)
    by (apply Nat.ltb_lt; destruct documents; [contradiction | cbn; lia]).
  induction fuel as [|fuel IH]; intros acc w; cbn [embed_from]; rewrite Hlen.
  - split; [reflexivity|]. exists []. cbn [snd ret]. now rewrite app_nil_r.
  - run_io.
    match goal with
    | |- context [embed cohere ?t ?r] => destruct (Hup t r) as [response ->]
    end.
    cbn [Nat.add].
    match goal with
    | |- context [embed_from fuel cohere documents 0 0 ?acc' ?w'] =>
        destruct (IH acc' w') as (Hnone & new & Htrace & Hcount & Hempty);
        rewrite Hnone, Htrace
    end.
    split; [reflexivity|].
    cbn [trace]. rewrite <- !app_assoc. cbn [app].
    eexists. split; [reflexivity|].
    cbn [embed_requests omap list_omap]. fold (embed_requests new). cbn [length].
    split; [now rewrite Hcount|].
    constructor; [|exact Hempty]. cbn [texts].
    unfold Array_slice, relative_index. cbn [Z.of_nat Z.ltb Z.compare].
    rewrite Z.sub_diag. reflexivity.
Qed.



(** X9: the result of [embedDocumentsInBatches] is what the provider
    answered, batch after batch; it holds one embedding for each document
    whenever the provider answers every request with as many embeddings as
    the request has texts.  The file system is left as it was. *)
Theorem embedDocumentsInBatches_result (cohere : CohereClient) (documents : list Document)
    (batchSize : nat) (w : World) (all : list (list float)) :
  (1 <= batchSize)%nat ->
  fst (embedDocumentsInBatches cohere documents batchSize w) = Normal (Some all) ->
  all = concat (map embeddings
                  (embed_responses
                     (events_of (embedDocumentsInBatches cohere documents batchSize) w))) /\
  fs (snd (embedDocumentsInBatches cohere documents batchSize w)) = fs w /\
  ((forall t r response,
      embed cohere t r = Normal response ->
      length (embeddings response) = length (texts r)) ->
   length all = length documents).
Proof.
  intros Hsize Hrun. unfold events_of, embedDocumentsInBatches in *.
  destruct (embed_from_run cohere documents batchSize Hsize _ 0 [] w all Hrun)
    as (new & -> & Hfs & Htexts & _ & Hall & Hpairs & _ & _).
  rewrite drop_app_length. split; [exact Hall|]. split; [exact Hfs|].
  intros Hevery. rewrite Hall. cbn [app].
  change (skipn 0 documents) with documents in Htexts.
  rewrite <- (length_map embedding_text documents), <- Htexts.
  apply Forall2_concat_length.
  eapply Forall2_impl; [exact Hpairs|].
  intros r response [t Ht]. exact (Hevery t r response Ht).
Qed.

Lemma embedDocumentsInBatches_result_witness :
  (1 <= 96)%nat /\
  fst (embedDocumentsInBatches Sample2.cohere_each
         [document Sample.diagonal; document Sample.slanted] 96 Sample.empty_world)
    = Normal (Some [Sample.query; Sample.query]) /\
  (forall t r response,
     embed Sample2.cohere_each t r = Normal response ->
     length (embeddings response) = length (texts r)) /\
  length [Sample.query; Sample.query] =
    length [document Sample.diagonal; document Sample.slanted].
Proof.
  assert (Hsize : (1 <= 96)%nat) by lia.
  assert (Hrun : fst (embedDocumentsInBatches Sample2.cohere_each
                        [document Sample.diagonal; document Sample.slanted] 96
                        Sample.empty_world)
                 = Normal (Some [Sample.query; Sample.query])) by reflexivity.
  assert (Hevery : forall t r response,
             embed Sample2.cohere_each t r = Normal response ->
             length (embeddings response) = length (texts r))
    by (intros t r response [= <-]; cbn; apply length_map).
  split; [exact Hsize|]. split; [exact Hrun|]. split; [exact Hevery|].
  exact (proj2 (proj2 (embedDocumentsInBatches_result Sample2.cohere_each
                         [document Sample.diagonal; document Sample.slanted] 96
                         Sample.empty_world [Sample.query; Sample.query] Hsize Hrun))
           Hevery).
Defined.

(** X10: when a call to the provider fails, [embedDocumentsInBatches]
    throws the provider's error; the failed call is the first to fail and the
    last thing the run does, and the embeddings received before it are not
    handed over. *)
Theorem embedDocumentsInBatches_failure (cohere : CohereClient) (documents : list Document)
    (batchSize : nat) (w : World) (e : JsError) :
  fst (embedDocumentsInBatches cohere documents batchSize w) = Throw e ->
  exists (before : list Event) (request : EmbedRequest),
    events_of (embedDocumentsInBatches cohere documents batchSize) w =
      before ++ [Embed request (Throw e)] /\
    Forall (fun ev => ~ call_failed ev) before /\
    fs (snd (embedDocumentsInBatches cohere documents batchSize w)) = fs w.
Proof.
  intros Hrun. unfold events_of, embedDocumentsInBatches in *.
  destruct (embed_from_failure cohere documents batchSize _ 0 [] w e Hrun)
    as (before & request & -> & Hfs & Hok).
  rewrite drop_app_length. eauto.
Qed.

Lemma embedDocumentsInBatches_failure_witness :
  fst (embedDocumentsInBatches Sample.cohere_down [document Sample.diagonal] 96
         Sample.empty_world) = Throw (ProviderError "429 Too Many Requests") /\
  exists (before : list Event) (request : EmbedRequest),
    events_of (embedDocumentsInBatches Sample.cohere_down [document Sample.diagonal] 96)
      Sample.empty_world = before ++ [Embed request (Throw (ProviderError "429 Too Many Requests"))].
Proof.
  assert (Hrun : fst (embedDocumentsInBatches Sample.cohere_down [document Sample.diagonal] 96
                        Sample.empty_world) = Throw (ProviderError "429 Too Many Requests"))
    by reflexivity.
  split; [exact Hrun|].
  destruct (embedDocumentsInBatches_failure Sample.cohere_down [document Sample.diagonal] 96
              Sample.empty_world _ Hrun) as (before & request & Hevents & _).
  now exists before, request.
Defined.

(** X11: a batch size of 0 makes the loop endless.  With documents to embed
    and a provider that answers, the loop has not ended after any number of
    rounds, and every round sends a request without texts. *)
Theorem embedDocumentsInBatches_zero_batch (cohere : CohereClient)
    (documents : list Document) (w : World) (rounds : nat) :
  documents <> [] ->
  (forall t r, exists response, embed cohere t r = Normal response) ->
  fst (embed_from rounds cohere documents 0 0 [] w) = Normal None /\
  length (embed_requests (events_of (embed_from rounds cohere documents 0 0 []) w)) = rounds /\
  Forall (fun r => texts r = [])
    (embed_requests (events_of (embed_from rounds cohere documents 0 0 []) w)) /\
  fst (embedDocumentsInBatches cohere documents 0 w) = Normal None.
Proof.
  intros Hdocs Hup. unfold events_of, embedDocumentsInBatches.
  destruct (embed_from_zero cohere documents Hdocs Hup rounds [] w)
    as (Hnone & new & -> & Hcount & Hempty).
  rewrite drop_app_length. repeat split; try assumption.
  exact (proj1 (embed_from_zero cohere documents Hdocs Hup (length documents) [] w)).
Qed.

Lemma embedDocumentsInBatches_zero_batch_witness :
  [document Sample.diagonal] <> [] /\
  (forall t r, exists response, embed Sample.cohere_up t r = Normal response) /\
  fst (embed_from 7 Sample.cohere_up [document Sample.diagonal] 0 0 [] Sample.empty_world)
    = Normal None.
Proof.
  assert (Hdocs : [document Sample.diagonal] <> []) by discriminate.
  assert (Hup : forall t r, exists response, embed Sample.cohere_up t r = Normal response)
    by (intros t r; eexists; reflexivity).
  split; [exact Hdocs|]. split; [exact Hup|].
  exact (proj1 (embedDocumentsInBatches_zero_batch Sample.cohere_up [document Sample.diagonal]
                  Sample.empty_world 7 Hdocs Hup)).
Defined.

(** ** Embedding Cache: reading and writing the file *)

Lemma map_completion_Normal {A B : Type} (callback : A -> Completion B) (items : list A) :
  (exists bs, map_completion callback items = Normal bs) <->
  Forall (fun item => exists b, callback item = Normal b) items.
Proof.
  induction items as [|item items IH]; cbn [map_completion].
  - split; [constructor | eauto].
  - split.
    + intros [bs H]. destruct (callback item) as [b|e] eqn:Hb; [|discriminate].
      cbn [bind_completion] in H.
      destruct (map_completion callback items) as [bs'|e]; [|discriminate].
      constructor; [eauto | apply IH; eauto].
    + intros [[b ->] [bs ->]%IH]%Forall_cons. cbn. eauto.
Qed.

Lemma loaded_document_Normal (item : jsval) :
  (exists d, loaded_document item = Normal d) <-> item <> JNull.
Proof.
  destruct item; cbn; split; try congruence; eauto; intros [d H]; discriminate.
Qed.

Lemma classic_In_JNull (items : list jsval) : In JNull items \/ ~ In JNull items.
Proof.
  induction items as [|item items [IH | IH]]; [now right | left; now right |].
  destruct item; try (right; intros [H | H]; [discriminate | contradiction]).
  left. now left.
Qed.

(** Every run of [loadEmbeddingsFromFile] ends normally, and only reads. *)
Lemma loadEmbeddingsFromFile_run (JSON : JSONLib) (w : World) :
  fs (snd (loadEmbeddingsFromFile JSON w)) = fs w /\
  ((exists (content : string) (items : list jsval) (loaded : list Loaded.Document),
      readable w EMBEDDINGS_FILE = Some content /\
      parse JSON content = Some (JArr items) /\
      map_completion loaded_document items = Normal loaded /\
      fst (loadEmbeddingsFromFile JSON w) = Normal (Some loaded) /\
      events_of (loadEmbeddingsFromFile JSON) w =
        [Console "log" [Text "Loaded "; Val (Some (JNum (number_of_nat (length items))));
                        Text (" embeddings from " +:+ EMBEDDINGS_FILE)]]) \/
   (fst (loadEmbeddingsFromFile JSON w) = Normal None /\
    (forall (content : string) (items : list jsval),
       readable w EMBEDDINGS_FILE = Some content ->
       parse JSON content = Some (JArr items) -> In JNull items) /\
    exists before : list Event,
      events_of (loadEmbeddingsFromFile JSON) w =
        before ++ [Console "warn"
                     [Text "No existing embeddings file found. Will compute embeddings."]] /\
      provider_calls before = [])).
Proof.
  unfold events_of, loadEmbeddingsFromFile, readable. run_io.
  destruct (fs w !! EMBEDDINGS_FILE) as [[content|]|] eqn:Hfile; cbn [fst snd fs trace];
    try (split; [reflexivity|]; right; split; [reflexivity|]; split; [discriminate|];
         exists []; now rewrite drop_app_length).
  destruct (parse JSON content) as [v|] eqn:Hparse; cbn [fst snd fs trace];
    [|split; [reflexivity|]; right; split; [reflexivity|];
      split; [intros ? ? [= <-]; congruence|];
      exists []; now rewrite drop_app_length].
  destruct v as [|b|x|s|items|props]; cbn [length_property map_loaded fst snd fs trace];
    try (split; [reflexivity|]; right; split; [reflexivity|];
         split; [intros ? ? [= <-]; congruence|];
         rewrite <- ?app_assoc, drop_app_length; cbn [app];
         first [now exists [] | eexists [_]; split; reflexivity]).
  destruct (map_completion loaded_document items) as [loaded|e] eqn:Hmap;
    cbn [fst snd fs trace]; (split; [reflexivity|]).
  - left. exists content, items, loaded. rewrite drop_app_length. auto.
  - right. split; [reflexivity|]. split.
    + intros content' items' [= <-] Hp. rewrite Hparse in Hp. injection Hp as <-.
      destruct (classic_In_JNull items) as [Hin | Hout]; [exact Hin|].
      exfalso.
      assert (Hall : Forall (fun item => exists d, loaded_document item = Normal d) items).
      { apply List.Forall_forall. intros item Hitem. apply loaded_document_Normal.
        intros ->. exact (Hout Hitem). }
      apply map_completion_Normal in Hall as [bs Hbs]. congruence.
    + rewrite <- ?app_assoc, drop_app_length. cbn [app].
      eexists [_]. split; reflexivity.
Qed.

Lemma loadEmbeddingsFromFile_never_throws_run (JSON : JSONLib) (w : World) :
  fs (snd (loadEmbeddingsFromFile JSON w)) = fs w /\
  exists result, fst (loadEmbeddingsFromFile JSON w) = Normal result.
Proof.
  destruct (loadEmbeddingsFromFile_run JSON w)
    as [Hfs [(content & items & loaded & _ & _ & _ & Hrun & _) | (Hrun & _)]]; eauto.
Qed.

Lemma no_null_loaded (items : list jsval) :
  (exists loaded, map_completion loaded_document items = Normal loaded) <-> ~ In JNull items.
Proof.
  rewrite map_completion_Normal, List.Forall_forall. split.
  - intros H Hin. now apply (proj1 (loaded_document_Normal JNull) (H JNull Hin)).
  - intros H item Hitem. apply loaded_document_Normal. intros ->. exact (H Hitem).
Qed.

(** X12: [loadEmbeddingsFromFile] never throws and never writes: it leaves
    the file system as it is and calls no provider.  It returns documents
    exactly when the cache file can be read and holds a JSON array without a
    [null] item, whatever else the items are; in every other case it returns
    [null], after the warning that no file was found. *)
Theorem loadEmbeddingsFromFile_never_throws (JSON : JSONLib) (w : World) :
  fs (snd (loadEmbeddingsFromFile JSON w)) = fs w /\
  provider_calls (events_of (loadEmbeddingsFromFile JSON) w) = [] /\
  (exists result, fst (loadEmbeddingsFromFile JSON w) = Normal result) /\
  ((exists loaded, fst (loadEmbeddingsFromFile JSON w) = Normal (Some loaded)) <->
   (exists (content : string) (items : list jsval),
      readable w EMBEDDINGS_FILE = Some content /\
      parse JSON content = Some (JArr items) /\
      ~ In JNull items)) /\
  (fst (loadEmbeddingsFromFile JSON w) = Normal None ->
   exists before : list Event,
     events_of (loadEmbeddingsFromFile JSON) w =
       before ++ [Console "warn"
                    [Text "No existing embeddings file found. Will compute embeddings."]]).
Proof.
  destruct (loadEmbeddingsFromFile_run JSON w)
    as [Hfs [(content & items & loaded & Hread & Hparse & Hmap & Hrun & Hevents)
            | (Hrun & Hnull & before & Hevents & Hcalls)]];
    (split; [exact Hfs|]); rewrite Hrun, Hevents.
  - split; [reflexivity|]. split; [eauto|]. split; [|discriminate].
    split; [intros _ | eauto].
    exists content, items. repeat split; try assumption.
    apply no_null_loaded. eauto.
  - split.
    { unfold provider_calls in *. rewrite List.filter_app, Hcalls. reflexivity. }
    split; [eauto|]. split; [|eauto].
    split; [intros [loaded H]; discriminate|].
    intros (content & items & Hread & Hparse & Hitems).
    exfalso. exact (Hitems (Hnull content items Hread Hparse)).
Qed.

Lemma loadEmbeddingsFromFile_never_throws_witness :
  fst (loadEmbeddingsFromFile MiniJSON.JSON Sample2.null_item_world) = Normal None /\
  exists before : list Event,
    events_of (loadEmbeddingsFromFile MiniJSON.JSON) Sample2.null_item_world =
      before ++ [Console "warn"
                   [Text "No existing embeddings file found. Will compute embeddings."]].
Proof.
  assert (H : fst (loadEmbeddingsFromFile MiniJSON.JSON Sample2.null_item_world) = Normal None)
    by (vm_compute; reflexivity).
  split; [exact H|].
  exact (proj2 (proj2 (proj2 (proj2
           (loadEmbeddingsFromFile_never_throws MiniJSON.JSON Sample2.null_item_world)))) H).
Defined.

(** X13: [saveEmbeddingsToFile] touches one path: every other path of the
    file system is left as it is, however the write ends.  Where a directory
    stands at the path of the cache file it throws [EISDIR] and changes
    nothing.  When it returns, the cache file holds the JSON text of the
    records and one line has gone to the console; when it throws, none
    has. *)
Theorem saveEmbeddingsToFile_one_path (JSON : JSONLib) (documents : list EmbeddedDocument)
    (w : World) :
  (fs w !! EMBEDDINGS_FILE = Some Directory ->
   saveEmbeddingsToFile JSON documents w = (Throw (SystemError "EISDIR" EMBEDDINGS_FILE), w)) /\
  (fst (saveEmbeddingsToFile JSON documents w) = Normal tt ->
   fs (snd (saveEmbeddingsToFile JSON documents w)) !! EMBEDDINGS_FILE =
     Some (File (stringify JSON (JArr (map cache_record documents)))) /\
   events_of (saveEmbeddingsToFile JSON documents) w =
     [Console "log" [Text ("Embeddings saved to " +:+ EMBEDDINGS_FILE)]]) /\
  (forall e : JsError,
     fst (saveEmbeddingsToFile JSON documents w) = Throw e ->
     events_of (saveEmbeddingsToFile JSON documents) w = []) /\
  (forall path : string,
     path <> EMBEDDINGS_FILE ->
     fs (snd (saveEmbeddingsToFile JSON documents w)) !! path = fs w !! path).
Proof.
  split; [|split; [|split]].
  - intros Hdir. unfold saveEmbeddingsToFile. run_io. now rewrite Hdir.
  - unfold events_of, saveEmbeddingsToFile. run_io.
    destruct (fs w !! EMBEDDINGS_FILE) as [[content|]|]; cbn [fst snd fs trace];
      try discriminate; intros _; rewrite lookup_insert_eq, drop_app_length; auto.
  - intros e. unfold events_of, saveEmbeddingsToFile. run_io.
    destruct (fs w !! EMBEDDINGS_FILE) as [[content|]|]; cbn [fst snd fs trace];
      try discriminate; intros _; apply skipn_all.
  - intros path Hpath. unfold saveEmbeddingsToFile. run_io.
    destruct (fs w !! EMBEDDINGS_FILE) as [[content|]|]; cbn [fst snd fs];
      try reflexivity; now rewrite lookup_insert_ne.
Qed.

Lemma saveEmbeddingsToFile_one_path_witness :
  (fs Sample2.directory_world !! EMBEDDINGS_FILE = Some Directory /\
   saveEmbeddingsToFile MiniJSON.JSON Sample.exact_corpus Sample2.directory_world =
     (Throw (SystemError "EISDIR" EMBEDDINGS_FILE), Sample2.directory_world)) /\
  (fst (saveEmbeddingsToFile MiniJSON.JSON Sample.exact_corpus Sample2.library) = Normal tt /\
   events_of (saveEmbeddingsToFile MiniJSON.JSON Sample.exact_corpus) Sample2.library =
     [Console "log" [Text ("Embeddings saved to " +:+ EMBEDDINGS_FILE)]]).
Proof.
  assert (H : fs Sample2.directory_world !! EMBEDDINGS_FILE = Some Directory)
    by (vm_compute; reflexivity).
  assert (H' : fst (saveEmbeddingsToFile MiniJSON.JSON Sample.exact_corpus Sample2.library)
               = Normal tt)
    by (vm_compute; reflexivity).
  split; (split; [assumption|]).
  - exact (proj1 (saveEmbeddingsToFile_one_path MiniJSON.JSON Sample.exact_corpus
                    Sample2.directory_world) H).
  - exact (proj2 (proj1 (proj2 (saveEmbeddingsToFile_one_path MiniJSON.JSON
                                  Sample.exact_corpus Sample2.library)) H')).
Defined.

(** ** Chat Orchestrator: every path through the handler *)

Lemma getTopKDocuments_In (q : list float) (documents : list EmbeddedDocument) (k : Z) :
  Forall (fun d => In d documents) (getTopKDocuments q documents k).
Proof.
  rewrite getTopKDocuments_sort, Array_slice_prefix.
  apply List.Forall_forall. intros d Hd%list_elem_of_In%subseteq_take%list_elem_of_In.
  eapply Permutation_in; [apply Array_sort_Permutation | exact Hd].
Qed.

Lemma call_getTopKDocuments_Normal (queryEmbedding : option (list float))
    (cachedDocuments : option (list EmbeddedDocument)) (k : Z)
    (topDocuments : list EmbeddedDocument) :
  (0 <= k)%Z ->
  call_getTopKDocuments queryEmbedding cachedDocuments k = Normal topDocuments ->
  exists documents : list EmbeddedDocument,
    cachedDocuments = Some documents /\
    (Z.of_nat (length topDocuments) <= k)%Z /\
    Forall (fun d => In d documents) topDocuments /\
    (queryEmbedding = None -> documents = []) /\
    (forall q, queryEmbedding = Some q -> topDocuments = getTopKDocuments q documents k).
Proof.
  intros Hk Hcall.
  assert (Hsome : forall q documents,
             (Z.of_nat (length (getTopKDocuments q documents k)) <= k)%Z)
    by (intros q documents; rewrite getTopKDocuments_length by assumption; lia).
  unfold call_getTopKDocuments in Hcall.
  destruct cachedDocuments as [documents|]; [|discriminate].
  exists documents. split; [reflexivity|].
  destruct queryEmbedding as [q|], documents as [|d documents];
    try discriminate; injection Hcall as <-.
  - repeat split; try apply Hsome; try apply getTopKDocuments_In; try discriminate;
      try (intros q' H; now injection H as <-).
  - repeat split; try apply Hsome; try apply getTopKDocuments_In; try discriminate;
      try (intros q' H; now injection H as <-).
  - repeat split; try constructor; try discriminate. cbn. lia.
Qed.

Section Handlers.

Variable cohere : CohereClient.
Variable cachedDocuments : option (list EmbeddedDocument).

(** The runs of the handler on a prompt that is a string. *)
Lemma V2_post_generate_string (s : string) (w : World) :
  s <> "" ->
  let request := {| texts := [JStr s]; model := "embed-multilingual-v3.0";
                    input_type := "search_query" |} in
  let run := V2.post_generate cohere cachedDocuments {| prompt := Some (JStr s) |} in
  fs (snd (run w)) = fs w /\
  ((exists e, fst (run w) = Normal upstream_failure /\
              provider_calls (events_of run w) = [Embed request (Throw e)]) \/
   (exists embedResponse e,
      call_getTopKDocuments (nth_error (embeddings embedResponse) 0) cachedDocuments 5
        = Throw e /\
      fst (run w) = Normal upstream_failure /\
      provider_calls (events_of run w) = [Embed request (Normal embedResponse)]) \/
   (exists embedResponse topDocuments outcome,
      call_getTopKDocuments (nth_error (embeddings embedResponse) 0) cachedDocuments 5
        = Normal topDocuments /\
      provider_calls (events_of run w) =
        [Embed request (Normal embedResponse);
         Chat (chat_request (JStr s) topDocuments) outcome] /\
      match outcome with
      | Normal response =>
          fst (run w) =
            Normal {| status := 200;
                      body := GenerateBody (text response) (citations_or_empty response) |}
      | Throw _ => fst (run w) = Normal upstream_failure
      end)).
Proof.
  intros Hs request run. subst run. unfold events_of, V2.post_generate.
  cbn [prompt truthy].
  replace (String.eqb s "") with false by (symmetry; now apply String.eqb_neq).
  cbn [negb]. run_io. cbn [V2.prompt_start]. fold request.
  destruct (embed cohere _ request) as [embedResponse|e];
    [|split; [reflexivity|]; left; exists e; split; [reflexivity|];
      new_events; reflexivity].
  destruct (call_getTopKDocuments _ cachedDocuments 5) as [topDocuments|e] eqn:Htop;
    [|split; [reflexivity|]; right; left; exists embedResponse, e;
      split; [exact Htop|]; split; [reflexivity|]; new_events; reflexivity].
  destruct (chat cohere _ (chat_request (JStr s) topDocuments)) as [response|e] eqn:Hchat;
    (split; [reflexivity|]); right; right; exists embedResponse, topDocuments.
  - exists (Normal response). split; [exact Htop|].
    split; [new_events; reflexivity | reflexivity].
  - exists (Throw e). split; [exact Htop|].
    split; [new_events; reflexivity | reflexivity].
Qed.

(** A prompt that is no string. *)
Lemma V2_post_generate_no_string (p : jsval) (w : World) :
  truthy (Some p) = true -> (forall s, p <> JStr s) ->
  V2.post_generate cohere cachedDocuments {| prompt := Some p |} w =
  (Normal upstream_failure,
   {| fs := fs w;
      trace := trace w ++
        [Console "error" [Text "Error communicating with Cohere API:";
                          Err (TypeError "prompt.substring is not a function")]] |}).
Proof.
  intros Hp Hs. unfold V2.post_generate. cbn [prompt]. rewrite Hp. run_io.
  destruct p as [|b|x|s|elems|props]; try reflexivity. now destruct (Hs s).
Qed.

End Handlers.

Lemma chat_requests_provider_calls (events : list Event) :
  chat_requests (provider_calls events) = chat_requests events.
Proof.
  unfold chat_requests, provider_calls.
  induction events as [|[level args | request outcome | request outcome | ms] events IH];
    cbn; rewrite ?IH; reflexivity.
Qed.

Lemma request_cases (req : Request) :
  truthy (prompt req) = false \/
  (exists s, req = {| prompt := Some (JStr s) |} /\ s <> "") \/
  (exists p, req = {| prompt := Some p |} /\ truthy (Some p) = true /\ forall s, p <> JStr s).
Proof.
  destruct req as [[p|]]; [|now left]. cbn [prompt].
  destruct (truthy (Some p)) eqn:Hp; [|now left]. right.
  destruct p as [|b|x|s|elems|props];
    try (right; eexists; split; [reflexivity|]; split; [exact Hp | discriminate]).
  left. exists s. split; [reflexivity|]. intros ->. discriminate Hp.
Qed.

(** X14: the second copy's handler answers 200 only after both provider
    calls succeeded.  Then the prompt is a string that is not empty, the
    corpus is loaded, the run has made two provider calls, the embedding of
    the prompt as a query and then the chat, and the chat request carries the
    prompt and the texts of at most 5 documents of the corpus, the ones
    [getTopKDocuments] ranks first; the answer holds the text of the chat
    response and its citations, or no citations where it has none. *)
Theorem V2_generate_answer (cohere : CohereClient)
    (cachedDocuments : option (list EmbeddedDocument)) (req : Request) (w : World)
    (answer : string) (cited : list Citation) :
  fst (V2.post_generate cohere cachedDocuments req w) =
    Normal {| status := 200; body := GenerateBody answer cited |} ->
  exists (s : string) (documents topDocuments : list EmbeddedDocument)
         (embedResponse : EmbedResponse) (response : ChatResponse),
    prompt req = Some (JStr s) /\ s <> "" /\
    cachedDocuments = Some documents /\
    provider_calls (events_of (V2.post_generate cohere cachedDocuments req) w) =
      [Embed {| texts := [JStr s]; model := "embed-multilingual-v3.0";
                input_type := "search_query" |} (Normal embedResponse);
       Chat (chat_request (JStr s) topDocuments) (Normal response)] /\
    (Z.of_nat (length topDocuments) <= 5)%Z /\
    Forall (fun d => In d documents) topDocuments /\
    (forall q, nth_error (embeddings embedResponse) 0 = Some q ->
               topDocuments = getTopKDocuments q documents 5) /\
    answer = text response /\ cited = citations_or_empty response.
Proof.
  intros Hrun.
  destruct (request_cases req) as [Hfalsy | [(s & -> & Hs) | (p & -> & Hp & Hno)]].
  - pose proof (post_generate_falsy cohere cachedDocuments req Hfalsy) as H.
    rewrite H in Hrun. discriminate Hrun.
  - destruct (V2_post_generate_string cohere cachedDocuments s w Hs)
      as [_ [(e & H & _) | [(embedResponse & e & _ & H & _)
                           | (embedResponse & topDocuments & outcome & Htop & Hcalls & H)]]];
      try (rewrite H in Hrun; discriminate Hrun).
    destruct outcome as [response|e]; [|rewrite H in Hrun; discriminate Hrun].
    rewrite H in Hrun. injection Hrun as <- <-.
    destruct (call_getTopKDocuments_Normal _ _ 5 topDocuments ltac:(lia) Htop)
      as (documents & -> & Hlen & Hin & _ & Hq).
    exists s, documents, topDocuments, embedResponse, response. repeat split; auto.
  - rewrite (V2_post_generate_no_string cohere cachedDocuments p w Hp Hno) in Hrun.
    discriminate Hrun.
Qed.

Lemma V2_generate_answer_witness :
  fst (V2.post_generate Sample.cohere_up (Some Sample.corpus)
         {| prompt := Some (JStr "Who is Mr Darcy?") |} Sample.empty_world) =
    Normal {| status := 200; body := GenerateBody "Elizabeth Bennet." [] |} /\
  exists (s : string) (documents topDocuments : list EmbeddedDocument)
         (embedResponse : EmbedResponse) (response : ChatResponse),
    prompt {| prompt := Some (JStr "Who is Mr Darcy?") |} = Some (JStr s) /\ s <> "" /\
    Some Sample.corpus = Some documents /\
    provider_calls
      (events_of (V2.post_generate Sample.cohere_up (Some Sample.corpus)
                    {| prompt := Some (JStr "Who is Mr Darcy?") |}) Sample.empty_world) =
      [Embed {| texts := [JStr s]; model := "embed-multilingual-v3.0";
                input_type := "search_query" |} (Normal embedResponse);
       Chat (chat_request (JStr s) topDocuments) (Normal response)].
Proof.
  assert (H : fst (V2.post_generate Sample.cohere_up (Some Sample.corpus)
                     {| prompt := Some (JStr "Who is Mr Darcy?") |} Sample.empty_world) =
              Normal {| status := 200; body := GenerateBody "Elizabeth Bennet." [] |})
    by (vm_compute; reflexivity).
  split; [exact H|].
  destruct (V2_generate_answer Sample.cohere_up (Some Sample.corpus)
              {| prompt := Some (JStr "Who is Mr Darcy?") |} Sample.empty_world
              "Elizabeth Bennet." [] H)
    as (s & documents & topDocuments & embedResponse & response
        & Hprompt & Hs & Hdocs & Hcalls & _).
  exists s, documents, topDocuments, embedResponse, response. auto.
Defined.

(** X15: the second copy's handler calls [substring] on the prompt before
    anything else, so a prompt that is truthy and no string (a number, an
    array, an object, [true]) is answered with status 500 and the generic
    message, and no provider is called. *)
Theorem V2_generate_prompt_not_string (cohere : CohereClient)
    (cachedDocuments : option (list EmbeddedDocument)) (p : jsval) (w : World) :
  truthy (Some p) = true ->
  (forall s, p <> JStr s) ->
  fst (V2.post_generate cohere cachedDocuments {| prompt := Some p |} w) =
    Normal {| status := 500; body := ErrorBody "Cohere request failed" |} /\
  provider_calls
    (events_of (V2.post_generate cohere cachedDocuments {| prompt := Some p |}) w) = [] /\
  fs (snd (V2.post_generate cohere cachedDocuments {| prompt := Some p |} w)) = fs w.
Proof.
  intros Hp Hno. unfold events_of.
  rewrite (V2_post_generate_no_string cohere cachedDocuments p w Hp Hno).
  cbn [fst snd fs trace]. rewrite drop_app_length. auto.
Qed.

Lemma V2_generate_prompt_not_string_witness :
  truthy (Some (JNum 42)) = true /\
  (forall s, JNum 42 <> JStr s) /\
  fst (V2.post_generate Sample.cohere_up (Some Sample.corpus) {| prompt := Some (JNum 42) |}
         Sample.empty_world) =
    Normal {| status := 500; body := ErrorBody "Cohere request failed" |}.
Proof.
  assert (Hp : truthy (Some (JNum 42)) = true) by reflexivity.
  assert (Hno : forall s, JNum 42 <> JStr s) by discriminate.
  split; [exact Hp|]. split; [exact Hno|].
  exact (proj1 (V2_generate_prompt_not_string Sample.cohere_up (Some Sample.corpus) (JNum 42)
                  Sample.empty_world Hp Hno)).
Defined.

(** X16: the handler of [/generate] always answers.  For every request
    body, every provider whose calls settle and every state of the corpus, it
    ends without throwing, with a response whose status is 200, 400 or 500,
    after at most two provider calls, and it leaves the file system as it
    is. *)
Theorem post_generate_always_answers (cohere : CohereClient)
    (cachedDocuments : option (list EmbeddedDocument)) (req : Request) (w : World) :
  (exists r, fst (V2.post_generate cohere cachedDocuments req w) = Normal r /\
             (status r = 200 \/ status r = 400 \/ status r = 500)%Z) /\
  fs (snd (V2.post_generate cohere cachedDocuments req w)) = fs w /\
  (length (provider_calls (events_of (V2.post_generate cohere cachedDocuments req) w))
     <= 2)%nat.
Proof.
  destruct (request_cases req) as [Hfalsy | [(s & -> & Hs) | (p & -> & Hp & Hno)]].
  - pose proof (post_generate_falsy cohere cachedDocuments req Hfalsy) as H.
    rewrite H, events_of_nothing. answered.
  - destruct (V2_post_generate_string cohere cachedDocuments s w Hs)
      as [Hfs [(e & H & Hc) | [(embedResponse & e & _ & H & Hc)
                              | (embedResponse & topDocuments & outcome & _ & Hc & H)]]];
      rewrite Hc; try (rewrite H; answered).
    destruct outcome; rewrite H; answered.
  - unfold events_of.
    rewrite (V2_post_generate_no_string cohere cachedDocuments p w Hp Hno).
    cbn [fst snd fs trace]. rewrite drop_app_length. answered.
Qed.

(** X17: a corpus that is not there.  While [cachedDocuments] is [null],
    a request whose prompt is a string and not empty is answered with status
    500, and no chat request is sent; with an empty corpus a chat request
    that is sent carries no documents. *)
Theorem generate_without_corpus (cohere : CohereClient) (s : string) (w : World) :
  s <> "" ->
  fst (V2.post_generate cohere None {| prompt := Some (JStr s) |} w)
    = Normal upstream_failure /\
  chat_requests (events_of (V2.post_generate cohere None {| prompt := Some (JStr s) |}) w)
    = [] /\
  Forall (fun request => documents request = [])
    (chat_requests
       (events_of (V2.post_generate cohere (Some []) {| prompt := Some (JStr s) |}) w)).
Proof.
  intros Hs. split; [|split].
  - destruct (V2_post_generate_string cohere None s w Hs)
      as [_ [(e & H & _) | [(embedResponse & e & _ & H & _)
                           | (embedResponse & topDocuments & outcome & Htop & _)]]];
      [exact H | exact H | discriminate Htop].
  - destruct (V2_post_generate_string cohere None s w Hs)
      as [_ [(e & _ & Hc) | [(embedResponse & e & _ & _ & Hc)
                            | (embedResponse & topDocuments & outcome & Htop & _)]]];
      [| |discriminate Htop];
      rewrite <- chat_requests_provider_calls, Hc; reflexivity.
  - destruct (V2_post_generate_string cohere (Some []) s w Hs)
      as [_ [(e & _ & Hc) | [(embedResponse & e & _ & _ & Hc)
                            | (embedResponse & topDocuments & outcome & Htop & Hc & _)]]];
      rewrite <- chat_requests_provider_calls, Hc; cbn; try constructor; [|constructor].
    destruct (call_getTopKDocuments_Normal _ _ 5 topDocuments ltac:(lia) Htop)
      as (documents & [= <-] & _ & Hin & _).
    destruct topDocuments as [|d ?]; [reflexivity|].
    apply Forall_cons in Hin as [[] _].
Qed.

Lemma generate_without_corpus_witness :
  "Who is Mr Darcy?" <> "" /\
  fst (V2.post_generate Sample.cohere_up None {| prompt := Some (JStr "Who is Mr Darcy?") |}
         Sample.empty_world) = Normal upstream_failure.
Proof.
  assert (Hs : "Who is Mr Darcy?" <> "") by discriminate.
  split; [exact Hs|].
  exact (proj1 (generate_without_corpus Sample.cohere_up "Who is Mr Darcy?"
                  Sample.empty_world Hs)).
Defined.

(** ** Initializing the corpus *)

Lemma loadDocuments_from_run (files : list string) (w : World) :
  loadDocuments_from files w =
  (Normal (documents_of w files),
   {| fs := fs w;
      trace := trace w ++ read_failures w files ++
               [Console "log" [Text "Loaded ";
                               Num (number_of_nat (length (documents_of w files)));
                               Text " documents"]] |}).
Proof.
  unfold loadDocuments_from. unfold bind at 1. rewrite load_each_run.
  cbn [app]. run_io. now rewrite <- app_assoc.
Qed.

Lemma embed_from_fs (cohere : CohereClient) (documents : list Document) (batchSize : nat) :
  forall (fuel i : nat) (acc : list (list float)) (w : World),
    fs (snd (embed_from fuel cohere documents batchSize i acc w)) = fs w.
Proof.
  induction fuel as [|fuel IH]; intros i acc w; cbn [embed_from];
    destruct (i <? length documents)%nat; try reflexivity.
  run_io.
  match goal with
  | |- context [embed cohere ?t ?r] => destruct (embed cohere t r) as [response|e]
  end; [|reflexivity].
  now rewrite IH.
Qed.

(** A provider that answers lets the loop run to its end. *)
Lemma embed_from_up (cohere : CohereClient) (documents : list Document) (batchSize : nat) :
  (forall t r, exists response, embed cohere t r = Normal response) ->
  forall (fuel i : nat) (acc : list (list float)) (w : World),
  exists result, fst (embed_from fuel cohere documents batchSize i acc w) = Normal result.
Proof.
  intros Hup. induction fuel as [|fuel IH]; intros i acc w; cbn [embed_from];
    destruct (i <? length documents)%nat; try (eexists; reflexivity).
  run_io.
  match goal with
  | |- context [embed cohere ?t ?r] => destruct (Hup t r) as [response ->]
  end.
  apply IH.
Qed.

Lemma embedDocumentsInBatches_up (cohere : CohereClient) (documents : list Document)
    (w : World) :
  (forall t r, exists response, embed cohere t r = Normal response) ->
  exists all, fst (embedDocumentsInBatches cohere documents 96 w) = Normal (Some all).
Proof.
  intros Hup.
  destruct (embed_from_up cohere documents 96 Hup (length documents) 0 [] w) as [[all|] H].
  - now exists all.
  - now apply (embedDocumentsInBatches_ends cohere documents 96 w ltac:(lia)) in H.
Qed.

(** *** The embeddings set on the documents *)

Lemma with_embeddings_documents (documents : list Document) :
  forall allEmbeddings,
    map Fresh.document (with_embeddings documents allEmbeddings) = documents.
Proof.
  induction documents as [|d documents IH]; intros [|e all]; cbn; now rewrite ?IH.
Qed.

Lemma with_embeddings_embeddings (documents : list Document) :
  forall allEmbeddings,
    map Fresh.embedding (with_embeddings documents allEmbeddings) =
    map Some (firstn (length documents) allEmbeddings)
      ++ repeat None (length documents - length allEmbeddings).
Proof.
  induction documents as [|d documents IH]; intros [|e all]; cbn [with_embeddings map length
    firstn repeat app Nat.sub Fresh.embedding]; try reflexivity.
  - specialize (IH []). rewrite firstn_nil, Nat.sub_0_r in IH. cbn [map app] in IH.
    now rewrite IH.
  - now rewrite IH.
Qed.

Lemma with_embeddings_complete (documents : list Document) :
  forall allEmbeddings,
    length allEmbeddings = length documents ->
    with_embeddings documents allEmbeddings =
    map complete (map (fun p => {| document := fst p; embedding := snd p |})
                    (combine documents allEmbeddings)).
Proof.
  induction documents as [|d documents IH]; intros [|e all] Hlen; try discriminate;
    [reflexivity|].
  cbn. rewrite IH by (cbn in Hlen; lia). reflexivity.
Qed.

(** *** The runs of [initializeDocuments] *)

(** What happens once the cache has given [null], step by step. *)
Lemma compute_embeddings_steps (JSON : JSONLib) (cohere : CohereClient) (w : World) :
  compute_embeddings JSON cohere w =
  match embedDocumentsInBatches cohere (documents_of w files) 96
          {| fs := fs w;
             trace := (trace w ++ read_failures w files ++
                       [Console "log" [Text "Loaded ";
                                       Num (number_of_nat (length (documents_of w files)));
                                       Text " documents"]])
                      ++ [Console "log" [Text "Embedding documents..."]] |} with
  | (Normal (Some all), w2) =>
      match set_embeddings (documents_of w files) all with
      | Normal fresh =>
          match fs w2 !! EMBEDDINGS_FILE with
          | Some Directory => (Throw (SystemError "EISDIR" EMBEDDINGS_FILE), w2)
          | _ =>
              (Normal (Some fresh),
               {| fs := <[EMBEDDINGS_FILE :=
                            File (stringify JSON (JArr (map fresh_record fresh)))]> (fs w2);
                  trace := (trace w2
                            ++ [Console "log" [Text ("Embeddings saved to " +:+ EMBEDDINGS_FILE)]])
                           ++ [Console "log" [Text "Embeddings ready."]] |})
          end
      | Throw e => (Throw e, w2)
      end
  | (Normal None, w2) => (Normal None, w2)
  | (Throw e, w2) => (Throw e, w2)
  end.
Proof.
  unfold compute_embeddings, loadDocuments, saveEmbeddingsToFile_fresh. run_io.
  rewrite loadDocuments_from_run. cbn [fst snd fs trace].
  destruct (embedDocumentsInBatches cohere _ 96 _) as [[[all|]|e] w2]; try reflexivity.
  destruct (set_embeddings (documents_of w files) all) as [fresh|e]; [|reflexivity].
  destruct (fs w2 !! EMBEDDINGS_FILE) as [[content|]|]; reflexivity.
Qed.

Lemma compute_embeddings_run (JSON : JSONLib) (cohere : CohereClient) (w : World) :
  (fs (snd (compute_embeddings JSON cohere w)) = fs w /\
   forall fresh, fst (compute_embeddings JSON cohere w) <> Normal (Some fresh)) \/
  exists (all : list (list float)) (fresh : list Fresh.Document),
    set_embeddings (documents_of w files) all = Normal fresh /\
    fs w !! EMBEDDINGS_FILE <> Some Directory /\
    fst (compute_embeddings JSON cohere w) = Normal (Some fresh) /\
    fs (snd (compute_embeddings JSON cohere w)) =
      <[EMBEDDINGS_FILE := File (stringify JSON (JArr (map fresh_record fresh)))]> (fs w).
Proof.
  rewrite compute_embeddings_steps.
  match goal with
  | |- context [embedDocumentsInBatches cohere ?d 96 ?w1] =>
      pose proof (embed_from_fs cohere d 96 (length d) 0 [] w1) as Hfs;
      fold (embedDocumentsInBatches cohere d 96) in Hfs;
      destruct (embedDocumentsInBatches cohere d 96 w1) as [[[all|]|e] w2]
  end; cbn [fst snd fs] in *; try (left; split; [exact Hfs | discriminate]).
  destruct (set_embeddings (documents_of w files) all) as [fresh|e] eqn:Hset;
    cbn [fst snd fs]; [|left; split; [exact Hfs | discriminate]].
  rewrite Hfs.
  destruct (fs w !! EMBEDDINGS_FILE) as [[content|]|] eqn:Hfile; cbn [fst snd fs];
    [right | left; split; [exact Hfs | discriminate] | right];
    exists all, fresh; (split; [exact Hset|]); (split; [discriminate|]);
    (split; reflexivity).
Qed.

Lemma documents_of_fs (w w' : World) (paths : list string) :
  fs w' = fs w -> documents_of w' paths = documents_of w paths.
Proof. intros H. unfold documents_of, readable. now rewrite H. Qed.

Lemma loadEmbeddingsFromFile_trace (JSON : JSONLib) (w : World) :
  trace (snd (loadEmbeddingsFromFile JSON w)) =
  trace w ++ events_of (loadEmbeddingsFromFile JSON) w.
Proof.
  unfold events_of, loadEmbeddingsFromFile. run_io.
  destruct (fs w !! EMBEDDINGS_FILE) as [[content|]|]; cbn [fst snd fs trace];
    try now rewrite drop_app_length.
  destruct (parse JSON content) as [v|]; cbn [fst snd fs trace];
    try now rewrite drop_app_length.
  destruct (length_property v) as [len|e]; cbn [fst snd fs trace];
    try now rewrite drop_app_length.
  destruct (map_loaded v) as [loaded|e]; cbn [fst snd fs trace];
    rewrite <- ?app_assoc; now rewrite drop_app_length.
Qed.

(** The start from a cache file that can be used. *)
Lemma initializeDocuments_warm (JSON : JSONLib) (cohere : CohereClient) (w : World)
    (content : string) (items : list jsval) :
  readable w EMBEDDINGS_FILE = Some content ->
  parse JSON content = Some (JArr items) ->
  ~ In JNull items ->
  exists loaded : list Loaded.Document,
    map_completion loaded_document items = Normal loaded /\
    fst (initializeDocuments JSON cohere w) = (Normal (Some tt), FromFile loaded) /\
    fs (snd (initializeDocuments JSON cohere w)) = fs w /\
    initialize_events JSON cohere w =
      [Console "log" [Text "Loaded "; Val (Some (JNum (number_of_nat (length items))));
                      Text (" embeddings from " +:+ EMBEDDINGS_FILE)]].
Proof.
  intros Hread Hparse Hitems.
  destruct (loadEmbeddingsFromFile_run JSON w)
    as [Hfs [(content' & items' & loaded & Hread' & Hparse' & Hmap & Hrun & Hevents)
            | (_ & Hnull & _)]];
    [|now destruct (Hitems (Hnull content items Hread Hparse))].
  rewrite Hread in Hread'. injection Hread' as <-.
  rewrite Hparse in Hparse'. injection Hparse' as <-.
  exists loaded. split; [exact Hmap|].
  pose proof (loadEmbeddingsFromFile_trace JSON w) as Htrace.
  unfold initialize_events, initializeDocuments.
  destruct (loadEmbeddingsFromFile JSON w) as [c w0]. cbn [fst snd] in *. subst c.
  cbn [fst snd]. rewrite Htrace, Hevents, drop_app_length. auto.
Qed.

(** X18: a start from the cache.  When the cache file can be read and holds
    a JSON array without a [null] item, also an empty array,
    [initializeDocuments] makes [cachedDocuments] the documents of the file,
    one for each item: no provider is called, nothing is written, and the
    one thing the run adds to the trace is the line that says how many
    embeddings were loaded. *)
Theorem initializeDocuments_from_cache (JSON : JSONLib) (cohere : CohereClient) (w : World)
    (content : string) (items : list jsval) :
  readable w EMBEDDINGS_FILE = Some content ->
  parse JSON content = Some (JArr items) ->
  ~ In JNull items ->
  exists loaded : list Loaded.Document,
    map_completion loaded_document items = Normal loaded /\
    length loaded = length items /\
    fst (initializeDocuments JSON cohere w) = (Normal (Some tt), FromFile loaded) /\
    fs (snd (initializeDocuments JSON cohere w)) = fs w /\
    initialize_events JSON cohere w =
      [Console "log" [Text "Loaded "; Val (Some (JNum (number_of_nat (length items))));
                      Text (" embeddings from " +:+ EMBEDDINGS_FILE)]].
Proof.
  intros Hread Hparse Hitems.
  destruct (initializeDocuments_warm JSON cohere w content items Hread Hparse Hitems)
    as (loaded & Hmap & Hrun & Hfs & Hevents).
  exists loaded. repeat split; try assumption.
  clear - Hmap. revert loaded Hmap.
  induction items as [|item items IH]; intros loaded; cbn [map_completion].
  - now intros [= <-].
  - destruct (loaded_document item) as [d|e]; [|discriminate]. cbn [bind_completion].
    destruct (map_completion loaded_document items) as [ds|e]; [|discriminate].
    intros [= <-]. cbn [length]. now rewrite (IH ds).
Qed.

Lemma initializeDocuments_from_cache_witness :
  readable Sample2.cached_world EMBEDDINGS_FILE =
    Some (stringify MiniJSON.JSON (JArr (map cache_record Sample.exact_corpus))) /\
  fst (initializeDocuments MiniJSON.JSON Sample.cohere_down Sample2.cached_world) =
    (Normal (Some tt), FromFile (map as_loaded Sample.exact_corpus)).
Proof.
  assert (Hread : readable Sample2.cached_world EMBEDDINGS_FILE =
                  Some (stringify MiniJSON.JSON (JArr (map cache_record Sample.exact_corpus))))
    by (vm_compute; reflexivity).
  assert (Hparse : parse MiniJSON.JSON
                     (stringify MiniJSON.JSON (JArr (map cache_record Sample.exact_corpus))) =
                   Some (JArr (map JSON_image (map cache_record Sample.exact_corpus))))
    by (vm_compute; reflexivity).
  assert (Hitems : ~ In JNull (map JSON_image (map cache_record Sample.exact_corpus)))
    by (cbn; intuition discriminate).
  split; [exact Hread|].
  destruct (initializeDocuments_from_cache MiniJSON.JSON Sample.cohere_down
              Sample2.cached_world _ _ Hread Hparse Hitems)
    as (loaded & Hmap & _ & Hrun & _).
  rewrite Hrun. do 2 f_equal.
  vm_compute in Hmap. injection Hmap as <-. vm_compute. reflexivity.
Defined.

(** The steps of [initializeDocuments], by what the cache gives. *)
Lemma initializeDocuments_steps (JSON : JSONLib) (cohere : CohereClient) (w : World) :
  exists w0 : World,
    fs w0 = fs w /\
    trace w0 = trace w ++ events_of (loadEmbeddingsFromFile JSON) w /\
    ((exists loaded,
        fst (loadEmbeddingsFromFile JSON w) = Normal (Some loaded) /\
        initializeDocuments JSON cohere w = (Normal (Some tt), FromFile loaded, w0)) \/
     (fst (loadEmbeddingsFromFile JSON w) = Normal None /\
      initializeDocuments JSON cohere w =
        match compute_embeddings JSON cohere w0 with
        | (Normal (Some documents), w) => (Normal (Some tt), Embedded documents, w)
        | (Normal None, w) => (Normal None, NullValue, w)
        | (Throw e, w) => (Throw e, NullValue, w)
        end)).
Proof.
  pose proof (loadEmbeddingsFromFile_trace JSON w) as Htrace.
  destruct (loadEmbeddingsFromFile_never_throws_run JSON w) as [Hfs [result Hrun]].
  unfold initializeDocuments.
  destruct (loadEmbeddingsFromFile JSON w) as [c w0]. cbn [fst snd] in *. subst c.
  exists w0. split; [exact Hfs|]. split; [exact Htrace|].
  destruct result as [loaded|]; [left; now exists loaded | right; auto].
Qed.

Lemma fresh_record_complete (d : EmbeddedDocument) : fresh_record (complete d) = cache_record d.
Proof. reflexivity. Qed.

Lemma map_fresh_record_complete (documents : list EmbeddedDocument) :
  map fresh_record (map complete documents) = map cache_record documents.
Proof. rewrite map_map. apply map_ext, fresh_record_complete. Qed.

Lemma zip_documents {A : Type} (documents : list Document) (all : list (list float)) :
  length all = length documents ->
  map document (map (fun p => {| document := fst p; embedding := snd p |})
                  (combine documents all)) = documents.
Proof.
  intros Hlen. rewrite map_map. cbn [document].
  revert all Hlen. induction documents as [|d documents IH]; intros [|e all] Hlen;
    try discriminate; [reflexivity|].
  cbn. rewrite IH by (cbn in Hlen; lia). reflexivity.
Qed.

(** X19: a start without a cache.  When [loadEmbeddingsFromFile] gives
    [null] and the provider answers every request with one embedding for
    each text, the one step that can still fail is the write of the cache
    file: the run ends normally, or it throws the system error of that write
    and leaves [cachedDocuments] [null] and the file system as it was.  When
    it ends normally, [cachedDocuments] holds the documents [loadDocuments]
    reads, each with an embedding, and the file system differs from the one
    it started in by the cache file, which holds the records of that
    corpus. *)
Theorem initializeDocuments_cold (JSON : JSONLib) (cohere : CohereClient) (w : World) :
  fst (loadEmbeddingsFromFile JSON w) = Normal None ->
  (forall t r, exists response,
      embed cohere t r = Normal response /\
      length (embeddings response) = length (texts r)) ->
  exists corpus : list EmbeddedDocument,
    map document corpus = documents_of w files /\
    (fst (fst (initializeDocuments JSON cohere w)) = Normal (Some tt) \/
     exists code : string,
       fst (initializeDocuments JSON cohere w) =
         (Throw (SystemError code EMBEDDINGS_FILE), NullValue) /\
       fs (snd (initializeDocuments JSON cohere w)) = fs w) /\
    (fst (fst (initializeDocuments JSON cohere w)) = Normal (Some tt) ->
     snd (fst (initializeDocuments JSON cohere w)) = corpus_of corpus /\
     fs (snd (initializeDocuments JSON cohere w)) =
       <[EMBEDDINGS_FILE := File (stringify JSON (JArr (map cache_record corpus)))]> (fs w)).
Proof.
  intros Hmiss Hup.
  destruct (initializeDocuments_steps JSON cohere w)
    as (w0 & Hfs & _ & [(loaded & Hhit & _) | [_ ->]]); [congruence|].
  rewrite compute_embeddings_steps, (documents_of_fs w w0) by exact Hfs.
  set (docs := documents_of w files).
  match goal with
  | |- context [embedDocumentsInBatches cohere docs 96 ?x] => set (w1 := x)
  end.
  assert (Hup' : forall t r, exists response, embed cohere t r = Normal response)
    by (intros t r; destruct (Hup t r) as (response & H & _); eauto).
  destruct (embedDocumentsInBatches_up cohere docs w1 Hup') as [all Hall].
  assert (Hlen : length all = length docs).
  { assert (Hsize : (1 <= 96)%nat) by lia.
    destruct (embed_from_run cohere docs 96 Hsize _ 0 [] w1 all Hall)
      as (new & _ & _ & Htexts & _ & Hacc & Hpairs & _).
    change (skipn 0 docs) with docs in Htexts. cbn [app] in Hacc.
    rewrite Hacc, <- (length_map embedding_text docs), <- Htexts.
    apply Forall2_concat_length. eapply Forall2_impl; [exact Hpairs|].
    intros r response [t Ht]. destruct (Hup t r) as (response' & Ht' & Hr). congruence. }
  pose proof (embed_from_fs cohere docs 96 (length docs) 0 [] w1) as Hfs2.
  fold (embedDocumentsInBatches cohere docs 96) in Hfs2.
  destruct (embedDocumentsInBatches cohere docs 96 w1) as [c w2]. cbn [fst snd] in *.
  subst c. unfold set_embeddings.
  replace (length docs <? length all)%nat with false by (symmetry; apply Nat.ltb_ge; lia).
  rewrite Hfs2. subst w1. cbn [fs]. rewrite Hfs.
  rewrite with_embeddings_complete by assumption.
  set (corpus := map (fun p => {| document := fst p; embedding := snd p |})
                   (combine docs all)).
  exists corpus. split; [exact (zip_documents (A := unit) docs all Hlen)|].
  destruct (fs w !! EMBEDDINGS_FILE) as [[content|]|] eqn:Hnode; cbn [fst snd fs];
    rewrite ?map_fresh_record_complete.
  - split; [left; reflexivity | intros _; split; reflexivity].
  - split; [right; exists "EISDIR"; split; [reflexivity | rewrite Hfs2; exact Hfs] | discriminate].
  - split; [left; reflexivity | intros _; split; reflexivity].
Qed.

Lemma initializeDocuments_cold_witness :
  fst (loadEmbeddingsFromFile MiniJSON.JSON Sample2.library) = Normal None /\
  (forall t r, exists response,
      embed Sample2.cohere_each t r = Normal response /\
      length (embeddings response) = length (texts r)) /\
  fst (fst (initializeDocuments MiniJSON.JSON Sample2.cohere_each Sample2.library)) =
    Normal (Some tt) /\
  exists corpus : list EmbeddedDocument,
    map document corpus = documents_of Sample2.library files /\
    snd (fst (initializeDocuments MiniJSON.JSON Sample2.cohere_each Sample2.library)) =
      corpus_of corpus.
Proof.
  assert (Hmiss : fst (loadEmbeddingsFromFile MiniJSON.JSON Sample2.library) = Normal None)
    by (vm_compute; reflexivity).
  assert (Hup : forall t r, exists response,
             embed Sample2.cohere_each t r = Normal response /\
             length (embeddings response) = length (texts r))
    by (intros t r; eexists; split; [reflexivity | cbn; apply length_map]).
  assert (Hrun : fst (fst (initializeDocuments MiniJSON.JSON Sample2.cohere_each
                             Sample2.library)) = Normal (Some tt))
    by (vm_compute; reflexivity).
  split; [exact Hmiss|]. split; [exact Hup|]. split; [exact Hrun|].
  destruct (initializeDocuments_cold MiniJSON.JSON Sample2.cohere_each Sample2.library
              Hmiss Hup) as (corpus & Hdocs & _ & Hend).
  exists corpus. split; [exact Hdocs | exact (proj1 (Hend Hrun))].
Defined.

Lemma loaded_document_fresh (d : Fresh.Document) :
  loaded_document (JSON_image (fresh_record d)) = Normal (reloaded d).
Proof.
  unfold reloaded, fresh_record. destruct (Fresh.embedding d) as [e|]; cbn;
    [now rewrite map_map | reflexivity].
Qed.

Lemma map_completion_fresh (documents : list Fresh.Document) :
  map_completion loaded_document (map JSON_image (map fresh_record documents)) =
  Normal (map reloaded documents).
Proof.
  induction documents as [|d documents IH]; [reflexivity|].
  cbn [map map_completion]. rewrite loaded_document_fresh, IH. reflexivity.
Qed.

(** X20: a second start reads what the first one wrote.  After a run of
    [initializeDocuments] that embedded the documents, and with a [JSON]
    object that reads back what it wrote, another run, whatever the provider
    then does, takes the corpus from the cache file: it calls no provider,
    writes nothing, and [cachedDocuments] holds the documents of the first
    run as JSON text keeps them. *)
Theorem initializeDocuments_twice (JSON : JSONLib) (cohere cohere' : CohereClient)
    (w : World) (fresh : list Fresh.Document) :
  fst (initializeDocuments JSON cohere w) = (Normal (Some tt), Embedded fresh) ->
  reads_back JSON (JArr (map fresh_record fresh)) ->
  fst (initializeDocuments JSON cohere' (snd (initializeDocuments JSON cohere w))) =
    (Normal (Some tt), FromFile (map reloaded fresh)) /\
  provider_calls (initialize_events JSON cohere' (snd (initializeDocuments JSON cohere w)))
    = [] /\
  fs (snd (initializeDocuments JSON cohere' (snd (initializeDocuments JSON cohere w)))) =
    fs (snd (initializeDocuments JSON cohere w)).
Proof.
  intros Hrun Hback.
  assert (Hread : readable (snd (initializeDocuments JSON cohere w)) EMBEDDINGS_FILE =
                  Some (stringify JSON (JArr (map fresh_record fresh)))).
  { destruct (initializeDocuments_steps JSON cohere w)
      as (w0 & Hfs & _ & [(loaded & _ & Hinit) | [_ Hinit]]);
      rewrite Hinit in Hrun |- *; [discriminate Hrun|].
    destruct (compute_embeddings_run JSON cohere w0)
      as [[_ Hnot] | (all & fresh' & _ & _ & Hc & Hfs')].
    - destruct (compute_embeddings JSON cohere w0) as [[[fresh'|]|e] w1];
        try discriminate Hrun.
      injection Hrun as <-. now destruct (Hnot fresh').
    - destruct (compute_embeddings JSON cohere w0) as [c w1]. cbn [fst snd] in *. subst c.
      injection Hrun as <-. cbn [snd]. unfold readable. rewrite Hfs'.
      now rewrite lookup_insert_eq. }
  assert (Hitems : ~ In JNull (map JSON_image (map fresh_record fresh))).
  { rewrite map_map, in_map_iff. intros (d & Hd & _). discriminate Hd. }
  destruct (initializeDocuments_warm JSON cohere' _ _ _ Hread Hback Hitems)
    as (loaded & Hmap & Hinit & Hfs & Hevents).
  rewrite map_completion_fresh in Hmap. injection Hmap as <-.
  rewrite Hinit, Hevents. auto.
Qed.

Lemma initializeDocuments_twice_witness :
  fst (initializeDocuments MiniJSON.JSON Sample2.cohere_each Sample2.library) =
    (Normal (Some tt), Embedded Sample2.library_corpus) /\
  reads_back MiniJSON.JSON (JArr (map fresh_record Sample2.library_corpus)) /\
  fst (initializeDocuments MiniJSON.JSON Sample.cohere_down
         (snd (initializeDocuments MiniJSON.JSON Sample2.cohere_each Sample2.library))) =
    (Normal (Some tt), FromFile (map reloaded Sample2.library_corpus)).
Proof.
  assert (Hrun : fst (initializeDocuments MiniJSON.JSON Sample2.cohere_each Sample2.library) =
                 (Normal (Some tt), Embedded Sample2.library_corpus))
    by (vm_compute; reflexivity).
  assert (Hback : reads_back MiniJSON.JSON (JArr (map fresh_record Sample2.library_corpus)))
    by (vm_compute; reflexivity).
  split; [exact Hrun|]. split; [exact Hback|].
  exact (proj1 (initializeDocuments_twice MiniJSON.JSON Sample2.cohere_each Sample.cohere_down
                  Sample2.library Sample2.library_corpus Hrun Hback)).
Defined.

(** X21: [initializeDocuments] always ends, and when it throws the server
    is left without a corpus: the cache had given [null], that [null] is what
    [cachedDocuments] holds, and nothing has been written. *)
Theorem initializeDocuments_throws (JSON : JSONLib) (cohere : CohereClient) (w : World) :
  fst (fst (initializeDocuments JSON cohere w)) <> Normal None /\
  (forall e v,
     fst (initializeDocuments JSON cohere w) = (Throw e, v) ->
     v = NullValue /\
     fst (loadEmbeddingsFromFile JSON w) = Normal None /\
     fs (snd (initializeDocuments JSON cohere w)) = fs w).
Proof.
  destruct (initializeDocuments_steps JSON cohere w)
    as (w0 & Hfs & _ & [(loaded & _ & ->) | [Hmiss ->]]).
  - split; [discriminate|]. intros e v H. discriminate H.
  - assert (Hends : fst (compute_embeddings JSON cohere w0) <> Normal None).
    { rewrite compute_embeddings_steps.
      match goal with
      | |- context [embedDocumentsInBatches cohere ?d 96 ?w1] =>
          pose proof (embedDocumentsInBatches_ends cohere d 96 w1 ltac:(lia)) as H;
          destruct (embedDocumentsInBatches cohere d 96 w1) as [[[all|]|e] w2]
      end; cbn [fst] in *; try discriminate; [|contradiction].
      destruct (set_embeddings _ all); [|discriminate].
      destruct (fs w2 !! EMBEDDINGS_FILE) as [[content|]|]; discriminate. }
    destruct (compute_embeddings_run JSON cohere w0) as [[Hsame _] | (all & fresh & _ & _ & Hc & _)].
    + destruct (compute_embeddings JSON cohere w0) as [[[fresh|]|e] w1]; cbn [fst snd] in *.
      * split; [discriminate|]. intros e v H. discriminate H.
      * contradiction.
      * split; [discriminate|]. intros e' v [= <- <-]. repeat split; congruence.
    + destruct (compute_embeddings JSON cohere w0) as [c w1]. cbn [fst snd] in *. subst c.
      split; [discriminate|]. intros e v H. discriminate H.
Qed.

Lemma initializeDocuments_throws_witness :
  fst (initializeDocuments MiniJSON.JSON Sample.cohere_down Sample2.library) =
    (Throw (ProviderError "429 Too Many Requests"), NullValue) /\
  fs (snd (initializeDocuments MiniJSON.JSON Sample.cohere_down Sample2.library)) =
    fs Sample2.library.
Proof.
  assert (H : fst (initializeDocuments MiniJSON.JSON Sample.cohere_down Sample2.library) =
              (Throw (ProviderError "429 Too Many Requests"), NullValue))
    by (vm_compute; reflexivity).
  split; [exact H|].
  exact (proj2 (proj2 (proj2 (initializeDocuments_throws MiniJSON.JSON Sample.cohere_down
                                Sample2.library) _ _ H))).
Defined.

(** X22: how the embeddings are set on the documents.  With more
    embeddings than documents the [forEach] throws a TypeError.  Otherwise
    the documents keep their order, document [i] gets embedding [i], the
    documents past the last embedding get none, and the record written for
    such a document has no [embedding] property. *)
Theorem set_embeddings_by_index (documents : list Document) (allEmbeddings : list (list float)) :
  ((length documents < length allEmbeddings)%nat ->
   exists message, set_embeddings documents allEmbeddings = Throw (TypeError message)) /\
  ((length allEmbeddings <= length documents)%nat ->
   exists fresh : list Fresh.Document,
     set_embeddings documents allEmbeddings = Normal fresh /\
     map Fresh.document fresh = documents /\
     map Fresh.embedding fresh =
       map Some allEmbeddings ++ repeat None (length documents - length allEmbeddings) /\
     Forall (fun d => Fresh.embedding d = None ->
                      get_property (fresh_record d) "embedding" = Normal None) fresh).
Proof.
  unfold set_embeddings. split; intros Hlen.
  - replace (length documents <? length allEmbeddings)%nat with true
      by (symmetry; apply Nat.ltb_lt; lia). eauto.
  - replace (length documents <? length allEmbeddings)%nat with false
      by (symmetry; apply Nat.ltb_ge; lia).
    eexists. split; [reflexivity|]. split; [apply with_embeddings_documents|]. split.
    + rewrite with_embeddings_embeddings. now rewrite firstn_all2 by lia.
    + apply List.Forall_forall. intros d _ Hd. unfold fresh_record. now rewrite Hd.
Qed.

Lemma set_embeddings_by_index_witness :
  ((length [document Sample.diagonal] < length [Sample.query; Sample.query])%nat /\
   exists message,
     set_embeddings [document Sample.diagonal] [Sample.query; Sample.query]
       = Throw (TypeError message)) /\
  ((length [Sample.query] <= length [document Sample.diagonal; document Sample.slanted])%nat /\
   exists fresh : list Fresh.Document,
     set_embeddings [document Sample.diagonal; document Sample.slanted] [Sample.query]
       = Normal fresh /\
     map Fresh.embedding fresh = [Some Sample.query; None]).
Proof.
  split.
  - assert (H : (length [document Sample.diagonal] < length [Sample.query; Sample.query])%nat)
      by (cbn; lia).
    split; [exact H|].
    exact (proj1 (set_embeddings_by_index [document Sample.diagonal]
                    [Sample.query; Sample.query]) H).
  - assert (H : (length [Sample.query]
                 <= length [document Sample.diagonal; document Sample.slanted])%nat)
      by (cbn; lia).
    split; [exact H|].
    destruct (proj2 (set_embeddings_by_index [document Sample.diagonal; document Sample.slanted]
                       [Sample.query]) H) as (fresh & Hset & _ & Hemb & _).
    exists fresh. split; [exact Hset | exact Hemb].
Defined.

(** ** The client's retries *)

Module ClientFacts.

Import Client.

Local Open Scope Z_scope.



(** The pauses after the attempts [i], [i + 1], ... *)
Lemma doubling_cons (delay i : Z) (n : nat) :
  delay * 2 ^ i :: map (fun k => delay * 2 ^ (i + 1 + Z.of_nat k)) (seq 0 n) =
  map (fun k => delay * 2 ^ (i + Z.of_nat k)) (seq 0 (S n)).
Proof.
  cbn [seq map]. rewrite Z.add_0_r. f_equal.
  rewrite <- seq_shift, map_map. apply map_ext. intros k. do 2 f_equal. lia.
Qed.

Section Retries.

Variable fetch : list Event -> Settled FetchResponse.
Variables retries delay : Z.

(** What a run of the loop leaves, whatever its result. *)
Lemma retry_from_trace (fuel : nat) :
  forall (i : Z) (trace : list Event),
    (Z.to_nat (retries - i) <= fuel)%nat ->
    exists new : list Event,
      snd (retry_from fuel fetch retries delay i trace) = trace ++ new /\
      fst (retry_from fuel fetch retries delay i trace) <> None /\
      waits new = map (fun k => delay * 2 ^ (i + Z.of_nat k)) (seq 0 (length (waits new))) /\
      (length (waits new) <= length (fetches new) <= length (waits new) + 1)%nat /\
      (length (fetches new) <= Z.to_nat (retries - i))%nat.
Proof.
  induction fuel as [|fuel IH]; intros i trace Hfuel; cbn [retry_from];
    destruct (Z.ltb_spec i retries) as [Hi | Hi];
    try (exists []; rewrite app_nil_r; cbn; repeat split; try discriminate; lia);
    try lia.
  assert (Hnext : (Z.to_nat (retries - (i + 1)) <= fuel)%nat) by lia.
  assert (Hcount : Z.to_nat (retries - i) = S (Z.to_nat (retries - (i + 1)))) by lia.
  destruct (fetch trace) as [response|error].
  - destruct (ok response).
    + exists [Fetched (Resolved response)]. cbn. repeat split; try discriminate; lia.
    + destruct ((status response =? 429) || (500 <=? status response) && (i <? retries - 1)).
      * destruct (IH (i + 1) ((trace ++ [Fetched (Resolved response)])
                                ++ [Warned (i + 1) (status response) delay;
                                    Waited (delay * 2 ^ i)]) Hnext)
          as (new & -> & Hnone & Hwaits & Hboth & Hmost).
        exists (Fetched (Resolved response) :: Warned (i + 1) (status response) delay
                :: Waited (delay * 2 ^ i) :: new).
        split; [now rewrite <- !app_assoc|]. split; [exact Hnone|].
        cbn [fetches waits omap list_omap]. fold (fetches new) (waits new). cbn [length].
        split; [rewrite Hwaits at 1; apply doubling_cons|]. lia.
      * destruct (Z.eqb_spec i (retries - 1)) as [Hlast | Hmore].
        -- exists [Fetched (Resolved response)]. cbn. repeat split; try discriminate; lia.
        -- destruct (IH (i + 1) ((trace ++ [Fetched (Resolved response)])
                                   ++ [Waited (delay * 2 ^ i)]) Hnext)
             as (new & -> & Hnone & Hwaits & Hboth & Hmost).
           exists (Fetched (Resolved response) :: Waited (delay * 2 ^ i) :: new).
           split; [now rewrite <- !app_assoc|]. split; [exact Hnone|].
           cbn [fetches waits omap list_omap]. fold (fetches new) (waits new). cbn [length].
           split; [rewrite Hwaits at 1; apply doubling_cons|]. lia.
  - destruct (Z.eqb_spec i (retries - 1)) as [Hlast | Hmore].
    + exists [Fetched (Rejected error)]. cbn. repeat split; try discriminate; lia.
    + destruct (IH (i + 1) ((trace ++ [Fetched (Rejected error)])
                              ++ [Waited (delay * 2 ^ i)]) Hnext)
        as (new & -> & Hnone & Hwaits & Hboth & Hmost).
      exists (Fetched (Rejected error) :: Waited (delay * 2 ^ i) :: new).
      split; [now rewrite <- !app_assoc|]. split; [exact Hnone|].
      cbn [fetches waits omap list_omap]. fold (fetches new) (waits new). cbn [length].
      split; [rewrite Hwaits at 1; apply doubling_cons|]. lia.
Qed.


End Retries.

End ClientFacts.

Lemma fetchWithRetry_waits_doubling
    (fetch : list Client.Event -> Client.Settled Client.FetchResponse) (retries delay : Z) :
  Client.waits (snd (Client.fetchWithRetry fetch retries delay)) =
    map (fun k => (delay * 2 ^ Z.of_nat k)%Z)
      (seq 0 (length (Client.waits (snd (Client.fetchWithRetry fetch retries delay))))) /\
  (length (Client.waits (snd (Client.fetchWithRetry fetch retries delay)))
     <= Z.to_nat retries)%nat.
Proof.
  unfold Client.fetchWithRetry.
  destruct (ClientFacts.retry_from_trace fetch retries delay (Z.to_nat retries) 0 [])
    as (new & Htrace & _ & Hwaits & Hboth & Hmost); [lia|].
  rewrite Htrace. cbn [app]. rewrite Z.sub_0_r in Hmost. split; [exact Hwaits | lia].
Qed.








Lemma sum_doubling (delay : Z) (m : nat) :
  fold_right Z.add 0%Z (map (fun k => (delay * 2 ^ Z.of_nat k)%Z) (seq 0 m)) =
  (delay * (2 ^ Z.of_nat m - 1))%Z.
Proof.
  induction m as [|m IH]; [cbn; lia|].
  rewrite seq_S, map_app, fold_right_app. cbn [seq map fold_right Nat.add].
  assert (Hshift : forall (l : list Z) (a : Z),
             fold_right Z.add a l = (fold_right Z.add 0 l + a)%Z)
    by (induction l as [|x l IHl]; intros a; cbn [fold_right]; [lia | rewrite IHl; lia]).
  rewrite Hshift, IH, Nat2Z.inj_succ, Z.pow_succ_r by lia. lia.
Qed.

(** X27: the pauses of a run add up to [delay * (2^n - 1)] for the number
    [n] of pauses, so to at most [delay * (2^retries - 1)]: 7 seconds with
    the defaults. *)
Theorem fetchWithRetry_total_wait (fetch : list Client.Event -> Client.Settled Client.FetchResponse)
    (retries delay : Z) :
  (0 <= retries)%Z -> (0 <= delay)%Z ->
  (fold_right Z.add 0 (Client.waits (snd (Client.fetchWithRetry fetch retries delay)))
     <= delay * (2 ^ retries - 1))%Z.
Proof.
  intros Hretries Hdelay.
  destruct (fetchWithRetry_waits_doubling fetch retries delay) as (Hwaits & Hcount).
  rewrite Hwaits, sum_doubling.
  apply Z.mul_le_mono_nonneg_l; [exact Hdelay|].
  assert (2 ^ Z.of_nat (length (Client.waits (snd (Client.fetchWithRetry fetch retries delay))))
          <= 2 ^ retries)%Z by (apply Z.pow_le_mono_r; lia).
  lia.
Qed.

Lemma fetchWithRetry_total_wait_witness :
  (0 <= Client.default_retries)%Z /\ (0 <= Client.default_delay)%Z /\
  (fold_right Z.add 0
     (Client.waits
        (snd (Client.fetchWithRetry (Client.always (Client.Resolved Client.too_many_requests))
                Client.default_retries Client.default_delay)))
     <= 7000)%Z.
Proof.
  assert (Hretries : (0 <= Client.default_retries)%Z) by (vm_compute; discriminate).
  assert (Hdelay : (0 <= Client.default_delay)%Z) by (vm_compute; discriminate).
  split; [exact Hretries|]. split; [exact Hdelay|].
  exact (fetchWithRetry_total_wait (Client.always (Client.Resolved Client.too_many_requests))
           Client.default_retries Client.default_delay Hretries Hdelay).
Defined.
